(** * LaTeX sanitizing and repair scripts: a Rocq model

    Shallow embedding of
      - skills/latex-formatting/scripts/clean_latex.py
      - skills/latex-formatting/scripts/latex_checker.py
      - skills/paper-compilation/scripts/fix_latex_errors.py

    A Python [str] is a sequence of Unicode code points: it is modelled as
    [list N].  The patterns handed to Python's [re] module are modelled as
    values of the type [re] below, run by a backtracking matcher that lists
    the successful continuations in the order in which [re] tries them. *)

From Stdlib Require Import NArith Ascii DecimalString DecimalNat.
From stdpp Require Import gmap list strings sorting.

Local Open Scope N_scope.
Local Open Scope nat_scope.
Local Open Scope list_scope.

(** ** Characters and strings *)

Abbreviation char := N (only parsing).
Abbreviation pystr := (list N) (only parsing).

(** ASCII literal to code points. *)
Definition str (x : string) : pystr :=
  (fun a => N_of_ascii a) <$> String.list_ascii_of_string x.

Arguments str x%_string.

(** A one-character ASCII literal. *)
Definition ch (x : string) : char :=
  match str x with c :: _ => c | [] => 0%N end.
Arguments ch x%_string.

Definition NL : char := 10%N.
Definition BSL : char := 92%N.
Definition DQUOTE : char := 34%N.

Definition eqc (c : char) : char -> bool := fun x => N.eqb x c.
Definition neqc (c : char) : char -> bool := fun x => negb (N.eqb x c).
Definition between (lo hi : char) : char -> bool :=
  fun x => N.leb lo x && N.leb x hi.
Definition anychar : char -> bool := fun _ => true.
(** [.] without [re.DOTALL] *)
Definition dot_noline : char -> bool := neqc NL.

(** [str.isspace] / [\s] on [str] patterns: the Unicode white space set. *)
Definition is_space (c : char) : bool :=
  between 9 13 c || between 28 32 c || eqc 133 c || eqc 160 c || eqc 5760 c
  || between 8192 8202 c || eqc 8232 c || eqc 8233 c || eqc 8239 c
  || eqc 8287 c || eqc 12288 c.

(** ** Python string operations *)

Fixpoint startswith (p t : pystr) : bool :=
  match p, t with
  | [], _ => true
  | a :: p', b :: t' => N.eqb a b && startswith p' t'
  | _ :: _, [] => false
  end.

(** [text[a:b]] for [0 <= a], [0 <= b] *)
Definition slice (text : pystr) (a b : nat) : pystr := take (b - a) (drop a text).

(** [text.find(sub)], counted from the start of [text]; [None] is [-1]. *)
Fixpoint find (sub text : pystr) : option nat :=
  if startswith sub text then Some 0
  else match text with
       | [] => None
       | _ :: t' => S <$> find sub t'
       end.

(** [text.rfind(sub)] *)
Fixpoint rfind (sub text : pystr) : option nat :=
  match text with
  | [] => if startswith sub text then Some 0 else None
  | _ :: t' =>
      match rfind sub t' with
      | Some i => Some (S i)
      | None => if startswith sub text then Some 0 else None
      end
  end.

(** [sub in text] *)
Definition contains (sub text : pystr) : bool := bool_decide (is_Some (find sub text)).

(** [text.split(sep, 1)] when [sep] occurs: the two pieces around the first
    occurrence. *)
Definition split_once (sep text : pystr) : option (pystr * pystr) :=
  i ← find sep text; Some (take i text, drop (i + length sep) text).

(** [text.split("\n")] *)
Fixpoint split_lines (text : pystr) : list pystr :=
  match text with
  | [] => [[]]
  | c :: t' =>
      if N.eqb c NL then [] :: split_lines t'
      else match split_lines t' with
           | l :: ls => (c :: l) :: ls
           | [] => [[c]]
           end
  end.

(** [text.lstrip()], [text.rstrip()], [text.strip()] *)
Fixpoint lstrip (text : pystr) : pystr :=
  match text with
  | c :: t' => if is_space c then lstrip t' else text
  | [] => []
  end.

Fixpoint rstrip (text : pystr) : pystr :=
  match text with
  | [] => []
  | c :: t' =>
      match rstrip t' with
      | [] => if is_space c then [] else [c]
      | r => c :: r
      end
  end.

Definition strip (text : pystr) : pystr := lstrip (rstrip text).

(** [text.replace(c, r)] for a one-character [c] *)
Definition replace_char (c : char) (r : pystr) (text : pystr) : pystr :=
  flat_map (fun x => if N.eqb x c then r else [x]) text.

(** ** Regular expressions as Python's [re] runs them *)

Inductive re : Type :=
| Fail                                  (* an empty alternation *)
| Eps
| Chr (p : char -> bool)                (* one character, literal or class *)
| Seq (a b : re)
| Alt (a b : re)                        (* a|b, a tried first *)
| Star (greedy : bool) (a : re)         (* a* and a*? *)
| Group (i : nat) (a : re)              (* capturing group number i *)
| NotPrev (p : char -> bool)            (* (?<!c) *)
| NotNext (p : char -> bool).           (* (?!c) *)

Definition Plus (a : re) : re := Seq a (Star true a).
Definition Opt (a : re) : re := Alt a Eps.
Definition lit (x : pystr) : re := foldr (fun c r => Seq (Chr (eqc c)) r) Eps x.
Definition alts (l : list re) : re := foldr Alt Fail l.
Definition seqs (l : list re) : re := foldr Seq Eps l.

(** The matcher state: the character before the cursor (for the one
    character lookbehinds), the text from the cursor on, and the groups. *)
Record state := St {
  prev : option char;
  rest : pystr;
  caps : list (nat * pystr)
}.

Definition set_cap (i : nat) (v : pystr) (st : state) : state :=
  St (prev st) (rest st) ((i, v) :: filter (fun kv => bool_decide (kv.1 <> i)) (caps st)).

Definition get_cap (i : nat) (g : list (nat * pystr)) : pystr :=
  match List.find (fun kv => Nat.eqb kv.1 i) g with
  | Some kv => kv.2
  | None => []
  end.

Section star.
Variable step : state -> list state.

(** Iterations of a starred body, in backtracking order.  An iteration
    has to consume input; every starred body of the patterns below
    consumes at least one character, so nothing is lost.  [fuel] starts
    at the length of the remaining text and each iteration shortens that
    text, so [fuel] only reaches [0] on the empty text. *)
Fixpoint star_loop (greedy : bool) (fuel : nat) (st : state) : list state :=
  match fuel with
  | 0 => [st]
  | S f =>
      let more :=
        flat_map (fun st' =>
          if bool_decide (length (rest st') < length (rest st))
          then star_loop greedy f st' else []) (step st) in
      if greedy then more ++ [st] else st :: more
  end.
End star.

(** All the ways [r] matches at the cursor, first choice first. *)
Fixpoint exec (r : re) (st : state) : list state :=
  match r with
  | Fail => []
  | Eps => [st]
  | Chr p =>
      match rest st with
      | c :: tl => if p c then [St (Some c) tl (caps st)] else []
      | [] => []
      end
  | Seq a b => flat_map (exec b) (exec a st)
  | Alt a b => exec a st ++ exec b st
  | Star g a => star_loop (exec a) g (length (rest st)) st
  | Group i a =>
      (fun st' => set_cap i (take (length (rest st) - length (rest st')) (rest st)) st')
        <$> exec a st
  | NotPrev p =>
      match prev st with
      | Some c => if p c then [] else [st]
      | None => [st]
      end
  | NotNext p =>
      match rest st with
      | c :: _ => if p c then [] else [st]
      | [] => [st]
      end
  end.

(** One attempt at the cursor: the length of the match and its groups.
    With [must_advance] an empty match is refused and the matcher
    backtracks to its next choice, as [re] does right after an empty
    match. *)
Definition match_at (r : re) (prv : option char) (txt : pystr) (must_advance : bool)
  : option (nat * list (nat * pystr)) :=
  (fun st' => (length txt - length (rest st'), caps st')) <$>
  head (filter (fun st' => negb must_advance || bool_decide (length (rest st') < length txt))
          (exec r (St prv txt []))).

Record rmatch := Match {
  m_start : nat;
  m_end : nat;
  m_groups : list (nat * pystr)
}.

(** The scan shared by [finditer], [findall], [sub] and [split]: leftmost
    match from the cursor, then on from its end.  [skip] counts the
    characters of the current match that are still to be stepped over. *)
Fixpoint scan (r : re) (pos : nat) (prv : option char) (txt : pystr) (skip : nat)
  : list rmatch :=
  match skip with
  | S k =>
      match txt with
      | c :: tl => scan r (S pos) (Some c) tl k
      | [] => []
      end
  | 0 =>
      match match_at r prv txt false with
      | None =>
          match txt with
          | c :: tl => scan r (S pos) (Some c) tl 0
          | [] => []
          end
      | Some (0, g) =>
          Match pos pos g ::
          match txt with
          | [] => []
          | c :: tl =>
              match match_at r prv txt true with
              | Some (n, g') => Match pos (pos + n) g' :: scan r (S pos) (Some c) tl (n - 1)
              | None => scan r (S pos) (Some c) tl 0
              end
          end
      | Some (S n, g) =>
          Match pos (pos + S n) g ::
          match txt with
          | c :: tl => scan r (S pos) (Some c) tl n
          | [] => []
          end
      end
  end.

Definition finditer (r : re) (text : pystr) : list rmatch := scan r 0 None text 0.

(** [m.group()] *)
Definition group0 (text : pystr) (m : rmatch) : pystr := slice text (m_start m) (m_end m).

(** [pattern.sub(repl, text)] with a function [repl] of the match *)
Definition re_sub (r : re) (repl : rmatch -> pystr) (text : pystr) : pystr :=
  let '(out, last) :=
    foldl (fun '(out, last) m =>
             (out ++ slice text last (m_start m) ++ repl m, m_end m))
          ([], 0) (finditer r text) in
  out ++ drop last text.

(** [pattern.split(text)] for a pattern whose only group is number 1: the
    gaps and, after each gap, the text of that group. *)
Definition re_split (r : re) (text : pystr) : list pystr :=
  let '(out, last) :=
    foldl (fun '(out, last) m =>
             (out ++ [slice text last (m_start m); get_cap 1 (m_groups m)], m_end m))
          ([], 0) (finditer r text) in
  out ++ [drop last text].

(** [d[k]] on a dict kept as an association list in insertion order.  The
    [KeyError] of a missing key is the empty result here: the only use is
    [CHARS[m.group(1)]] and [TABLE_CHARS[m.group()]] on a matched key. *)
Definition getitem (d : list (pystr * pystr)) (k : pystr) : pystr :=
  match List.find (fun kv => bool_decide (kv.1 = k)) d with
  | Some kv => kv.2
  | None => []
  end.

(** * clean_latex.py *)

Module CleanLatex.

(** Special characters to LaTeX escape sequences *)
Definition CHARS : list (pystr * pystr) := [
  (str "&", str "\&");
  (str "%", str "\%");
  (str "#", str "\#");
  (str "_", str "\_");
  (str "^", str "\textasciicircum{}");
  (str "<", str "$<$");
  (str ">", str "$>$");
  ([0x2264%N], str "$\leq$");
  ([0x2265%N], str "$\geq$");
  ([0x2260%N], str "$\neq$");
  ([0x00b1%N], str "$\pm$");
  ([0x00d7%N], str "$\times$");
  ([0x00f7%N], str "$\div$");
  ([0x00b0%N], str "$^{\circ}$");
  ([0x221e%N], str "$\infty$");
  ([0x221a%N], str "$\sqrt{}$");
  ([0x2211%N], str "$\sum$");
  ([0x220f%N], str "$\prod$");
  (str "|", str "\textbar{}");
  ([0x2208%N], str "$\in$");
  ([0x2209%N], str "$\notin$");
  ([0x2200%N], str "$\forall$");
  ([0x2203%N], str "$\exists$");
  ([0x2205%N], str "$\emptyset$");
  ([0x200b%N], []);
  ([0x202f%N], str " ")
].

(** Non-UTF8 characters to LaTeX-safe replacements *)
Definition NON_UTF8_CHARS : list (char * pystr) := [
  (0x2013%N, str "--");
  (0x2019%N, str "'");
  (0x2018%N, str "`");
  (0x201c%N, str "``");
  (0x201d%N, str "''");
  (0x00b2%N, str "$^2$");
  (0x00b3%N, str "$^3$");
  (0x00bc%N, str "$\frac{1}{4}$");
  (0x00bd%N, str "$\frac{1}{2}$");
  (0x00be%N, str "$\frac{3}{4}$");
  (0x2206%N, str "$\Delta$");
  (0x2207%N, str "$\nabla$");
  (0x2202%N, str "$\partial$");
  (0x2014%N, str "---");
  (0x2026%N, str "\ldots{}");
  (0x00e9%N, str "\'e");
  (0x00e8%N, str "\`e");
  (0x00fc%N, [BSL; DQUOTE; ch "u"]);
  (0x00f6%N, [BSL; DQUOTE; ch "o"]);
  (0x00e4%N, [BSL; DQUOTE; ch "a"])
].

Definition TABLE_CHARS : list (pystr * pystr) := [
  (str ">", str "$>$");
  (str "<", str "$<$");
  (str "=", str "$=$");
  (str "|", str "\textbar{}")
].

Definition LATEX_ENV_NAMES : list pystr := [
  str "equation"; str "equation*"; str "align"; str "align*"; str "gather"; str "gather*";
  str "math"; str "displaymath"; str "figure"; str "figure*"; str "lstlisting";
  str "tabular"; str "tabular*"; str "array"
].

(** [{[^}]*}] *)
Definition braces : re :=
  seqs [lit (str "{"); Star true (Chr (neqc (ch "}"))); lit (str "}")].

Definition SKIP_COMMANDS : list re := [
  seqs [lit (str "\ref"); braces];
  seqs [lit (str "\label"); braces];
  seqs [lit (str "\autoref"); braces];
  seqs [lit (str "\cite"); Star true (Chr (between (ch "a") (ch "z"))); braces];
  seqs [lit (str "\url"); braces];
  seqs [lit (str "\href"); braces; braces]
].

(** The combined pattern, compiled with [re.DOTALL]: [.] is any character. *)
Definition build_skip_pattern : re :=
  alts (
    (* Comments (% to end of line, unless escaped) *)
    [ seqs [NotPrev (eqc BSL); lit (str "%"); Star true (Chr (neqc NL))] ]
    (* Command definitions (contain # for parameters) *)
    ++ [ seqs [lit (str "\");
               alts [seqs [Opt (lit (str "re")); lit (str "newcommand")];
                     lit (str "providecommand");
                     lit (str "DeclareMathOperator")];
               Opt (lit (str "*"));
               Star true (alts [braces;
                                seqs [lit (str "["); Star true (Chr (neqc (ch "]"))); lit (str "]")]]);
               braces] ]
    ++ [ seqs [lit (str "\def\");
               Plus (Chr (fun c => between (ch "a") (ch "z") c || between (ch "A") (ch "Z") c
                                   || eqc (ch "@") c));
               Star true (Chr (neqc (ch "{")));
               braces] ]
    (* Dollar signs *)
    ++ [ seqs [lit (str "$$"); Star false (Chr anychar); lit (str "$$")] ]
    ++ [ seqs [NotPrev (eqc (ch "$")); lit (str "$"); NotNext (eqc (ch "$"));
               Star false (Chr anychar);
               NotPrev (eqc (ch "$")); lit (str "$"); NotNext (eqc (ch "$"))] ]
    (* Escaped delimiters *)
    ++ [ seqs [lit (str "\("); Star false (Chr anychar); lit (str "\)")] ]
    ++ [ seqs [lit (str "\["); Star false (Chr anychar); lit (str "\]")] ]
    (* Named environments *)
    ++ ((fun env => seqs [lit (str "\begin{" ++ env ++ str "}");
                          Star false (Chr anychar);
                          lit (str "\end{" ++ env ++ str "}")]) <$> LATEX_ENV_NAMES)
    (* Skip commands *)
    ++ SKIP_COMMANDS).

Definition SKIP_RE : re := build_skip_pattern.

(** Replace special characters in text (non-math) with LaTeX equivalents. *)
Definition replace_special_latex_chars (text : pystr) : pystr :=
  let chars_pattern := alts ((fun kv => lit kv.1) <$> CHARS) in
  let pattern := seqs [NotPrev (eqc BSL); Group 1 chars_pattern] in
  re_sub pattern (fun m => getitem CHARS (get_cap 1 (m_groups m))) text.

(** Replace non-UTF8 characters with LaTeX-safe equivalents. *)
Definition replace_non_utf8_chars (text : pystr) : pystr :=
  foldl (fun text '(c, replacement) => replace_char c replacement text) text NON_UTF8_CHARS.

(** Process text and math regions separately.  [None] stands for an
    argument left at its default. *)
Definition process_latex_text_and_math (text : pystr)
    (process_text process_math : option (pystr -> pystr)) : pystr :=
  let process_text := default replace_special_latex_chars process_text in
  let process_math := default (fun x => x) process_math in
  let '(result, last_end) :=
    foldl (fun '(result, last_end) m =>
             (result ++ process_text (slice text last_end (m_start m))
                     ++ process_math (group0 text m),
              m_end m))
          ([], 0) (finditer SKIP_RE text) in
  result ++ process_text (drop last_end text).

(** Escape special characters in table cells. *)
Definition escape_table_chars (text : pystr) : pystr :=
  let pattern := alts ((fun kv => lit kv.1) <$> TABLE_CHARS) in
  re_sub pattern (fun m => getitem TABLE_CHARS (group0 text m)) text.

Definition TABULAR_BEGIN : pystr := str "\begin{tabular}".
Definition TABULAR_END : pystr := str "\end{tabular}".

(** Apply character escaping to the tabular content of a LaTeX table.
    When [end_] only stands before the first [begin_], the unpacking of
    [rest.split(end, 1)] raises [ValueError]; [clean_latex_file] never
    hands over such a part, and the table is returned here. *)
Definition escape_special_chars_in_table (table begin_ end_ : pystr) : pystr :=
  if negb (contains begin_ table) then table
  else if negb (contains end_ table) then table
  else
    match split_once begin_ table with
    | None => table
    | Some (before, rest) =>
        match split_once end_ rest with
        | None => table
        | Some (tabular, after) =>
            let tabular := process_latex_text_and_math tabular (Some escape_table_chars) None in
            before ++ begin_ ++ tabular ++ end_ ++ after
        end
    end.

(** Clean a full LaTeX file content. *)
Definition clean_latex_file (content : pystr) (tables_only : bool) : pystr :=
  if tables_only then
    let parts :=
      re_split (Group 1 (seqs [lit (str "\begin{tabular}"); Star false (Chr anychar);
                               lit (str "\end{tabular}")])) content in
    concat ((fun part =>
               if startswith (str "\begin{tabular}") part
               then escape_special_chars_in_table part TABULAR_BEGIN TABULAR_END
               else part) <$> parts)
  else
    let content := replace_non_utf8_chars content in
    process_latex_text_and_math content None None.

End CleanLatex.

(** Matches in text order between two offsets: each starts at or after
    the end of the one before and ends at or after its own start. *)
Fixpoint chain (lo : nat) (ms : list rmatch) (hi : nat) : Prop :=
  match ms with
  | [] => lo <= hi
  | m :: ms' => lo <= m_start m /\ m_start m <= m_end m /\ chain (m_end m) ms' hi
  end.


(** ** The regions of a document

    [process_latex_text_and_math] cuts the text at the matches of
    [SKIP_RE]: the text between two matches goes to [process_text], a
    match goes to [process_math].  [segment] lists these regions with
    their offsets, in the order in which the loop appends them. *)

Inductive kind := Plain | Protected.

Record span := Span { sp_kind : kind; sp_start : nat; sp_end : nat }.

Fixpoint spans_from (len last : nat) (ms : list rmatch) : list span :=
  match ms with
  | [] => [Span Plain last len]
  | m :: ms' =>
      Span Plain last (m_start m) :: Span Protected (m_start m) (m_end m)
        :: spans_from len (m_end m) ms'
  end.

Definition segment (text : pystr) : list span :=
  spans_from (length text) 0 (finditer CleanLatex.SKIP_RE text).

Definition span_text (text : pystr) (s : span) : pystr := slice text (sp_start s) (sp_end s).

(** What the loop appends for a region. *)
Definition render (process_text process_math : pystr -> pystr) (text : pystr) (s : span) : pystr :=
  match sp_kind s with
  | Plain => process_text (span_text text s)
  | Protected => process_math (span_text text s)
  end.

(** Spans that follow one another from [lo] to [hi]: each starts where the
    one before ends. *)
Fixpoint contiguous (lo : nat) (sp : list span) (hi : nat) : Prop :=
  match sp with
  | [] => lo = hi
  | s :: sp' => sp_start s = lo /\ sp_start s <= sp_end s /\ contiguous (sp_end s) sp' hi
  end.

Definition covers (i : nat) (s : span) : bool :=
  bool_decide (sp_start s <= i < sp_end s).

(** * Python facts shared by the two repair scripts *)

(** [re.search]: the first match of the scan. *)
Definition re_search (r : re) (text : pystr) : option rmatch := head (finditer r text).

(** [re.findall] for a pattern with one group: the text of group 1 of
    every match. *)
Definition re_findall (r : re) (text : pystr) : list pystr :=
  (fun m => get_cap 1 (m_groups m)) <$> finditer r text.

(** [str(n)] for a count *)
Definition str_of_nat (n : nat) : pystr :=
  (fun a => N_of_ascii a)
    <$> String.list_ascii_of_string (DecimalString.NilEmpty.string_of_uint (Nat.to_uint n)).

(** A literal character of a pattern compiled with [re.IGNORECASE]: [re]
    compares the simple lower case of the text character with the pattern
    character, and lets [i] also match U+0131 and [s] also match U+017F.
    The pattern characters below are ASCII and not upper case; the only
    code points outside ASCII with an ASCII lower case are U+0130 (i) and
    U+212A (k). *)
Definition ieqc (c : char) : char -> bool := fun x =>
  N.eqb x c
  || (between (ch "a") (ch "z") c && N.eqb x (c - 32)%N)
  || (N.eqb c (ch "i") && (N.eqb x 0x130%N || N.eqb x 0x131%N))
  || (N.eqb c (ch "s") && N.eqb x 0x17f%N)
  || (N.eqb c (ch "k") && N.eqb x 0x212a%N).

Definition ilit (x : pystr) : re := foldr (fun c r => Seq (Chr (ieqc c)) r) Eps x.

(** [os.path.join(a, b)] on a POSIX system *)
Definition os_path_join (a b : pystr) : pystr :=
  if startswith (str "/") b then b
  else if bool_decide (a = []) || bool_decide (last a = Some (ch "/")) then a ++ b
  else a ++ str "/" ++ b.

(** Python's Unicode tables above ASCII, which [\w], [\d] and [int] read
    and which are no part of the repository: whether a code point is
    alphanumeric, and its value when it is a decimal digit. *)
Record unicode_db := {
  uni_alnum : char -> bool;
  uni_decimal : char -> option N
}.

Section with_unicode.
Variable U : unicode_db.

(** [\w] on a [str] pattern *)
Definition is_word (c : char) : bool :=
  if (c <? 128)%N
  then between (ch "a") (ch "z") c || between (ch "A") (ch "Z") c
       || between (ch "0") (ch "9") c || N.eqb c (ch "_")
  else uni_alnum U c.

Definition decimal_value (c : char) : option N :=
  if (c <? 128)%N
  then (if between (ch "0") (ch "9") c then Some (c - 48)%N else None)
  else uni_decimal U c.

(** [\d] on a [str] pattern *)
Definition is_digit (c : char) : bool := bool_decide (is_Some (decimal_value c)).

(** The interpreter's default limit on the digits of a string handed to
    [int]: [sys.int_info.default_max_str_digits]. *)
Definition INT_MAX_STR_DIGITS : nat := 4300.

(** [int(s)] for a string of decimal digits.  [None] is the [ValueError]
    that [int] raises when the string has more digits than the limit. *)
Definition int_of (x : pystr) : option N :=
  if INT_MAX_STR_DIGITS <? length x then None
  else Some (foldl (fun acc c => (10 * acc + default 0 (decimal_value c))%N) 0%N x).

End with_unicode.

(** * fix_latex_errors.py *)

Module FixLatexErrors.

(** A fix to apply to LaTeX content. *)
Record LatexFix := Fix {
  name : pystr;
  description : pystr;
  applied : bool
}.

Definition mkLatexFix (name description : pystr) : LatexFix := Fix name description false.

(** The dict [parse_errors] builds for one finding; [key] is only set for
    the citation and reference warnings. *)
Record error := Error {
  message : pystr;
  context : list pystr;
  line_num : option N;
  type : pystr;
  key : option pystr
}.

(** The [if]/[elif] chain over [msg] *)
Definition classify (msg : pystr) : pystr :=
  if contains (str "Undefined control sequence") msg then str "undefined_command"
  else if contains (str "Missing $ inserted") msg then str "missing_math"
  else if contains (str "Missing } inserted") msg || contains (str "Missing { inserted") msg
       then str "missing_brace"
  else if contains (str "Environment") msg && contains (str "undefined") msg
       then str "undefined_env"
  else if contains (str "File") msg && contains (str "not found") msg
       then str "missing_file"
  else if contains (str "Misplaced alignment tab") msg then str "misplaced_tab"
  else str "other".

(** [`([^']+)'] *)
Definition quoted_key : re :=
  seqs [lit (str "`"); Group 1 (Plus (Chr (neqc (ch "'")))); lit (str "'")].

Definition key_of (line : pystr) : pystr :=
  match re_search quoted_key line with
  | Some m => get_cap 1 (m_groups m)
  | None => []
  end.

Section parse.
Variable U : unicode_db.

(** [l\.(\d+)] *)
Definition line_number : re := seqs [lit (str "l."); Group 1 (Plus (Chr (is_digit U)))].

(** The loop over the context lines: the first one that carries a line
    number decides.  The outer [None] is the [ValueError] of [int], which
    nothing catches; [Some None] is a [line_num] left at [None]. *)
Fixpoint first_line_num (ctxs : list pystr) : option (option N) :=
  match ctxs with
  | [] => Some None
  | ctx :: ctxs' =>
      match re_search line_number ctx with
      | Some m => n ← int_of U (get_cap 1 (m_groups m)); Some (Some n)
      | None => first_line_num ctxs'
      end
  end.

(** Parse pdflatex log file and extract errors with context.  The result
    is [None] when the function raises: the [ValueError] of [int] leaves
    the first loop and the function. *)
Definition parse_errors (log_content : pystr) : option (list error) :=
  let lines := split_lines log_content in
  errors ←
    foldl (fun errors '(i, line) =>
             errors ← errors;
             if startswith (str "! ") line then
               let context :=
                 (fun j => default [] (lines !! j))
                   <$> seq (i + 1) (min (i + 6) (length lines) - (i + 1)) in
               line_num ← first_line_num context;
               Some (errors ++ [Error (drop 2 line) context line_num
                                      (classify (drop 2 line)) None])
             else Some errors)
          (Some []) (zip (seq 0 (length lines)) lines);
  (* Also extract warnings about undefined citations/references *)
  Some (foldl (fun errors line =>
           if contains (str "Citation") line && contains (str "undefined") line then
             errors ++ [Error (strip line) [] None (str "undefined_citation") (Some (key_of line))]
           else if contains (str "Reference") line && contains (str "undefined") line then
             errors ++ [Error (strip line) [] None (str "undefined_reference") (Some (key_of line))]
           else errors)
        errors lines).

End parse.

(** The rows of [replacements] in [fix_html_tags]: pattern (compiled with
    [re.IGNORECASE], so [.] stops at a newline), the expansion of the
    replacement template, and the fix name. *)
Definition html_pair (tag : pystr) : re :=
  seqs [ilit (str "<" ++ tag ++ str ">"); Group 1 (Star false (Chr dot_noline));
        ilit (str "</" ++ tag ++ str ">")].

Definition replacements : list (re * (rmatch -> pystr) * pystr) := [
  (html_pair (str "b"),
   fun m => str "\textbf{" ++ get_cap 1 (m_groups m) ++ str "}", str "html_bold");
  (html_pair (str "i"),
   fun m => str "\textit{" ++ get_cap 1 (m_groups m) ++ str "}", str "html_italic");
  (html_pair (str "em"),
   fun m => str "\emph{" ++ get_cap 1 (m_groups m) ++ str "}", str "html_emphasis");
  (seqs [ilit (str "<br"); Star true (Chr is_space); Opt (ilit (str "/")); ilit (str ">")],
   fun _ => [BSL; BSL], str "html_br");
  (ilit (str "<p>"), fun _ => [NL; NL], str "html_p_open");
  (ilit (str "</p>"), fun _ => [], str "html_p_close");
  (html_pair (str "code"),
   fun m => str "\texttt{" ++ get_cap 1 (m_groups m) ++ str "}", str "html_code");
  (html_pair (str "sub"),
   fun m => str "$_{" ++ get_cap 1 (m_groups m) ++ str "}$", str "html_subscript");
  (html_pair (str "sup"),
   fun m => str "$^{" ++ get_cap 1 (m_groups m) ++ str "}$", str "html_superscript");
  (seqs [ilit (str "<"); Opt (ilit (str "/"));
         Group 1 (alts [ilit (str "div"); ilit (str "span"); ilit (str "section");
                        seqs [ilit (str "h"); Chr (between (ch "1") (ch "6"))]]);
         Star true (Chr (neqc (ch ">"))); ilit (str ">")],
   fun _ => [], str "html_block")
].

(** Replace HTML-like tags that end up in LaTeX. *)
Definition fix_html_tags (content : pystr) : pystr * list LatexFix :=
  foldl (fun '(content, fixes) '(pattern, repl, fix_name) =>
           let matches := finditer pattern content in
           if bool_decide (matches <> []) then
             (re_sub pattern repl content,
              fixes ++ [mkLatexFix fix_name
                          (str "Replaced " ++ str_of_nat (length matches) ++ str " HTML "
                           ++ fix_name ++ str " tags")])
           else (content, fixes))
        (content, []) replacements.

Section environments.
Variable U : unicode_db.
(** The order in which a [for] loop walks a Python [set]: some
    enumeration of its elements. *)
Variable set_iter : gset (list N) -> list (list N).

(** [\\begin\{(\w+)\}] and [\\end\{(\w+)\}] *)
Definition begin_re : re :=
  seqs [lit (str "\begin{"); Group 1 (Plus (Chr (is_word U))); lit (str "}")].
Definition end_re : re :=
  seqs [lit (str "\end{"); Group 1 (Plus (Chr (is_word U))); lit (str "}")].

(** [for b in names: counts[b] = counts.get(b, 0) + 1] *)
Definition tally (names : list (list N)) : gmap (list N) nat :=
  foldl (fun counts b => <[b := default 0 (counts !! b) + 1]> counts) ∅ names.

Definition end_token (env : pystr) : pystr := str "\end{" ++ env ++ str "}".

(** One round of the [bc > ec] branch *)
Definition add_end (env : pystr) (cf : pystr * list LatexFix) : pystr * list LatexFix :=
  (rstrip cf.1 ++ [NL] ++ end_token env ++ [NL],
   cf.2 ++ [mkLatexFix (str "add_end_" ++ env) (str "Added missing " ++ end_token env)]).

(** One round of the [ec > bc] branch *)
Definition remove_end (env : pystr) (cf : pystr * list LatexFix) : pystr * list LatexFix :=
  match rfind (end_token env) cf.1 with
  | Some idx =>
      (take idx cf.1 ++ drop (idx + length (end_token env)) cf.1,
       cf.2 ++ [mkLatexFix (str "remove_end_" ++ env) (str "Removed extra " ++ end_token env)])
  | None => cf
  end.

(** The body of the loop over the environment names *)
Definition repair_env (begin_counts end_counts : gmap (list N) nat)
    (cf : pystr * list LatexFix) (env : pystr) : pystr * list LatexFix :=
  let bc := default 0 (begin_counts !! env) in
  let ec := default 0 (end_counts !! env) in
  if ec <? bc then
    (* Missing \end: add at end of document *)
    Nat.iter (bc - ec) (add_end env) cf
  else if bc <? ec then
    (* Extra \end: remove last occurrence *)
    Nat.iter (ec - bc) (remove_end env) cf
  else cf.

(** Detect and report mismatched begin/end environments. *)
Definition fix_mismatched_environments (content : pystr) : pystr * list LatexFix :=
  let begins := re_findall begin_re content in
  let ends := re_findall end_re content in
  let begin_counts := tally begins in
  let end_counts := tally ends in
  foldl (repair_env begin_counts end_counts)
        (content, []) (set_iter (dom begin_counts ∪ dom end_counts)).

End environments.

(** Fix common math-mode issues like unescaped underscores in text. *)
Definition fix_missing_math_mode (content : pystr) : pystr * list LatexFix :=
  (content, []).

(** [\\includegraphics(?:\[.*?\])?\{([^}]+)\}] *)
Definition includegraphics_re : re :=
  seqs [lit (str "\includegraphics");
        Opt (seqs [lit (str "["); Star false (Chr dot_noline); lit (str "]")]);
        lit (str "{"); Group 1 (Plus (Chr (neqc (ch "}")))); lit (str "}")].

Definition IMAGE_EXTS : list pystr :=
  [str ".png"; str ".pdf"; str ".jpg"; str ".jpeg"; str ".eps"].

Section figures.
(** [os.path.exists]: the files on disk *)
Variable path_exists : pystr -> bool.

(** Check with and without common extensions *)
Definition figure_found (tex_dir fig_path : pystr) : bool :=
  let full_path := os_path_join tex_dir fig_path in
  path_exists full_path || existsb (fun ext => path_exists (full_path ++ ext)) IMAGE_EXTS.

(** The body of the loop over the matches: [m] is a match in the text
    the pass was called with, [content] the text as rewritten so far. *)
Definition comment_missing (tex_dir : pystr) (cf : pystr * list LatexFix) (m : rmatch)
  : pystr * list LatexFix :=
  let content := cf.1 in
  let fig_path := get_cap 1 (m_groups m) in
  if figure_found tex_dir fig_path then cf
  else
    let line_start :=
      match rfind [NL] (take (m_start m) content) with
      | Some i => i + 1
      | None => 0
      end in
    let line_end :=
      match find [NL] (drop (m_end m) content) with
      | Some i => m_end m + i
      | None => length content
      end in
    let original_line := slice content line_start line_end in
    if negb (startswith (str "%") (strip original_line)) then
      let commented := str "% FIXME: missing file - " ++ original_line in
      (take line_start content ++ commented ++ drop line_end content,
       cf.2 ++ [mkLatexFix (str "comment_missing_figure")
                  (str "Commented out missing figure: " ++ fig_path)])
    else cf.

(** Comment out includegraphics for missing figure files. *)
Definition fix_missing_figures (content tex_dir : pystr) : pystr * list LatexFix :=
  foldl (comment_missing tex_dir) (content, []) (finditer includegraphics_re content).

End figures.

(** The passes of [main], in its order, and the fixes they report. *)
Definition main_passes (U : unicode_db) (set_iter : gset (list N) -> list (list N))
    (path_exists : pystr -> bool) (content tex_dir : pystr) : pystr * list LatexFix :=
  let '(content, fixes1) := fix_html_tags content in
  let '(content, fixes2) := fix_mismatched_environments U set_iter content in
  let '(content, fixes3) := fix_missing_figures path_exists content tex_dir in
  let '(content, fixes4) := fix_missing_math_mode content in
  (content, fixes1 ++ fixes2 ++ fixes3 ++ fixes4).

End FixLatexErrors.

(** * latex_checker.py *)

Module LatexChecker.

Section environments.
Variable U : unicode_db.
Variable set_iter : gset (list N) -> list (list N).

(** The block of [main] under "Check for \begin without \end": the
    entries it appends to [fmt_issues]. *)
Definition main_fmt_issues (tex_content : pystr) : list pystr :=
  let begins := re_findall (FixLatexErrors.begin_re U) tex_content in
  let ends := re_findall (FixLatexErrors.end_re U) tex_content in
  let begin_counts := FixLatexErrors.tally begins in
  let end_counts := FixLatexErrors.tally ends in
  foldl (fun fmt_issues env =>
           let bc := default 0 (begin_counts !! env) in
           let ec := default 0 (end_counts !! env) in
           if bool_decide (bc <> ec) then
             fmt_issues ++ [str "Mismatched environment: \begin{" ++ env ++ str "} ("
                            ++ str_of_nat bc ++ str "x) vs \end{" ++ env ++ str "} ("
                            ++ str_of_nat ec ++ str "x)"]
           else fmt_issues)
        [] (set_iter (dom begin_counts ∪ dom end_counts)).

End environments.

(** [s.endswith(suffix)] *)
Definition endswith (suffix s : pystr) : bool := bool_decide (suffix `suffix_of` s).

(** [s.rstrip(c)] for a one-character [c] *)
Fixpoint rstrip_char (c : char) (s : pystr) : pystr :=
  match s with
  | [] => []
  | x :: s' =>
      match rstrip_char c s' with
      | [] => if N.eqb x c then [] else [x]
      | r => x :: r
      end
  end.

(** [os.path.dirname] on a POSIX system *)
Definition os_path_dirname (p : pystr) : pystr :=
  let i := match rfind (str "/") p with Some k => k + 1 | None => 0 end in
  let head := take i p in
  if negb (bool_decide (head = [])) && negb (forallb (eqc (ch "/")) head)
  then rstrip_char (ch "/") head
  else head.

(** [\\input\{([^}]+)\}] *)
Definition input_re : re :=
  seqs [lit (str "\input{"); Group 1 (Plus (Chr (neqc (ch "}")))); lit (str "}")].

Section files.
(** The files on disk: [os.path.exists], and what [open(...).read()]
    returns, [None] when it raises. *)
Variable path_exists : pystr -> bool.
Variable read_file : pystr -> option pystr.

(** The callback of [load_tex] for a match in [content] *)
Definition resolve_input (base_dir content : pystr) (m : rmatch) : option pystr :=
  let fname := get_cap 1 (m_groups m) in
  let fname := if negb (endswith (str ".tex") fname) then fname ++ str ".tex" else fname in
  let fpath := os_path_join base_dir fname in
  if path_exists fpath then read_file fpath
  else Some (group0 content m).

(** Load tex file, following [\input{}] directives.  The result is
    [None] when a read raises. *)
Definition load_tex (path : pystr) : option pystr :=
  content ← read_file path;
  (* Resolve \input{file} directives *)
  let base_dir := os_path_dirname path in
  if forallb (fun m => bool_decide (is_Some (resolve_input base_dir content m)))
             (finditer input_re content)
  then Some (re_sub input_re (fun m => default [] (resolve_input base_dir content m)) content)
  else None.

End files.

(** The markers of [check_todos] *)
Definition TODO_PATTERNS : list pystr :=
  [str "TODO"; str "TBD"; str "FIXME"; str "XXX"; str "HACK"].

(** A marker compiled with [re.IGNORECASE]: the pattern is matched in
    lower case. *)
Definition marker_re (pat : pystr) : re :=
  ilit ((fun c => if between (ch "A") (ch "Z") c then (c + 32)%N else c) <$> pat).

(** The body of the inner loop of [check_todos]: what is appended to
    [issues] for the match [m] of [pat]. *)
Definition todo_issue (tex_content pat : pystr) (m : rmatch) : list pystr :=
  (* Get surrounding context *)
  let start := m_start m - 30 in
  let end_ := min (length tex_content) (m_end m + 30) in
  let context := strip (replace_char NL (str " ") (slice tex_content start end_)) in
  (* Skip if in a comment *)
  let line_start :=
    match rfind [NL] (take (m_start m) tex_content) with
    | Some i => i + 1
    | None => 0
    end in
  let line := slice tex_content line_start (m_end m) in
  if contains (str "%") (take (if contains pat line then default 0 (find pat line) else 0) line)
  then []
  else [pat ++ str " found: ..." ++ context ++ str "..."].

(** Find remaining TODO/TBD/FIXME markers. *)
Definition check_todos (tex_content : pystr) : list pystr :=
  flat_map (fun pat => flat_map (todo_issue tex_content pat)
                         (finditer (marker_re pat) tex_content))
           TODO_PATTERNS.

Definition EXPECTED_SECTIONS : list pystr :=
  [str "abstract"; str "introduction"; str "related work";
   str "method"; str "experiment"; str "result"; str "conclusion"].

(** [s.title()] on an ASCII string: a letter is made upper case when it
    follows a character that is no letter, lower case when it follows a
    letter. *)
Fixpoint title_from (prev_cased : bool) (s : pystr) : pystr :=
  match s with
  | [] => []
  | c :: s' =>
      if between (ch "a") (ch "z") c
      then (if prev_cased then c else (c - 32)%N) :: title_from true s'
      else if between (ch "A") (ch "Z") c
      then (if prev_cased then (c + 32)%N else c) :: title_from true s'
      else c :: title_from false s'
  end.

Definition title (s : pystr) : pystr := title_from false s.

(** [\\section\*?\{([^}]+)\}] *)
Definition section_re : re :=
  seqs [lit (str "\section"); Opt (lit (str "*")); lit (str "{");
        Group 1 (Plus (Chr (neqc (ch "}")))); lit (str "}")].

Section sections.
(** [str.lower], which reads Python's Unicode tables *)
Variable lower : pystr -> pystr.

(** Check for required and expected sections. *)
Definition check_required_sections (tex_content : pystr) : list pystr * list pystr :=
  let sections := re_findall section_re tex_content in
  let section_names_lower := (fun s => strip (lower s)) <$> sections in
  (* Check abstract *)
  let has_abstract :=
    bool_decide (is_Some (re_search (lit (str "\begin{abstract}")) tex_content)) in
  let missing_required :=
    (if negb has_abstract && negb (bool_decide (str "abstract" ∈ section_names_lower))
     then [str "Abstract"] else [])
    ++ (if negb (existsb (contains (str "introduction")) section_names_lower)
        then [str "Introduction"] else []) in
  let missing_expected :=
    foldl (fun missing_expected expected =>
             if bool_decide (expected = str "abstract") then
               (if negb has_abstract then missing_expected ++ [str "Abstract"]
                else missing_expected)
             else if negb (existsb (contains expected) section_names_lower)
             then missing_expected ++ [title expected]
             else missing_expected)
          [] EXPECTED_SECTIONS in
  (missing_required, missing_expected).

End sections.

(** [text.split()]: the maximal runs of characters that are no white
    space.  [cur] is the word being read, if any. *)
Fixpoint words_from (cur : option pystr) (text : pystr) : list pystr :=
  match text with
  | [] => match cur with Some w => [w] | None => [] end
  | c :: t =>
      if is_space c
      then match cur with Some w => [w] | None => [] end ++ words_from None t
      else words_from (Some (default [] cur ++ [c])) t
  end.

Definition py_split (text : pystr) : list pystr := words_from None text.

Definition ascii_letter (c : char) : bool :=
  between (ch "a") (ch "z") c || between (ch "A") (ch "Z") c.

(** [(?:equation|align|gather|math)] *)
Definition math_env_names : re :=
  alts [lit (str "equation"); lit (str "align"); lit (str "gather"); lit (str "math")].

(** Rough word count excluding LaTeX commands, math, and comments. *)
Definition estimate_word_count (tex_content : pystr) : nat :=
  (* Remove comments: [%.*$] with [re.MULTILINE] *)
  let text :=
    re_sub (seqs [lit (str "%"); Star true (Chr dot_noline); NotNext (neqc NL)])
           (fun _ => []) tex_content in
  (* Remove math environments *)
  let text :=
    re_sub (seqs [lit (str "$$"); Star false (Chr anychar); lit (str "$$")])
           (fun _ => []) text in
  let text :=
    re_sub (seqs [lit (str "$"); Star false (Chr dot_noline); lit (str "$")])
           (fun _ => []) text in
  let text :=
    re_sub (seqs [lit (str "\begin{"); math_env_names; Star false (Chr anychar);
                  lit (str "}"); Star false (Chr anychar);
                  lit (str "\end{"); math_env_names; Star false (Chr anychar);
                  lit (str "}")])
           (fun _ => []) text in
  (* Remove LaTeX commands *)
  let text :=
    re_sub (seqs [lit (str "\"); Plus (Chr ascii_letter);
                  Opt (seqs [lit (str "["); Star false (Chr dot_noline); lit (str "]")]);
                  lit (str "{"); Group 1 (Star true (Chr (neqc (ch "}")))); lit (str "}")])
           (fun m => get_cap 1 (m_groups m)) text in
  let text := re_sub (seqs [lit (str "\"); Plus (Chr ascii_letter)]) (fun _ => []) text in
  (* Remove braces and special chars *)
  let text :=
    re_sub (Chr (fun c => N.eqb c (ch "{") || N.eqb c (ch "}") || N.eqb c BSL))
           (fun _ => []) text in
  let words := py_split text in
  length words.

End LatexChecker.

(** ** Substitution one character at a time

    What [pattern.sub] amounts to for a pattern that matches single
    characters: [P prv c] tells whether [c], preceded by [prv], is
    matched, and [R c] is what replaces it. *)

Fixpoint char_matches (P : option N -> N -> bool) (G : N -> list (nat * list N))
    (pos : nat) (prv : option N) (txt : list N) : list rmatch :=
  match txt with
  | [] => []
  | c :: tl =>
      (if P prv c then [Match pos (pos + 1) (G c)] else [])
      ++ char_matches P G (S pos) (Some c) tl
  end.

Fixpoint subst_chars (P : option N -> N -> bool) (R : N -> list N)
    (prv : option N) (txt : list N) : list N :=
  match txt with
  | [] => []
  | c :: tl => (if P prv c then R c else [c]) ++ subst_chars P R (Some c) tl
  end.

(** The pieces [pattern.sub] joins: the gaps and the replacements. *)
Fixpoint sub_pieces (text : list N) (repl : rmatch -> list N) (last : nat) (ms : list rmatch)
  : list (list N) :=
  match ms with
  | [] => [drop last text]
  | m :: ms' => slice text last (m_start m) :: repl m :: sub_pieces text repl (m_end m) ms'
  end.

(** Whether [c] is a key of a table whose keys are one-character strings *)
Definition is_key (d : list (list N * list N)) (c : N) : bool :=
  existsb (fun kv => bool_decide (kv.1 = [c])) d.

(** [(?<!\\)]: the cursor is not right after a backslash *)
Definition not_escaped (prv : option N) : bool :=
  match prv with
  | Some x => negb (N.eqb x BSL)
  | None => true
  end.

(** The pattern [replace_special_latex_chars] compiles. *)
Definition chars_re : re :=
  seqs [NotPrev (eqc BSL); Group 1 (alts ((fun kv => lit kv.1) <$> CleanLatex.CHARS))].

(** The pattern [escape_table_chars] compiles. *)
Definition table_re : re := alts ((fun kv => lit kv.1) <$> CleanLatex.TABLE_CHARS).

(** What [escape_table_chars] does to one character *)
Definition table_escape (c : N) : list N :=
  if N.eqb c (ch ">") then str "$>$"
  else if N.eqb c (ch "<") then str "$<$"
  else if N.eqb c (ch "=") then str "$=$"
  else if N.eqb c (ch "|") then str "\textbar{}"
  else [c].

(** A match reported by the scan is a match of the pattern at its start
    offset, seen with the character before that offset. *)
Definition found_at (r : re) (text : list N) (m : rmatch) : Prop :=
  m_start m <= m_end m /\
  exists ma, match_at r (last (take (m_start m) text)) (drop (m_start m) text) ma
             = Some (m_end m - m_start m, m_groups m).

(** The pieces [pattern.split] returns. *)
Fixpoint split_pieces (text : list N) (last : nat) (ms : list rmatch) : list (list N) :=
  match ms with
  | [] => [drop last text]
  | m :: ms' =>
      slice text last (m_start m) :: get_cap 1 (m_groups m) :: split_pieces text (m_end m) ms'
  end.

(** [\\begin\{tabular\}.*?\\end\{tabular\}] in its group, as
    [clean_latex_file] splits on it *)
Definition tabular_re : re :=
  Group 1 (seqs [lit (str "\begin{tabular}"); Star false (Chr anychar);
                 lit (str "\end{tabular}")]).

(** What tables-only cleaning may do to a text: leave it as it is, or
    rewrite the body between [\begin{tabular}] and the first
    [\end{tabular}] after it with [escape_table_chars] on its plain
    regions, piece by piece. *)
Inductive frame : list N -> list N -> Prop :=
| frame_same g : frame g g
| frame_tabular body :
    find CleanLatex.TABULAR_END body = None ->
    frame (CleanLatex.TABULAR_BEGIN ++ body ++ CleanLatex.TABULAR_END)
          (CleanLatex.TABULAR_BEGIN
           ++ CleanLatex.process_latex_text_and_math body (Some CleanLatex.escape_table_chars) None
           ++ CleanLatex.TABULAR_END)
| frame_app a a' b b' : frame a a' -> frame b b' -> frame (a ++ b) (a' ++ b').

(** A line that starts an error block: [line.startswith("! ")] *)
Definition is_error_line (line : list N) : bool := startswith (str "! ") line.

(** What the second loop of [parse_errors] appends for a line *)
Definition warning_of (line : list N) : option FixLatexErrors.error :=
  if contains (str "Citation") line && contains (str "undefined") line then
    Some (FixLatexErrors.Error (strip line) [] None (str "undefined_citation")
            (Some (FixLatexErrors.key_of line)))
  else if contains (str "Reference") line && contains (str "undefined") line then
    Some (FixLatexErrors.Error (strip line) [] None (str "undefined_reference")
            (Some (FixLatexErrors.key_of line)))
  else None.

(** What the first loop of [parse_errors] appends for the line [line] at
    index [i] of [lines]; [None] when the line number raises *)
Definition error_of (U : unicode_db) (lines : list (list N)) (p : nat * list N)
  : option (list FixLatexErrors.error) :=
  if startswith (str "! ") p.2 then
    let context :=
      (fun j => default [] (lines !! j))
        <$> seq (p.1 + 1) (min (p.1 + 6) (length lines) - (p.1 + 1)) in
    line_num ← FixLatexErrors.first_line_num U context;
    Some [FixLatexErrors.Error (drop 2 p.2) context line_num
            (FixLatexErrors.classify (drop 2 p.2)) None]
  else Some [].

(** The length of the longest run of characters of the class [p] in
    [l], a run of [cur] characters being under way *)
Fixpoint longest_run (p : N -> bool) (cur : nat) (l : list N) : nat :=
  match l with
  | [] => cur
  | c :: l' => if p c then longest_run p (S cur) l' else max cur (longest_run p 0 l')
  end.

Definition ERROR_TYPES : list (list N) :=
  [str "undefined_command"; str "missing_math"; str "missing_brace"; str "undefined_env";
   str "missing_file"; str "misplaced_tab"; str "other"].

(** Every match of [r] starts with a character of the class [p]. *)
Definition first_class (p : N -> bool) (r : re) : Prop :=
  forall st st', In st' (exec r st) -> exists c tl, rest st = c :: tl /\ p c = true.

(** Whether [replace_special_latex_chars] rewrites [c] when it follows [prv] *)
Definition rewritten (prv : option N) (c : N) : bool :=
  not_escaped prv && is_key CleanLatex.CHARS c.

(** No key of [CHARS] in the text is left without a backslash before it;
    [prv] is the character before the text. *)
Fixpoint all_escaped (prv : option N) (text : list N) : bool :=
  match text with
  | [] => true
  | c :: tl => negb (rewritten prv c) && all_escaped (Some c) tl
  end.

(** The same when nothing is known of the character before the text. *)
Definition all_escaped_any (text : list N) : bool :=
  match text with
  | [] => true
  | c :: tl => negb (is_key CleanLatex.CHARS c) && all_escaped (Some c) tl
  end.

(** The keys whose replacement holds a key with no backslash before it:
    [<], [>] and the degree sign, replaced by [$<$], [$>$], [$^{\circ}$]. *)
Definition reexposed (c : N) : bool :=
  N.eqb c (ch "<") || N.eqb c (ch ">") || N.eqb c 0x00b0%N.

(** The character before the cursor once [o] has been passed *)
Definition last_or (prv : option N) (o : list N) : option N :=
  match last o with
  | Some c => Some c
  | None => prv
  end.

(** The number of offsets of [text] at which [t] occurs *)
Fixpoint occ (t text : list N) : nat :=
  match text with
  | [] => 0
  | _ :: tl => (if startswith t text then 1 else 0) + occ t tl
  end.

(** An environment name as [\w+] reads it holds neither a backslash nor
    a closing brace. *)
Definition plain_name (x : list N) : Prop := Forall (fun c => c <> BSL /\ c <> ch "}") x.

Definition count_name (y : list N) (l : list (list N)) : nat :=
  length (filter (fun b => b = y) l).


Definition fix_remove (env : list N) : FixLatexErrors.LatexFix :=
  FixLatexErrors.mkLatexFix (str "remove_end_" ++ env)
    (str "Removed extra " ++ FixLatexErrors.end_token env).


(** What [replace_non_utf8_chars] does to one character: the replacement
    of the first row of the table with that key, the character itself
    when there is none. *)
Fixpoint normalize_char (tbl : list (N * list N)) (c : N) : list N :=
  match tbl with
  | [] => [c]
  | (k, r) :: tbl' => if N.eqb c k then r else normalize_char tbl' c
  end.

(** Every match of [r] takes at least one character, and that first
    character is of the class [p]. *)
Definition eats (p : N -> bool) (r : re) : Prop :=
  forall st st', In st' (exec r st) ->
    exists c tl, rest st = c :: tl /\ p c = true /\ rest st' `suffix_of` tl.

(** The characters a match of [SKIP_RE] can start with *)
Definition skip_start (c : N) : bool :=
  N.eqb c (ch "%") || N.eqb c BSL || N.eqb c (ch "$").

(** A step of a repair pass either leaves the text and the fixes as they
    are, or records at least one more fix. *)
Definition records (cf cf' : list N * list FixLatexErrors.LatexFix) : Prop :=
  cf' = cf \/ exists f fs, cf'.2 = cf.2 ++ f :: fs.

(** The marker [fix_missing_figures] puts before a line *)
Definition FIXME_MARK : list N := str "% FIXME: missing file - ".

(** A line with the marker put before it some number of times *)
Definition marked (l l' : list N) : Prop :=
  exists k, l' = concat (replicate k FIXME_MARK) ++ l.

Definition begin_token (env : list N) : list N := str "\begin{" ++ env ++ str "}".

(** A name that [\w+] reads in full: not empty, word characters only *)
Definition word_name (U : unicode_db) (y : list N) : bool :=
  negb (bool_decide (y = [])) && forallb (is_word U) y.

(** The characters of a decimal number *)
Definition digits_of (d : Decimal.uint) : list N :=
  (fun a => N_of_ascii a) <$> String.list_ascii_of_string (DecimalString.NilEmpty.string_of_uint d).

(* ================================================================== *)
(** * Properties of the matcher and of the scan *)

Import CleanLatex FixLatexErrors.

Section engine_facts.

Lemma star_loop_suffix step g fuel st st' :
  (forall a b, In b (step a) -> rest b `suffix_of` rest a) ->
  In st' (star_loop step g fuel st) -> rest st' `suffix_of` rest st.
Proof.
  intros Hstep. revert st.
  induction fuel as [|f IH]; intros st; simpl.
  - intros [<-|[]]. done.
  - assert (Hmore : In st' (flat_map (fun x =>
        if bool_decide (length (rest x) < length (rest st))
        then star_loop step g f x else []) (step st)) ->
        rest st' `suffix_of` rest st).
    { rewrite in_flat_map. intros (x & Hx & Hin).
      case_bool_decide; [|done].
      etrans; [apply IH, Hin | apply Hstep, Hx]. }
    destruct g; simpl.
    + rewrite in_app_iff. intros [H|[<-|[]]]; [auto | done].
    + intros [<-|H]; [done | auto].
Qed.

(** The matcher only moves forward: what is left after a match is a
    suffix of what was there before. *)
Lemma exec_suffix r st st' : In st' (exec r st) -> rest st' `suffix_of` rest st.
Proof.
  revert st st'. induction r as [| |p|a IHa b IHb|a IHa b IHb|g a IHa|i a IHa|p|p];
    intros st st'; simpl.
  - done.
  - intros [<-|[]]. done.
  - destruct (rest st) as [|c tl] eqn:E; [done|].
    destruct (p c); [|done]. intros [<-|[]]. simpl. by apply suffix_cons_r.
  - rewrite in_flat_map. intros (x & Hx & Hin).
    etrans; [apply IHb, Hin | apply IHa, Hx].
  - rewrite in_app_iff. intros [H|H]; auto.
  - apply star_loop_suffix. auto.
  - rewrite <- list_elem_of_In, list_elem_of_fmap. intros (x & -> & Hx).
    simpl. apply IHa. by apply list_elem_of_In.
  - destruct (prev st) as [c|]; [destruct (p c)|]; simpl; intros H;
      try done; destruct H as [<-|[]]; done.
  - destruct (rest st) as [|c tl] eqn:E; [|destruct (p c)]; simpl; intros H;
      try done; destruct H as [<-|[]]; rewrite E; done.
Qed.

Lemma match_at_bound r prv txt ma n g :
  match_at r prv txt ma = Some (n, g) -> n <= length txt.
Proof.
  unfold match_at. destruct (head _); simpl; [|done].
  intros [= <- _]. lia.
Qed.

Lemma match_at_advance r prv txt n g :
  match_at r prv txt true = Some (n, g) -> 0 < n.
Proof.
  unfold match_at.
  destruct (head _) as [st'|] eqn:E; simpl; [|done].
  intros [= <- _]. apply head_Some_elem_of, list_elem_of_filter in E as [E _].
  simpl in E. apply bool_decide_unpack in E. lia.
Qed.

(** The text a match consumed is the prefix of the text at the cursor
    that has the match's length. *)
Lemma match_at_consumes r prv txt ma n g :
  match_at r prv txt ma = Some (n, g) ->
  exists st', In st' (exec r (St prv txt [])) /\ txt = take n txt ++ rest st'
              /\ n = length txt - length (rest st') /\ g = caps st'.
Proof.
  unfold match_at.
  destruct (head _) as [st'|] eqn:E; simpl; [|done].
  intros [= <- <-]. exists st'.
  apply head_Some_elem_of, list_elem_of_filter in E as [_ E].
  apply list_elem_of_In in E. split; [done|].
  destruct (exec_suffix _ _ _ E) as [k Hk]. simpl in Hk.
  split; [|done]. rewrite Hk, length_app.
  replace (length k + length (rest st') - length (rest st')) with (length k) by lia.
  by rewrite take_app_length.
Qed.

End engine_facts.

Lemma chain_le lo ms hi : chain lo ms hi -> lo <= hi.
Proof.
  revert lo. induction ms as [|m ms IH]; simpl; intros lo; [done|].
  intros (? & ? & H%IH). lia.
Qed.

Lemma chain_weaken lo lo' ms hi : lo' <= lo -> chain lo ms hi -> chain lo' ms hi.
Proof. destruct ms; simpl; intros; [lia | intuition lia]. Qed.

Lemma scan_chain r txt :
  forall pos prv skip, skip <= length txt ->
    chain (pos + skip) (scan r pos prv txt skip) (pos + length txt).
Proof.
  induction txt as [|c tl IH]; intros pos prv skip Hskip.
  - simpl in Hskip. assert (skip = 0) as -> by lia. simpl.
    destruct (match_at r prv [] false) as [[[|n] g]|] eqn:E; simpl; try lia.
    apply match_at_bound in E. simpl in E. lia.
  - destruct skip as [|k].
    + simpl scan.
      destruct (match_at r prv (c :: tl) false) as [[[|n] g]|] eqn:E.
      * simpl. split; [lia|]. split; [lia|].
        destruct (match_at r prv (c :: tl) true) as [[n' g']|] eqn:E'.
        -- pose proof (match_at_advance _ _ _ _ _ E').
           pose proof (match_at_bound _ _ _ _ _ _ E'). simpl in *.
           split; [lia|]. split; [lia|].
           replace (pos + n') with (S pos + (n' - 1)) by lia.
           replace (pos + S (length tl)) with (S pos + length tl) by lia.
           apply IH. lia.
        -- replace (pos + S (length tl)) with (S pos + length tl) by lia.
           eapply chain_weaken; [|apply (IH (S pos) (Some c) 0); lia]. lia.
      * pose proof (match_at_bound _ _ _ _ _ _ E). simpl in *.
        split; [lia|]. split; [lia|].
        replace (pos + S n) with (S pos + n) by lia.
        replace (pos + S (length tl)) with (S pos + length tl) by lia.
        apply IH. lia.
      * simpl. replace (pos + S (length tl)) with (S pos + length tl) by lia.
        eapply chain_weaken; [|apply (IH (S pos) (Some c) 0); lia]. lia.
    + simpl. replace (pos + S k) with (S pos + k) by lia.
      replace (pos + S (length tl)) with (S pos + length tl) by lia.
      apply IH. simpl in Hskip. lia.
Qed.

(** [finditer] yields matches in text order, without overlap, inside the text. *)
Lemma finditer_chain r text : chain 0 (finditer r text) (length text).
Proof. apply (scan_chain r text 0 None 0). lia. Qed.

Lemma slice_drop (text : list N) lo s : lo <= s -> slice text lo s ++ drop s text = drop lo text.
Proof.
  intros H. unfold slice.
  replace (drop s text) with (drop (s - lo) (drop lo text)).
  - apply take_drop.
  - rewrite drop_drop. f_equal. lia.
Qed.

(** ** The partition of a document into regions *)

Lemma spans_contiguous len ms lo : chain lo ms len -> contiguous lo (spans_from len lo ms) len.
Proof.
  revert lo. induction ms as [|m ms IH]; simpl; intros lo.
  - intros H. repeat split; lia.
  - intros (H1 & H2 & H3). repeat split; try lia. by apply IH.
Qed.

Lemma contiguous_le lo sp hi : contiguous lo sp hi -> lo <= hi.
Proof.
  revert lo. induction sp as [|s sp IH]; simpl; intros lo; [lia|].
  intros (? & ? & H%IH). lia.
Qed.

Lemma contiguous_concat (text : list N) sp : forall lo,
  contiguous lo sp (length text) ->
  concat (span_text text <$> sp) = drop lo text.
Proof.
  induction sp as [|s sp IH]; csimpl; intros lo.
  - intros ->. by rewrite drop_all.
  - intros (<- & Hle & H). rewrite (IH _ H). unfold span_text.
    by apply slice_drop.
Qed.

Lemma contiguous_sorted lo sp hi :
  contiguous lo sp hi -> StronglySorted le (sp_start <$> sp).
Proof.
  revert lo. induction sp as [|s sp IH]; csimpl; intros lo.
  - constructor.
  - intros (<- & Hle & H). constructor; [by eapply IH|].
    clear IH. revert H Hle. generalize (sp_end s), (sp_start s). clear.
    induction sp as [|s' sp IH]; simpl; intros e b; [constructor|].
    intros (<- & Hle' & H) Hle. constructor; [done|].
    eapply IH; [done|]. lia.
Qed.

Lemma contiguous_outside lo sp hi i :
  contiguous lo sp hi -> i < lo -> length (filter (fun s => covers i s) sp) = 0.
Proof.
  revert lo. induction sp as [|s sp IH]; csimpl; intros lo; [done|].
  intros (<- & Hle & H) Hi. rewrite filter_cons.
  unfold covers at 1. rewrite decide_False.
  - eapply IH; [done|]. lia.
  - intros ?%Is_true_true%bool_decide_eq_true. lia.
Qed.

(** Every offset of the text lies in exactly one span. *)
Lemma contiguous_unique lo sp hi i :
  contiguous lo sp hi -> lo <= i < hi -> length (filter (fun s => covers i s) sp) = 1.
Proof.
  revert lo. induction sp as [|s sp IH]; csimpl; intros lo; [lia|].
  intros (<- & Hle & H) Hi. rewrite filter_cons. unfold covers at 1.
  destruct (decide (i < sp_end s)) as [Hlt|Hge].
  - rewrite decide_True.
    + simpl. f_equal. by eapply contiguous_outside.
    + apply Is_true_true, bool_decide_eq_true. lia.
  - rewrite decide_False.
    + eapply IH; [done|]. lia.
    + intros ?%Is_true_true%bool_decide_eq_true. lia.
Qed.

Lemma process_as_spans pt pm text ms : forall acc last,
  (let '(result, last_end) :=
     foldl (fun '(result, last_end) m =>
              (result ++ pt (slice text last_end (m_start m)) ++ pm (group0 text m), m_end m))
           (acc, last) ms in
   result ++ pt (drop last_end text))
  = acc ++ concat (render pt pm text <$> spans_from (length text) last ms).
Proof.
  induction ms as [|m ms IH]; intros acc last; csimpl.
  - unfold render, span_text, slice; simpl.
    rewrite app_nil_r. do 2 f_equal.
    rewrite take_ge; [done|]. rewrite length_drop. lia.
  - rewrite IH. unfold render at 2 3; simpl. unfold span_text; simpl.
    unfold group0. by rewrite <- !app_assoc.
Qed.

Lemma process_latex_text_and_math_spans text pt pm :
  process_latex_text_and_math text pt pm
  = concat (render (default replace_special_latex_chars pt) (default (fun x => x) pm) text
              <$> segment text).
Proof.
  unfold process_latex_text_and_math, segment.
  apply (process_as_spans _ _ text (finditer SKIP_RE text) [] 0).
Qed.

Lemma segment_contiguous text : contiguous 0 (segment text) (length text).
Proof. apply spans_contiguous, finditer_chain. Qed.

(** C1. For every document the regions cut by [SKIP_RE] form an ordered
    partition: they follow one another without gap or overlap from offset
    0 to the length of the document, they are sorted by start, every
    offset lies in exactly one of them, their texts concatenated give the
    document back, and so does [process_latex_text_and_math] run with
    identity transforms. *)
Theorem segment_partition (text : list N) :
  contiguous 0 (segment text) (length text)
  /\ StronglySorted le (sp_start <$> segment text)
  /\ (forall i, i < length text -> length (filter (fun s => covers i s) (segment text)) = 1)
  /\ concat (span_text text <$> segment text) = text
  /\ process_latex_text_and_math text (Some (fun x => x)) (Some (fun x => x)) = text.
Proof.
  pose proof (segment_contiguous text) as Hc.
  assert (Hcat : concat (span_text text <$> segment text) = text).
  { by rewrite (contiguous_concat _ _ 0 Hc). }
  split; [done|]. split; [by eapply contiguous_sorted|].
  split; [intros i Hi; eapply contiguous_unique; [done|lia]|].
  split; [done|].
  rewrite process_latex_text_and_math_spans. simpl.
  transitivity (concat (span_text text <$> segment text)); [|done].
  f_equal. apply list_fmap_ext. intros _ s _.
  unfold render. by destruct (sp_kind s).
Qed.

(** ** Patterns that match one character at a time *)

Lemma scan_charwise r (P : option N -> N -> bool) (G : N -> list (nat * list N)) :
  (forall (prv : option N) (c : N) (tl : list N),
     match_at r prv (c :: tl) false = if P prv c then Some (1, G c) else None) ->
  (forall prv, match_at r prv [] false = None) ->
  forall txt pos prv, scan r pos prv txt 0 = char_matches P G pos prv txt.
Proof.
  intros H1 H0. induction txt as [|c tl IH]; intros pos prv; simpl.
  - by rewrite H0.
  - rewrite H1. destruct (P prv c); simpl; by rewrite IH.
Qed.

Lemma sub_fold (text : list N) (repl : rmatch -> list N) ms : forall (acc : list N) (last : nat),
  (let '(out, last') :=
     foldl (fun '(out, last) m => (out ++ slice text last (m_start m) ++ repl m, m_end m))
           (acc, last) ms in
   out ++ drop last' text : list N)
  = acc ++ concat (sub_pieces text repl last ms).
Proof.
  induction ms as [|m ms IH]; intros acc last; csimpl.
  - by rewrite app_nil_r.
  - rewrite IH. by rewrite <- !app_assoc.
Qed.

Lemma re_sub_pieces r repl text :
  re_sub r repl text = concat (sub_pieces text repl 0 (finditer r text)).
Proof. apply (sub_fold text repl (finditer r text) [] 0). Qed.

Lemma slice_snoc (text : list N) last pos c :
  last <= pos -> text !! pos = Some c -> slice text last (S pos) = slice text last pos ++ [c].
Proof.
  intros Hle Hc. unfold slice.
  replace (S pos - last) with (S (pos - last)) by lia.
  erewrite take_S_r; [done|].
  rewrite lookup_drop. by replace (last + (pos - last)) with pos by lia.
Qed.

Lemma pieces_charwise (text : list N) repl (P : option N -> N -> bool)
    (G : N -> list (nat * list N)) (R : N -> list N) :
  (forall pos c, text !! pos = Some c -> repl (Match pos (pos + 1) (G c)) = R c) ->
  forall txt pre last prv, text = pre ++ txt -> last <= length pre ->
    concat (sub_pieces text repl last (char_matches P G (length pre) prv txt))
    = slice text last (length pre) ++ subst_chars P R prv txt.
Proof.
  intros Hrepl. induction txt as [|c tl IH]; intros pre last prv Htext Hlast; csimpl.
  - rewrite !app_nil_r. unfold slice.
    rewrite take_ge; [done|]. rewrite length_drop, Htext, length_app. simpl. lia.
  - assert (Hc : text !! length pre = Some c).
    { rewrite Htext. by rewrite list_lookup_middle. }
    assert (Htext' : text = (pre ++ [c]) ++ tl) by (by rewrite <- app_assoc).
    assert (Hlen : length (pre ++ [c]) = S (length pre)).
    { rewrite length_app. simpl. lia. }
    destruct (P prv c); csimpl.
    + rewrite (Hrepl _ _ Hc).
      specialize (IH (pre ++ [c]) (length pre + 1) (Some c) Htext').
      rewrite Hlen in IH. rewrite IH by lia.
      unfold slice at 2. replace (S (length pre) - (length pre + 1)) with 0 by lia.
      by rewrite take_0.
    + specialize (IH (pre ++ [c]) last (Some c) Htext').
      rewrite Hlen in IH. rewrite IH by lia.
      rewrite (slice_snoc _ _ _ c) by done. by rewrite <- app_assoc.
Qed.

(** [pattern.sub] with a one-character pattern rewrites the text
    character by character. *)
Lemma re_sub_charwise r repl (text : list N) (P : option N -> N -> bool)
    (G : N -> list (nat * list N)) (R : N -> list N) :
  (forall (prv : option N) (c : N) (tl : list N),
     match_at r prv (c :: tl) false = if P prv c then Some (1, G c) else None) ->
  (forall prv, match_at r prv [] false = None) ->
  (forall pos c, text !! pos = Some c -> repl (Match pos (pos + 1) (G c)) = R c) ->
  re_sub r repl text = subst_chars P R None text.
Proof.
  intros H1 H0 Hrepl. rewrite re_sub_pieces. unfold finditer.
  rewrite (scan_charwise r P G H1 H0).
  pose proof (pieces_charwise text repl P G R Hrepl text [] 0 None eq_refl) as H.
  simpl in H. rewrite H by lia. done.
Qed.

Lemma flat_map_single {A} (l : list A) : flat_map (fun x => [x]) l = l.
Proof. induction l as [|x l IH]; simpl; by rewrite ?IH. Qed.

Lemma exec_seq_eps a st : exec (Seq a Eps) st = exec a st.
Proof. simpl. apply flat_map_single. Qed.

(** An alternation of one-character keys, run on a non-empty text. *)
Lemma exec_key_alts (d : list (list N * list N)) p c tl g :
  Forall (fun kv => length kv.1 = 1) d ->
  exec (alts ((fun kv => lit kv.1) <$> d)) (St p (c :: tl) g)
  = (fun _ => St (Some c) tl g) <$> filter (fun kv => kv.1 = [c]) d.
Proof.
  induction 1 as [|[k v] d Hk _ IH]; csimpl; [done|].
  rewrite IH. rewrite filter_cons. simpl in *.
  destruct k as [|k [|]]; try done. simpl.
  unfold eqc. destruct (N.eqb_spec c k) as [->|Hne].
  - by rewrite decide_True.
  - rewrite decide_False; [done|]. congruence.
Qed.

Lemma exec_key_alts_nil (d : list (list N * list N)) p g :
  Forall (fun kv => length kv.1 = 1) d ->
  exec (alts ((fun kv => lit kv.1) <$> d)) (St p [] g) = [].
Proof.
  induction 1 as [|[k v] d Hk _ IH]; csimpl; [done|].
  rewrite IH. destruct k as [|k [|]]; done.
Qed.

Lemma is_key_filter (d : list (list N * list N)) c :
  is_key d c = bool_decide (filter (fun kv => kv.1 = [c]) d <> []).
Proof.
  unfold is_key. induction d as [|kv d IH]; simpl; [done|].
  rewrite filter_cons. destruct (decide (kv.1 = [c])) as [Heq|Hne].
  - rewrite bool_decide_eq_true_2 by done. done.
  - by rewrite bool_decide_eq_false_2.
Qed.

Lemma CHARS_keys : Forall (fun kv : list N * list N => length kv.1 = 1) CHARS.
Proof. repeat constructor. Qed.

Lemma TABLE_CHARS_keys : Forall (fun kv : list N * list N => length kv.1 = 1) TABLE_CHARS.
Proof. repeat constructor. Qed.

Lemma filter_keep_all {A} (P : A -> Prop) `{forall x, Decision (P x)} (l : list A) :
  (forall x, P x) -> filter P l = l.
Proof.
  intros HP. induction l as [|x l IH]; [done|].
  rewrite filter_cons, decide_True by done. by rewrite IH.
Qed.

Lemma match_at_no_advance r prv txt :
  match_at r prv txt false
  = (fun st' => (length txt - length (rest st'), caps st')) <$> head (exec r (St prv txt [])).
Proof. unfold match_at. by rewrite filter_keep_all. Qed.

Lemma head_key_states {B} (h : list N * list N -> B) (b : B) (d : list (list N * list N)) c :
  (forall kv, h kv = b) ->
  head (h <$> filter (fun kv => kv.1 = [c]) d) = if is_key d c then Some b else None.
Proof.
  intros Hh. rewrite is_key_filter. destruct (filter _ d); simpl; [done|]. by rewrite Hh.
Qed.

Lemma match_at_chars prv c tl :
  match_at chars_re prv (c :: tl) false
  = if not_escaped prv && is_key CHARS c then Some (1, [(1, [c])]) else None.
Proof.
  rewrite match_at_no_advance. unfold chars_re, seqs. cbn [foldr].
  cbn [exec prev]. unfold not_escaped, eqc.
  assert (Hgo : (fun st' : state => (length (c :: tl) - length (rest st'), caps st')) <$>
    head (flat_map (fun st : state => flat_map (fun st0 : state => [st0])
               ((fun st' : state => set_cap 1 (take (length (rest st) - length (rest st')) (rest st)) st') <$>
                exec (alts ((fun kv : list N * list N => lit kv.1) <$> CHARS)) st))
            [St prv (c :: tl) []])
    = if is_key CHARS c then Some (1, [(1, [c])]) else None).
  { cbn [flat_map]. rewrite app_nil_r, flat_map_single.
    rewrite exec_key_alts by apply CHARS_keys.
    rewrite <- list_fmap_compose.
    rewrite (head_key_states _ (St (Some c) tl [(1, [c])])).
    2:{ intros kv. unfold compose, set_cap. cbn [rest caps prev].
        replace (length (c :: tl) - length tl) with 1 by (simpl; lia). done. }
    destruct (is_key CHARS c); [|done]. cbn [fmap option_fmap option_map rest caps].
    replace (length (c :: tl) - length tl) with 1 by (simpl; lia). done. }
  destruct prv as [p|]; [|exact Hgo].
  destruct (N.eqb p BSL); [done|exact Hgo].
Qed.

Lemma match_at_chars_nil prv : match_at chars_re prv [] false = None.
Proof.
  rewrite match_at_no_advance. unfold chars_re, seqs. cbn [foldr].
  cbn [exec prev rest].
  destruct prv as [p|]; [destruct (eqc BSL p)|]; cbn [flat_map]; try done;
   rewrite exec_key_alts_nil by apply CHARS_keys; done.
Qed.

Lemma match_at_table prv c tl :
  match_at table_re prv (c :: tl) false
  = if is_key TABLE_CHARS c then Some (1, []) else None.
Proof.
  rewrite match_at_no_advance. unfold table_re.
  rewrite exec_key_alts by apply TABLE_CHARS_keys.
  rewrite (head_key_states _ (St (Some c) tl [])) by done.
  destruct (is_key TABLE_CHARS c); [|done]. cbn [fmap option_fmap option_map rest caps].
  replace (length (c :: tl) - length tl) with 1 by (simpl; lia). done.
Qed.

Lemma match_at_table_nil prv : match_at table_re prv [] false = None.
Proof.
  rewrite match_at_no_advance. unfold table_re.
  by rewrite exec_key_alts_nil by apply TABLE_CHARS_keys.
Qed.

(** [replace_special_latex_chars] rewrites every key that does not follow
    a backslash and leaves every other character. *)
Lemma replace_special_latex_chars_charwise text :
  replace_special_latex_chars text
  = subst_chars (fun prv c => not_escaped prv && is_key CHARS c)
      (fun c => getitem CHARS [c]) None text.
Proof.
  apply (re_sub_charwise chars_re _ text _ (fun c => [(1, [c])])).
  - apply match_at_chars.
  - apply match_at_chars_nil.
  - done.
Qed.

Lemma slice_one (text : list N) pos c : text !! pos = Some c -> slice text pos (pos + 1) = [c].
Proof.
  intros H. unfold slice. replace (pos + 1 - pos) with 1 by lia.
  by rewrite (drop_S _ _ _ H).
Qed.

(** [escape_table_chars] rewrites the four keys of [TABLE_CHARS] and
    nothing else. *)
Lemma escape_table_chars_charwise text :
  escape_table_chars text
  = subst_chars (fun _ c => is_key TABLE_CHARS c) (fun c => getitem TABLE_CHARS [c]) None text.
Proof.
  unfold escape_table_chars.
  apply (re_sub_charwise table_re (fun m => getitem TABLE_CHARS (group0 text m)) text _
           (fun _ => [])).
  - apply match_at_table.
  - apply match_at_table_nil.
  - intros pos c H. unfold group0. simpl. by rewrite (slice_one _ _ _ H).
Qed.

Lemma subst_chars_flat_map (Q : N -> bool) (R : N -> list N) prv (text : list N) :
  subst_chars (fun _ c => Q c) R prv text = flat_map (fun c => if Q c then R c else [c]) text.
Proof.
  revert prv. induction text as [|c tl IH]; intros prv; simpl; [done|]. by rewrite IH.
Qed.


(** C5. The text "50% of cases & 3#items" handed to
    [replace_special_latex_chars] comes back with every %, & and #
    escaped by a backslash.  As the body of a tabular environment handed
    to [escape_special_chars_in_table] (and to [clean_latex_file] in
    tables-only mode) it comes back unchanged: [escape_table_chars]
    rewrites the characters <, >, = and | and no other, on every text. *)
Theorem escape_correctness :
  replace_special_latex_chars (str "50% of cases & 3#items") = str "50\% of cases \& 3\#items"
  /\ escape_special_chars_in_table (str "\begin{tabular}50% of cases & 3#items\end{tabular}")
       TABULAR_BEGIN TABULAR_END
     = str "\begin{tabular}50% of cases & 3#items\end{tabular}"
  /\ clean_latex_file (str "\begin{tabular}50% of cases & 3#items\end{tabular}") true
     = str "\begin{tabular}50% of cases & 3#items\end{tabular}"
  /\ escape_special_chars_in_table (str "\begin{tabular}a<b & 3#c|d\end{tabular}")
       TABULAR_BEGIN TABULAR_END
     = str "\begin{tabular}a$<$b & 3#c\textbar{}d\end{tabular}"
  /\ forall text, escape_table_chars text = flat_map table_escape text.
Proof.
  split; [by vm_compute|]. split; [by vm_compute|]. split; [by vm_compute|].
  split; [by vm_compute|].
  intros text. rewrite escape_table_chars_charwise, subst_chars_flat_map.
  apply flat_map_ext. intros c. unfold table_escape, is_key, getitem. simpl.
  destruct (N.eqb_spec c (ch ">")) as [->|H1]; [by vm_compute|].
  destruct (N.eqb_spec c (ch "<")) as [->|H2]; [by vm_compute|].
  destruct (N.eqb_spec c (ch "=")) as [->|H3]; [by vm_compute|].
  destruct (N.eqb_spec c (ch "|")) as [->|H4]; [by vm_compute|].
  rewrite !bool_decide_eq_false_2; [done|..]; intros [= <-]; done.
Qed.

(** ** Protected regions *)

Lemma spans_from_split len ms m : forall last,
  m ∈ ms ->
  exists sp1 sp2,
    spans_from len last ms = sp1 ++ Span Protected (m_start m) (m_end m) :: sp2.
Proof.
  induction ms as [|m' ms IH]; intros last Hin; [by apply elem_of_nil in Hin|].
  apply elem_of_cons in Hin as [->|Hin]; simpl.
  - by exists [Span Plain last (m_start m')], (spans_from len (m_end m') ms).
  - destruct (IH (m_end m') Hin) as (sp1 & sp2 & ->).
    by exists (Span Plain last (m_start m') :: Span Protected (m_start m') (m_end m') :: sp1), sp2.
Qed.

Lemma replace_char_absent c r (text : list N) : c ∉ text -> replace_char c r text = text.
Proof.
  unfold replace_char. induction text as [|x tl IH]; simpl; [done|].
  intros [Hne Htl]%not_elem_of_cons. rewrite (IH Htl).
  destruct (N.eqb_spec x c); [congruence|done].
Qed.

Lemma replace_non_utf8_chars_absent (text : list N) :
  Forall (fun c => c ∉ NON_UTF8_CHARS.*1) text -> replace_non_utf8_chars text = text.
Proof.
  rewrite Forall_forall.
  unfold replace_non_utf8_chars. generalize NON_UTF8_CHARS as tbl.
  induction tbl as [|[c r] tbl IH]; intros H; simpl; [done|].
  rewrite replace_char_absent.
  - apply IH. intros x Hx Hin. apply (H x Hx). csimpl. by apply list_elem_of_further.
  - intros Hc. apply (H c Hc). csimpl. by apply list_elem_of_here.
Qed.

(** C2 (as amended). [clean_latex_file] first replaces the keys of
    [NON_UTF8_CHARS] all over the document and then cuts the result at the
    matches of [SKIP_RE]: every protected region recognized in the
    normalized document is copied to the output unchanged, between the
    rendering of the regions before it and after it.  A document without
    a key of [NON_UTF8_CHARS] is its own normalized form, so there the
    protected regions of the input itself come out bit-identical. *)
Theorem protected_regions_verbatim (d : list N) :
  (forall m, m ∈ finditer SKIP_RE (replace_non_utf8_chars d) ->
     exists sp1 sp2,
       segment (replace_non_utf8_chars d)
         = sp1 ++ Span Protected (m_start m) (m_end m) :: sp2
       /\ clean_latex_file d false
          = concat (render replace_special_latex_chars (fun x => x) (replace_non_utf8_chars d) <$> sp1)
            ++ group0 (replace_non_utf8_chars d) m
            ++ concat (render replace_special_latex_chars (fun x => x) (replace_non_utf8_chars d) <$> sp2))
  /\ (Forall (fun c => c ∉ NON_UTF8_CHARS.*1) d ->
      forall m, m ∈ finditer SKIP_RE d ->
        exists sp1 sp2,
          segment d = sp1 ++ Span Protected (m_start m) (m_end m) :: sp2
          /\ clean_latex_file d false
             = concat (render replace_special_latex_chars (fun x => x) d <$> sp1)
               ++ group0 d m
               ++ concat (render replace_special_latex_chars (fun x => x) d <$> sp2)).
Proof.
  assert (Hgen : forall m, m ∈ finditer SKIP_RE (replace_non_utf8_chars d) ->
     exists sp1 sp2,
       segment (replace_non_utf8_chars d)
         = sp1 ++ Span Protected (m_start m) (m_end m) :: sp2
       /\ clean_latex_file d false
          = concat (render replace_special_latex_chars (fun x => x) (replace_non_utf8_chars d) <$> sp1)
            ++ group0 (replace_non_utf8_chars d) m
            ++ concat (render replace_special_latex_chars (fun x => x) (replace_non_utf8_chars d) <$> sp2)).
  { intros m Hm. unfold segment.
    destruct (spans_from_split (length (replace_non_utf8_chars d)) _ m 0 Hm) as (sp1 & sp2 & Hsp).
    exists sp1, sp2. split; [done|].
    unfold clean_latex_file. rewrite process_latex_text_and_math_spans.
    unfold segment. rewrite Hsp. simpl default.
    rewrite fmap_app, concat_app, fmap_cons. simpl concat. done. }
  split; [exact Hgen|].
  intros Hd. pose proof (replace_non_utf8_chars_absent d Hd) as Heq.
  rewrite Heq in Hgen. exact Hgen.
Qed.

Lemma protected_regions_verbatim_witness :
  exists sp1 sp2,
    segment (str "$a_b$ & c") = sp1 ++ Span Protected 0 5 :: sp2
    /\ clean_latex_file (str "$a_b$ & c") false
       = concat (render replace_special_latex_chars (fun x => x) (str "$a_b$ & c") <$> sp1)
         ++ group0 (str "$a_b$ & c") (Match 0 5 [])
         ++ concat (render replace_special_latex_chars (fun x => x) (str "$a_b$ & c") <$> sp2).
Proof.
  apply (proj2 (protected_regions_verbatim (str "$a_b$ & c"))) with (m := Match 0 5 []).
  - apply (bool_decide_unpack _). vm_compute. exact I.
  - vm_compute. apply list_elem_of_here.
Defined.

(** C2 as stated fails: the math region [$é$] is recognized in the
    input, and the output [$\'e$] does not contain it. *)
Lemma protection_counterexample :
  Match 0 3 [] ∈ finditer SKIP_RE [36; 233; 36]%N
  /\ group0 [36; 233; 36]%N (Match 0 3 []) = [36; 233; 36]%N
  /\ clean_latex_file [36; 233; 36]%N false = str "$\'e$"
  /\ ~ exists pre post,
         clean_latex_file [36; 233; 36]%N false
         = pre ++ group0 [36; 233; 36]%N (Match 0 3 []) ++ post.
Proof.
  split; [vm_compute; apply list_elem_of_here|].
  split; [done|]. split; [by vm_compute|].
  intros (pre & post & H).
  assert (Hin : 233%N ∈ clean_latex_file [36; 233; 36]%N false).
  { rewrite H. apply elem_of_app. right. apply elem_of_app. left.
    vm_compute. apply list_elem_of_further, list_elem_of_here. }
  vm_compute in Hin.
  repeat (apply elem_of_cons in Hin as [Hin|Hin]; [discriminate|]).
  by apply elem_of_nil in Hin.
Qed.

(** ** Facts on the string operations *)

Lemma startswith_spec (p t : list N) : startswith p t = true <-> exists k, t = p ++ k.
Proof.
  revert t. induction p as [|a p IH]; intros t; simpl.
  - split; [by exists t|done].
  - destruct t as [|b t]; [split; [done|by intros (k & ?)]|].
    rewrite andb_true_iff, N.eqb_eq, IH. split.
    + intros (-> & k & ->). by exists k.
    + intros (k & [= -> ->]). eauto.
Qed.

Lemma startswith_take (p l : list N) n : startswith p (take n l) = true -> startswith p l = true.
Proof.
  rewrite !startswith_spec. intros (k & Hk). exists (k ++ drop n l).
  rewrite app_assoc, <- Hk. by rewrite take_drop.
Qed.

Lemma find_Some (p text : list N) i :
  find p text = Some i -> text = take i text ++ p ++ drop (i + length p) text.
Proof.
  revert i. induction text as [|c tl IH]; intros i; simpl.
  - destruct (startswith p []) eqn:E; [|done]. intros [= <-].
    apply startswith_spec in E as (k & Hk). symmetry in Hk.
    apply app_eq_nil in Hk as [-> ->]. done.
  - destruct (startswith p (c :: tl)) eqn:E.
    + intros [= <-]. apply startswith_spec in E as (k & ->). simpl.
      by rewrite drop_app_length.
    + destruct (find p tl) as [j|] eqn:Ej; [|done]. simpl. intros [= <-].
      simpl. f_equal. by apply IH.
Qed.

Lemma find_take (p text : list N) i :
  p <> [] -> find p text = Some i -> find p (take i text) = None.
Proof.
  intros Hp. revert i. induction text as [|c tl IH]; intros i; simpl.
  - destruct p; [done|]. done.
  - destruct (startswith p (c :: tl)) eqn:E.
    + intros [= <-]. simpl. destruct p; done.
    + destruct (find p tl) as [j|] eqn:Ej; [|done]. simpl. intros [= <-].
      simpl. rewrite (IH j) by done.
      destruct (startswith p (c :: take j tl)) eqn:E'; [|done].
      apply (startswith_take p (c :: tl) (S j)) in E'. congruence.
Qed.

Lemma find_None (p text : list N) i :
  find p text = None -> startswith p (drop i text) = false.
Proof.
  revert i. induction text as [|c tl IH]; intros i; simpl.
  - destruct (startswith p []) eqn:E; [done|]. by rewrite drop_nil.
  - destruct (startswith p (c :: tl)) eqn:E; [done|].
    destruct (find p tl) eqn:Ej; [done|]. intros _.
    destruct i; [done|]. simpl. by apply IH.
Qed.

Lemma split_once_spec (sep text a b : list N) :
  split_once sep text = Some (a, b) -> text = a ++ sep ++ b.
Proof.
  unfold split_once. destruct (find sep text) as [i|] eqn:E; simpl; [|done].
  intros [= <- <-]. by apply find_Some.
Qed.

Lemma split_once_first (sep text a b : list N) :
  sep <> [] -> split_once sep text = Some (a, b) -> find sep a = None.
Proof.
  unfold split_once. destruct (find sep text) as [i|] eqn:E; simpl; [|done].
  intros Hsep [= <- <-]. by apply find_take.
Qed.


Lemma found_here r (pre txt : list N) ma n g :
  match_at r (last pre) txt ma = Some (n, g) ->
  found_at r (pre ++ txt) (Match (length pre) (length pre + n) g).
Proof.
  intros H. split; simpl; [lia|]. exists ma.
  rewrite take_app_length, drop_app_length.
  by replace (length pre + n - length pre) with n by lia.
Qed.

Lemma found_here0 r (pre txt : list N) ma g :
  match_at r (last pre) txt ma = Some (0, g) ->
  found_at r (pre ++ txt) (Match (length pre) (length pre) g).
Proof.
  intros H. replace (length pre) with (length pre + 0) at 2 by lia. by eapply found_here.
Qed.

Lemma scan_sound r txt : forall pre prv skip,
  prv = last pre -> Forall (found_at r (pre ++ txt)) (scan r (length pre) prv txt skip).
Proof.
  induction txt as [|c tl IH]; intros pre prv skip ->.
  - destruct skip; simpl; [|constructor].
    destruct (match_at r (last pre) [] false) as [[[|n] g]|] eqn:E.
    + constructor; [by eapply found_here0|constructor].
    + constructor; [by eapply found_here|constructor].
    + constructor.
  - assert (Hnext : forall k, Forall (found_at r (pre ++ c :: tl))
                      (scan r (S (length pre)) (Some c) tl k)).
    { intros k. specialize (IH (pre ++ [c]) (Some c) k).
      rewrite <- app_assoc, length_app in IH. simpl in IH.
      replace (length pre + 1) with (S (length pre)) in IH by lia.
      apply IH. by rewrite last_snoc. }
    destruct skip; simpl; [|apply Hnext].
    destruct (match_at r (last pre) (c :: tl) false) as [[[|n] g]|] eqn:E.
    + constructor; [by eapply found_here0|].
      destruct (match_at r (last pre) (c :: tl) true) as [[n' g']|] eqn:E'; [|apply Hnext].
      constructor; [by eapply found_here|apply Hnext].
    + constructor; [by eapply found_here|apply Hnext].
    + apply Hnext.
Qed.

Lemma finditer_sound r text : Forall (found_at r text) (finditer r text).
Proof. apply (scan_sound r text [] None 0). done. Qed.

(** A literal matches exactly when the text at the cursor starts with it. *)
Lemma exec_lit s st :
  exec (lit s) st
  = if startswith s (rest st)
    then [St (match last s with Some c => Some c | None => prev st end)
             (drop (length s) (rest st)) (caps st)]
    else [].
Proof.
  revert st. induction s as [|a s IH]; intros [p rst g].
  - done.
  - change (lit (a :: s)) with (Seq (Chr (eqc a)) (lit s)).
    cbn [exec rest prev caps]. destruct rst as [|b tl]; [done|].
    cbn [startswith]. unfold eqc. rewrite (N.eqb_sym a b).
    destruct (N.eqb b a) eqn:Eab; [|done].
    apply N.eqb_eq in Eab as ->. cbn [flat_map andb]. rewrite app_nil_r, IH.
    cbn [rest prev caps length drop].
    destruct (startswith s tl); [|done]. do 2 f_equal.
    destruct s as [|a' s']; [done|].
    change (last (a :: a' :: s')) with (last (a' :: s')).
    destruct (last (a' :: s')) eqn:El; [done|]. by apply last_None in El.
Qed.

(** ** Tables-only mode *)


Lemma split_fold (text : list N) ms : forall (acc : list (list N)) (last : nat),
  (let '(out, last') :=
     foldl (fun '(out, last) m =>
              (out ++ [slice text last (m_start m); get_cap 1 (m_groups m)], m_end m))
           (acc, last) ms in
   out ++ [drop last' text] : list (list N))
  = acc ++ split_pieces text last ms.
Proof.
  induction ms as [|m ms IH]; intros acc last; csimpl; [done|].
  rewrite IH. by rewrite <- !app_assoc.
Qed.

Lemma re_split_pieces r text : re_split r text = split_pieces text 0 (finditer r text).
Proof. apply (split_fold text (finditer r text) [] 0). Qed.

Lemma get_cap_set_cap i v st : get_cap i (caps (set_cap i v st)) = v.
Proof. unfold get_cap, set_cap. simpl. by rewrite Nat.eqb_refl. Qed.

(** Group 1 around a whole pattern holds the whole match. *)
Lemma group1_whole a prv txt ma n g :
  match_at (Group 1 a) prv txt ma = Some (n, g) -> get_cap 1 g = take n txt.
Proof.
  unfold match_at. destruct (head _) as [st'|] eqn:E; simpl; [|done].
  intros [= <- <-]. apply head_Some_elem_of, list_elem_of_filter in E as [_ E].
  apply list_elem_of_fmap in E as (st2 & -> & _).
  rewrite get_cap_set_cap. done.
Qed.

Lemma found_group1 a text m : found_at (Group 1 a) text m -> get_cap 1 (m_groups m) = group0 text m.
Proof. intros (_ & ma & H). apply group1_whole in H. done. Qed.

Lemma split_pieces_concat a (text : list N) ms : forall lo,
  Forall (found_at (Group 1 a) text) ms -> chain lo ms (length text) ->
  concat (split_pieces text lo ms) = drop lo text.
Proof.
  induction ms as [|m ms IH]; intros lo Hf Hc; csimpl.
  - by rewrite app_nil_r.
  - apply Forall_cons in Hf as [Hm Hf]. destruct Hc as (H1 & H2 & H3).
    rewrite (IH _ Hf H3), (found_group1 _ _ _ Hm). unfold group0.
    rewrite slice_drop by done. by apply slice_drop.
Qed.

Lemma frame_concat (l l' : list (list N)) : Forall2 frame l l' -> frame (concat l) (concat l').
Proof.
  induction 1; simpl; [apply frame_same|]. by apply frame_app.
Qed.

Lemma TABULAR_END_nonempty : TABULAR_END <> [].
Proof. done. Qed.

Lemma escape_special_chars_in_table_frame part :
  frame part (escape_special_chars_in_table part TABULAR_BEGIN TABULAR_END).
Proof.
  unfold escape_special_chars_in_table.
  destruct (contains TABULAR_BEGIN part); cbn [negb]; [|apply frame_same].
  destruct (contains TABULAR_END part); cbn [negb]; [|apply frame_same].
  destruct (split_once TABULAR_BEGIN part) as [[before rst]|] eqn:E1; [|apply frame_same].
  destruct (split_once TABULAR_END rst) as [[tabular after]|] eqn:E2; [|apply frame_same].
  apply split_once_spec in E1 as ->.
  pose proof (split_once_first _ _ _ _ TABULAR_END_nonempty E2) as Hfirst.
  apply split_once_spec in E2 as ->.
  apply frame_app; [apply frame_same|].
  assert (Hre : forall x : list N,
    TABULAR_BEGIN ++ x ++ TABULAR_END ++ after = (TABULAR_BEGIN ++ x ++ TABULAR_END) ++ after).
  { intros x. by rewrite <- !app_assoc. }
  rewrite !Hre.
  apply frame_app; [by apply frame_tabular|apply frame_same].
Qed.

Lemma exec_seq_lit s r st st' :
  In st' (exec (Seq (lit s) r) st) -> startswith s (rest st) = true.
Proof.
  cbn [exec]. rewrite exec_lit. by destruct (startswith s (rest st)).
Qed.

Lemma match_at_some_exec r prv txt ma n g :
  match_at r prv txt ma = Some (n, g) -> exists st', In st' (exec r (St prv txt [])).
Proof.
  intros (st' & H & _)%match_at_consumes. eauto.
Qed.

Lemma contains_false (p text : list N) i :
  contains p text = false -> startswith p (drop i text) = false.
Proof.
  unfold contains. intros H%bool_decide_eq_false. apply find_None.
  destruct (find p text); [|done]. destruct H. eauto.
Qed.

Lemma tabular_re_starts prv txt ma n g :
  match_at tabular_re prv txt ma = Some (n, g) -> startswith TABULAR_BEGIN txt = true.
Proof.
  intros (st' & H)%match_at_some_exec. unfold tabular_re in H. cbn [exec] in H.
  apply list_elem_of_In, list_elem_of_fmap in H as (st2 & _ & H%list_elem_of_In).
  by apply exec_seq_lit in H.
Qed.

(** C10. In tables-only mode [clean_latex_file] only rewrites what lies
    between a [\begin{tabular}] and the first [\end{tabular}] after it,
    and there only by [escape_table_chars] on the plain regions of that
    body; every other character of the input comes out as it went in.  A
    document that does not contain [\begin{tabular}] is returned
    unchanged. *)
Theorem tables_only_frame (content : list N) :
  frame content (clean_latex_file content true)
  /\ (contains TABULAR_BEGIN content = false -> clean_latex_file content true = content).
Proof.
  unfold clean_latex_file. fold tabular_re. rewrite re_split_pieces.
  assert (Hcat : concat (split_pieces content 0 (finditer tabular_re content)) = content).
  { unfold tabular_re. erewrite split_pieces_concat;
      [done|apply finditer_sound|apply finditer_chain]. }
  split.
  - rewrite <- Hcat at 1. apply frame_concat, Forall2_fmap_r, Forall_Forall2_diag.
    apply Forall_forall. intros part _.
    change (frame part (if startswith (str "\begin{tabular}") part
                        then escape_special_chars_in_table part TABULAR_BEGIN TABULAR_END
                        else part)).
    destruct (startswith (str "\begin{tabular}") part); [apply escape_special_chars_in_table_frame|apply frame_same].
  - intros Hno.
    assert (Hnil : finditer tabular_re content = []).
    { pose proof (finditer_sound tabular_re content) as Hs.
      destruct (finditer tabular_re content) as [|m ms]; [done|].
      apply Forall_cons in Hs as [(_ & ma & Hm) _].
      apply tabular_re_starts in Hm.
      by rewrite (contains_false _ _ (m_start m) Hno) in Hm. }
    rewrite Hnil. cbn [split_pieces fmap list_fmap concat]. rewrite drop_0, app_nil_r.
    pose proof (contains_false _ _ 0 Hno) as H0. rewrite drop_0 in H0.
    change (str "\begin{tabular}") with TABULAR_BEGIN. by rewrite H0.
Qed.

Lemma tables_only_frame_witness :
  clean_latex_file (str "a<b & \end{tabular} 50% c") true = str "a<b & \end{tabular} 50% c".
Proof.
  apply (proj2 (tables_only_frame (str "a<b & \end{tabular} 50% c"))).
  reflexivity.
Defined.

(** ** The diagnostic classifier *)


Lemma foldl_appends {A B} (step : list B -> A -> list B) (h : A -> list B) (l : list A) :
  (forall acc x, step acc x = acc ++ h x) ->
  forall acc, foldl step acc l = acc ++ flat_map h l.
Proof.
  intros Hstep. induction l as [|x l IH]; intros acc; simpl.
  - by rewrite app_nil_r.
  - by rewrite IH, Hstep, <- app_assoc.
Qed.

Lemma classify_types msg : classify msg ∈ ERROR_TYPES.
Proof.
  unfold classify, ERROR_TYPES.
  repeat (match goal with |- context [if ?b then _ else _] => destruct b end;
          [set_solver|]).
  set_solver.
Qed.

(** A loop that appends to a list and may raise *)
Lemma foldl_bind_appends {A B} (step : option (list B) -> A -> option (list B))
    (h : A -> option (list B)) (l : list A) :
  (forall acc x, step acc x = a ← acc; r ← h x; Some (a ++ r)) ->
  forall acc, foldl step acc l = a ← acc; rs ← mapM h l; Some (a ++ concat rs).
Proof.
  intros Hstep. induction l as [|x l IH]; intros acc; csimpl.
  - destruct acc as [a|]; [|done]. csimpl. by rewrite app_nil_r.
  - rewrite IH, Hstep. destruct acc as [a|]; [|done]. csimpl.
    destruct (h x) as [r|]; [|done]. csimpl.
    destruct (mapM h l) as [rs|]; [|done]. csimpl. by rewrite <- app_assoc.
Qed.

Lemma warning_of_type line w :
  warning_of line = Some w ->
  (type w = str "undefined_citation" \/ type w = str "undefined_reference")
  /\ key w = Some (key_of line) /\ message w = strip line.
Proof.
  unfold warning_of.
  destruct (contains (str "Citation") line && contains (str "undefined") line);
    [intros [= <-]; simpl; auto|].
  destruct (contains (str "Reference") line && contains (str "undefined") line);
    [intros [= <-]; simpl; auto|done].
Qed.

Lemma filter_length_all {A} (P : A -> Prop) `{forall x, Decision (P x)} (l : list A) :
  Forall P l -> length (filter P l) = length l.
Proof.
  induction 1 as [|x l Hx _ IH]; [done|].
  rewrite filter_cons, decide_True by done. simpl. by rewrite IH.
Qed.

Lemma filter_length_none {A} (P : A -> Prop) `{forall x, Decision (P x)} (l : list A) :
  Forall (fun x => ~ P x) l -> length (filter P l) = 0.
Proof.
  induction 1 as [|x l Hx _ IH]; [done|].
  by rewrite filter_cons, decide_False.
Qed.

(** The two loops of [parse_errors]: the entries of the error lines, in
    line order, unless one of them raises, then those of the warnings. *)
Lemma parse_errors_unfold U log :
  parse_errors U log
  = rs ← mapM (error_of U (split_lines log))
              (zip (seq 0 (length (split_lines log))) (split_lines log));
    Some (concat rs ++ omap warning_of (split_lines log)).
Proof.
  unfold parse_errors. cbv zeta. set (lines := split_lines log).
  rewrite (foldl_bind_appends _ (error_of U lines)).
  2:{ intros acc [i line]. unfold error_of. cbn [fst snd].
      destruct acc as [a|]; [|done]. cbn [mbind option_bind].
      destruct (startswith (str "! ") line); [|cbn [mbind option_bind]; by rewrite app_nil_r].
      cbv zeta. by destruct (first_line_num U _). }
  csimpl. destruct (mapM _ _) as [rs|]; [|done]. csimpl. f_equal.
  set (hwarn := fun line => match warning_of line with Some e => [e] | None => [] end).
  rewrite (foldl_appends _ hwarn).
  - f_equal. induction lines as [|line ls IH]; [done|]. csimpl. rewrite IH. unfold hwarn.
    by destruct (warning_of line).
  - intros acc line. unfold hwarn, warning_of.
    destruct (contains (str "Citation") line && contains (str "undefined") line); [done|].
    destruct (contains (str "Reference") line && contains (str "undefined") line); [done|].
    by rewrite app_nil_r.
Qed.

Lemma error_of_Some U lines i line r :
  error_of U lines (i, line) = Some r ->
  (is_error_line line = false /\ r = [])
  \/ (is_error_line line = true
      /\ exists line_num,
           first_line_num U ((fun j => default [] (lines !! j))
                               <$> seq (i + 1) (min (i + 6) (length lines) - (i + 1)))
           = Some line_num
           /\ r = [Error (drop 2 line)
                     ((fun j => default [] (lines !! j))
                        <$> seq (i + 1) (min (i + 6) (length lines) - (i + 1)))
                     line_num (classify (drop 2 line)) None]).
Proof.
  unfold error_of, is_error_line. cbn [fst snd].
  destruct (startswith (str "! ") line); [|intros [= <-]; by left].
  cbv zeta. destruct (first_line_num U _) as [ln|]; [|done].
  intros [= <-]. right. split; [done|]. by exists ln.
Qed.

(** What [parse_errors] returns when it returns *)
Lemma parse_errors_split U log es :
  parse_errors U log = Some es ->
  exists errors warnings,
    es = errors ++ warnings
    /\ message <$> errors = drop 2 <$> filter (fun l => is_error_line l) (split_lines log)
    /\ Forall (fun e => type e = classify (message e) /\ key e = None) errors
    /\ warnings = omap warning_of (split_lines log).
Proof.
  rewrite parse_errors_unfold. set (lines := split_lines log).
  destruct (mapM _ _) as [rs|] eqn:E; [|done]. csimpl. intros [= <-].
  exists (concat rs), (omap warning_of lines).
  apply mapM_Some_1 in E.
  assert (H : forall (ps : list (nat * list N)) rs,
            Forall2 (fun p r => error_of U lines p = Some r) ps rs ->
            message <$> concat rs = drop 2 <$> filter (fun l => is_error_line l) ps.*2
            /\ Forall (fun e => type e = classify (message e) /\ key e = None) (concat rs)).
  { clear. induction 1 as [|[i line] r ps rs Hr _ [IH1 IH2]]; [done|].
    cbn [concat]. rewrite fmap_app, IH1, (fmap_cons snd), filter_cons. cbn [snd].
    apply error_of_Some in Hr as [[Hl ->]|(Hl & ln & _ & ->)].
    - rewrite decide_False by (rewrite Hl; by intros []). done.
    - rewrite decide_True by (by rewrite Hl). split; [done|]. by constructor. }
  destruct (H _ _ E) as [H1 H2]. rewrite snd_zip in H1 by (by rewrite length_seq).
  done.
Qed.

(** ** The repair passes and the regions *)


Lemma first_Chr p : first_class p (Chr p).
Proof.
  intros st st'. simpl. destruct (rest st) as [|c tl]; [done|].
  destruct (p c) eqn:E; [|done]. eauto.
Qed.

Lemma first_Seq p a b : first_class p a -> first_class p (Seq a b).
Proof.
  intros Ha st st'. simpl. rewrite in_flat_map. intros (x & Hx & _). by eapply Ha.
Qed.

Lemma first_Group p i a : first_class p a -> first_class p (Group i a).
Proof.
  intros Ha st st'. simpl. rewrite <- list_elem_of_In, list_elem_of_fmap.
  intros (x & _ & Hx%list_elem_of_In). by eapply Ha.
Qed.

Lemma first_class_none p r (text : list N) :
  first_class p r -> (forall c, c ∈ text -> p c = false) -> finditer r text = [].
Proof.
  intros Hr Hp. pose proof (finditer_sound r text) as Hs.
  destruct (finditer r text) as [|m ms]; [done|].
  apply Forall_cons in Hs as [(_ & ma & Hm) _].
  apply match_at_some_exec in Hm as (st' & Hst').
  apply Hr in Hst' as (c & tl & Hrest & Hc). simpl in Hrest.
  rewrite Hp in Hc; [done|].
  apply (subseteq_drop (m_start m)). rewrite Hrest. apply list_elem_of_here.
Qed.

Lemma ieqc_lt x : ieqc (ch "<") x = true -> x = ch "<".
Proof.
  unfold ieqc. change (between (ch "a") (ch "z") (ch "<")) with false.
  change (N.eqb (ch "<") (ch "i")) with false.
  change (N.eqb (ch "<") (ch "s")) with false.
  change (N.eqb (ch "<") (ch "k")) with false.
  rewrite !orb_false_r. by intros ?%N.eqb_eq.
Qed.

Lemma replacements_first :
  Forall (fun row : re * (rmatch -> list N) * list N => first_class (ieqc (ch "<")) row.1.1)
         replacements.
Proof.
  unfold replacements, html_pair.
  repeat (constructor; [cbn [fst]; repeat (apply first_Seq); apply first_Chr|]).
  constructor.
Qed.

Lemma fix_html_tags_no_tag (content : list N) :
  ch "<" ∉ content -> fix_html_tags content = (content, []).
Proof.
  intros Hno. unfold fix_html_tags.
  generalize (@nil LatexFix) as fixes. pose proof replacements_first as Hf.
  induction Hf as [|[[r repl] nm] rows Hr _ IH]; intros fixes; [done|].
  cbn [foldl]. rewrite (first_class_none _ r content Hr).
  - rewrite bool_decide_eq_false_2 by (by intros []). apply IH.
  - intros c Hc. destruct (ieqc (ch "<") c) eqn:E; [|done].
    apply ieqc_lt in E as ->. done.
Qed.

(** ** Environment balance *)

(** C6. The balance check of [latex_checker.py] reads environment names
    with [\w+], which the star of a starred name does not match: a
    document with [\begin{figure*}] and no [\end{figure*}] is tallied as
    having no environment at all and no issue is reported, whatever the
    Unicode tables say.  On unstarred names the check works: two
    [\begin{figure}] and one [\end{figure}] give the one issue with both
    counts. *)
Theorem starred_environment_unreported (U : unicode_db) :
  re_findall (begin_re U) (str "\begin{figure*}") = []
  /\ re_findall (end_re U) (str "\begin{figure*}") = []
  /\ LatexChecker.main_fmt_issues U elements (str "\begin{figure*}") = []
  /\ LatexChecker.main_fmt_issues U elements (str "\begin{figure}\begin{figure}\end{figure}")
     = [str "Mismatched environment: \begin{figure} (2x) vs \end{figure} (1x)"].
Proof. split; [by vm_compute|]. split; [by vm_compute|]. split; by vm_compute. Qed.

(** ** Missing figures *)

(** C8. [fix_missing_figures] takes the offsets of every match from the
    text it was called with and uses them on the text as already
    rewritten.  With two missing figures on two lines, the comment marker
    put before the first line shifts the second: its offsets then fall in
    the first line, which is already commented, and the second line is
    left as it was, with no fix recorded for it. *)
Theorem second_missing_figure_skipped :
  fix_missing_figures (fun _ => false)
    (str "\includegraphics{a}" ++ [NL] ++ str "\includegraphics{b}" ++ [NL]) (str "/d")
  = (str "% FIXME: missing file - \includegraphics{a}" ++ [NL]
     ++ str "\includegraphics{b}" ++ [NL],
     [mkLatexFix (str "comment_missing_figure") (str "Commented out missing figure: a")])
  /\ fix_missing_figures (fun _ => false)
       (str "text" ++ [NL] ++ str "  \includegraphics[width=1cm]{plots/fig1} % x" ++ [NL]) (str "/d")
     = (str "text" ++ [NL]
        ++ str "% FIXME: missing file -   \includegraphics[width=1cm]{plots/fig1} % x" ++ [NL],
        [mkLatexFix (str "comment_missing_figure")
           (str "Commented out missing figure: plots/fig1")]).
Proof. split; by vm_compute. Qed.

(** When every figure a document names is on disk, the pass changes
    nothing and records nothing. *)
Lemma fix_missing_figures_all_found (path_exists : list N -> bool) (content tex_dir : list N) :
  Forall (fun m => figure_found path_exists tex_dir (get_cap 1 (m_groups m)) = true)
         (finditer includegraphics_re content) ->
  fix_missing_figures path_exists content tex_dir = (content, []).
Proof.
  unfold fix_missing_figures.
  generalize (finditer includegraphics_re content) as ms.
  induction 1 as [|m ms Hm _ IH]; [done|]. cbn [foldl].
  unfold comment_missing at 2. by rewrite Hm.
Qed.


(** ** Escaping twice *)


Lemma subst_fixed R prv (o : list N) :
  all_escaped prv o = true -> subst_chars rewritten R prv o = o.
Proof.
  revert prv. induction o as [|c tl IH]; intros prv; simpl; [done|].
  intros [Hc Htl]%andb_true_iff. apply negb_true_iff in Hc. rewrite Hc.
  simpl. by rewrite IH.
Qed.

Lemma last_or_cons prv c (o : list N) : last_or prv (c :: o) = last_or (Some c) o.
Proof.
  unfold last_or. destruct o as [|c' o']; [done|].
  change (last (c :: c' :: o')) with (last (c' :: o')).
  destruct (last (c' :: o')) eqn:E; [done|]. by apply last_None in E.
Qed.

Lemma all_escaped_app prv (a b : list N) :
  all_escaped prv (a ++ b) = all_escaped prv a && all_escaped (last_or prv a) b.
Proof.
  revert prv. induction a as [|c a IH]; intros prv; [done|].
  simpl. rewrite IH, last_or_cons. by rewrite andb_assoc.
Qed.

Lemma all_escaped_any_spec (o : list N) prv :
  all_escaped_any o = true -> all_escaped prv o = true.
Proof.
  destruct o as [|c tl]; [done|]. cbn [all_escaped all_escaped_any]. unfold rewritten.
  intros [Hc ->]%andb_true_iff. apply negb_true_iff in Hc. rewrite Hc.
  by rewrite andb_false_r.
Qed.

Lemma is_key_elem (d : list (list N * list N)) c :
  is_key d c = true -> exists kv, kv ∈ d /\ kv.1 = [c].
Proof.
  unfold is_key. rewrite existsb_exists. intros (kv & Hin & Hk).
  exists kv. split; [by apply list_elem_of_In|]. by apply bool_decide_eq_true in Hk.
Qed.

(** The replacement of every key but the re-exposed ones has all its keys
    escaped, whatever stands before it, and does not end in a backslash. *)
Lemma CHARS_replacements_escaped c :
  is_key CHARS c = true -> reexposed c = false ->
  all_escaped_any (getitem CHARS [c]) = true
  /\ (forall q, not_escaped q = true -> not_escaped (last_or q (getitem CHARS [c])) = true).
Proof.
  intros Hk Hr. apply is_key_elem in Hk as (kv & Hin & Hkv).
  unfold CHARS in Hin.
  repeat (apply elem_of_cons in Hin as [->|Hin];
          [simpl in Hkv; injection Hkv as <-;
           first [discriminate Hr | split; [by vm_compute|intros q Hq; by vm_compute]
                 | split; [by vm_compute|intros q Hq; exact Hq]]|]).
  by apply elem_of_nil in Hin.
Qed.

Lemma BSL_not_key : is_key CHARS BSL = false.
Proof. by vm_compute. Qed.

Lemma subst_all_escaped (t : list N) : forall p q,
  Forall (fun c => reexposed c = false) t ->
  (not_escaped p = false -> not_escaped q = false) ->
  all_escaped q (subst_chars rewritten (fun c => getitem CHARS [c]) p t) = true.
Proof.
  induction t as [|c tl IH]; intros p q Hsafe Hpq; [done|].
  apply Forall_cons in Hsafe as [Hc Hsafe]. simpl.
  destruct (rewritten p c) eqn:E.
  - unfold rewritten in E. apply andb_true_iff in E as [Hp Hk].
    destruct (CHARS_replacements_escaped c Hk Hc) as [Hesc Hlast].
    rewrite all_escaped_app, (all_escaped_any_spec _ q Hesc). simpl.
    apply IH; [done|]. intros Hbs. simpl in Hbs. apply negb_false_iff, N.eqb_eq in Hbs.
    subst c. by rewrite BSL_not_key in Hk.
  - simpl. rewrite (IH (Some c) (Some c)); [|done|done]. rewrite andb_true_r.
    apply negb_true_iff. unfold rewritten in *.
    destruct (is_key CHARS c); [|by rewrite andb_false_r].
    rewrite andb_true_r in *. auto.
Qed.

(** C3 (as amended). [replace_special_latex_chars] rewrites a character
    exactly when it is a key of [CHARS] that does not follow a backslash:
    an escaped special character is never escaped again, a text whose
    keys all follow a backslash comes back as it is, and on every text
    without [<], [>] and the degree sign a second pass changes nothing
    more. *)
Theorem escaping_twice :
  (forall text : list N,
     replace_special_latex_chars text
     = subst_chars rewritten (fun c => getitem CHARS [c]) None text)
  /\ (forall text : list N,
        all_escaped None text = true -> replace_special_latex_chars text = text)
  /\ (forall text : list N,
        Forall (fun c => reexposed c = false) text ->
        replace_special_latex_chars (replace_special_latex_chars text)
        = replace_special_latex_chars text).
Proof.
  assert (H1 : forall text : list N,
     replace_special_latex_chars text
     = subst_chars rewritten (fun c => getitem CHARS [c]) None text).
  { intros text. apply replace_special_latex_chars_charwise. }
  assert (H2 : forall text : list N,
        all_escaped None text = true -> replace_special_latex_chars text = text).
  { intros text H. rewrite H1. by apply subst_fixed. }
  split; [exact H1|]. split; [exact H2|].
  intros text Hsafe. apply H2. rewrite H1. by apply subst_all_escaped.
Qed.

Lemma escaping_twice_witness :
  replace_special_latex_chars (str "a\&b \% \_") = str "a\&b \% \_"
  /\ replace_special_latex_chars (replace_special_latex_chars (str "50% of a_b & c^2|d"))
     = replace_special_latex_chars (str "50% of a_b & c^2|d").
Proof.
  split.
  - apply (proj1 (proj2 escaping_twice)). reflexivity.
  - apply (proj2 (proj2 escaping_twice)). apply (bool_decide_unpack _). vm_compute. exact I.
Defined.

(** C3 as stated fails: on [$<] the first pass gives [$$<$] and a second
    pass gives [$$$<$$]. *)
Lemma sanitizer_not_idempotent :
  clean_latex_file (str "$<") false = str "$$<$"
  /\ clean_latex_file (clean_latex_file (str "$<") false) false = str "$$$<$$"
  /\ clean_latex_file (clean_latex_file (str "$<") false) false
     <> clean_latex_file (str "$<") false.
Proof. split; [by vm_compute|]. split; by vm_compute. Qed.

(** ** Occurrences of a token in a text *)


Lemma startswith_app (t w b : list N) : startswith t w = true -> startswith t (w ++ b) = true.
Proof.
  rewrite !startswith_spec. intros (k & ->). exists (k ++ b). by rewrite app_assoc.
Qed.


(** When no occurrence of [t] can start in [a] and run into [b], the
    occurrences in [a ++ b] are those in [a] and those in [b]. *)
Lemma occ_app_exact (t a b : list N) :
  (forall w, w <> [] -> startswith t (w ++ b) = true -> startswith t w = true) ->
  occ t (a ++ b) = occ t a + occ t b.
Proof.
  intros Hno. induction a as [|c a IH]; simpl; [done|]. rewrite IH.
  destruct (startswith t (c :: a ++ b)) eqn:E.
  - by rewrite (Hno (c :: a)).
  - destruct (startswith t (c :: a)) eqn:E'; [|done].
    pose proof (startswith_app t (c :: a) b E') as E2.
    rewrite <- app_comm_cons in E2. congruence.
Qed.


Lemma occ_skip (h : N) (t' w b : list N) : h ∉ w -> occ (h :: t') (w ++ b) = occ (h :: t') b.
Proof.
  induction w as [|c w IH]; [done|]. intros [Hc Hw]%not_elem_of_cons.
  simpl. rewrite (IH Hw). destruct (N.eqb_spec h c); [congruence|done].
Qed.

Lemma startswith_stop (d : N) (t w z : list N) :
  d ∉ t -> startswith t (w ++ d :: z) = true -> startswith t w = true.
Proof.
  revert t. induction w as [|c w IH]; intros t Hd; simpl.
  - destruct t as [|a t]; [done|]. simpl. intros [Ha _]%andb_true_iff.
    apply N.eqb_eq in Ha as ->. by apply not_elem_of_cons in Hd as [? _].
  - destruct t as [|a t]; [done|]. simpl. intros [Ha Ht]%andb_true_iff.
    rewrite Ha. simpl. apply IH; [|done]. by apply not_elem_of_cons in Hd as [_ ?].
Qed.



Lemma rstrip_spec (c : list N) :
  exists ws, c = rstrip c ++ ws /\ Forall (fun x => is_space x = true) ws.
Proof.
  induction c as [|x c (ws & Hc & Hws)]; [by exists []|]. simpl.
  destruct (rstrip c) as [|y r] eqn:E.
  - destruct (is_space x) eqn:Ex.
    + exists (x :: ws). split; [by rewrite Hc at 1|]. by constructor.
    + exists ws. split; [by rewrite Hc at 1|done].
  - exists ws. split; [by rewrite Hc at 1|done].
Qed.

Lemma startswith_spaces (t w ws : list N) x :
  last t = Some x -> is_space x = false -> Forall (fun x => is_space x = true) ws ->
  startswith t (w ++ ws) = true -> startswith t w = true.
Proof.
  intros Hlast Hx Hws. revert t Hlast. induction w as [|c w IH]; intros t Hlast; simpl.
  - intros (k & Hk)%startswith_spec. exfalso. subst ws.
    apply Forall_app in Hws as [Ht _].
    assert (x ∈ t) as Hin.
    { apply last_Some in Hlast as (l' & ->). apply elem_of_app. right. apply list_elem_of_here. }
    rewrite Forall_forall in Ht. specialize (Ht x Hin). congruence.
  - destruct t as [|a t]; [done|]. simpl. intros [Ha Ht]%andb_true_iff. rewrite Ha. simpl.
    destruct t as [|a' t']; [done|]. apply IH; [|done]. exact Hlast.
Qed.

Lemma occ_spaces (h : N) (t' ws : list N) :
  is_space h = false -> Forall (fun x => is_space x = true) ws -> occ (h :: t') ws = 0.
Proof.
  intros Hh Hws. rewrite <- (app_nil_r ws), occ_skip; [done|].
  intros Hin. rewrite Forall_forall in Hws. specialize (Hws h Hin). congruence.
Qed.

(** Stripping trailing white space loses no occurrence of a token that
    neither starts nor ends with white space. *)
Lemma occ_rstrip (h x : N) (t' c : list N) :
  is_space h = false -> last (h :: t') = Some x -> is_space x = false ->
  occ (h :: t') (rstrip c) = occ (h :: t') c.
Proof.
  intros Hh Hlast Hx. destruct (rstrip_spec c) as (ws & Hc & Hws).
  rewrite Hc at 2. rewrite occ_app_exact.
  - rewrite (occ_spaces h t' ws) by done. lia.
  - intros w _. by eapply startswith_spaces.
Qed.

(** ** Closing tokens *)


Lemma end_token_cons env : end_token env = BSL :: (str "end{" ++ env ++ str "}").
Proof. done. Qed.

Lemma end_token_tail env : plain_name env -> BSL ∉ str "end{" ++ env ++ str "}".
Proof.
  intros Hp. rewrite !elem_of_app. intros [H|[H|H]].
  - vm_compute in H. repeat (apply elem_of_cons in H as [H|H]; [done|]). by apply elem_of_nil in H.
  - unfold plain_name in Hp. rewrite Forall_forall in Hp. by destruct (Hp _ H).
  - vm_compute in H. repeat (apply elem_of_cons in H as [H|H]; [done|]). by apply elem_of_nil in H.
Qed.


Lemma delimited_inj (d : N) (x y k1 k2 : list N) :
  d ∉ x -> d ∉ y -> x ++ d :: k1 = y ++ d :: k2 -> x = y.
Proof.
  revert y. induction x as [|a x IH]; intros [|b y] Hx Hy; simpl; try done.
  - intros [= -> _]. by apply not_elem_of_cons in Hy as [? _].
  - intros [= -> _]. by apply not_elem_of_cons in Hx as [? _].
  - intros [= -> H]. f_equal. apply not_elem_of_cons in Hx as [_ Hx].
    apply not_elem_of_cons in Hy as [_ Hy]. by eapply IH.
Qed.

Lemma plain_name_brace x : plain_name x -> ch "}" ∉ x.
Proof.
  unfold plain_name. intros Hp Hin. rewrite Forall_forall in Hp. by destruct (Hp _ Hin).
Qed.

(** Two closing tokens only occur at the same offset when they close the
    same environment. *)
Lemma end_token_same x y (b : list N) :
  plain_name x -> plain_name y ->
  startswith (end_token y) (end_token x ++ b) = true -> y = x.
Proof.
  intros Hx Hy (k & Hk)%startswith_spec. unfold end_token in Hk.
  rewrite <- !app_assoc in Hk. apply app_inv_head in Hk.
  symmetry. eapply (delimited_inj (ch "}")); [by apply plain_name_brace..|].
  exact Hk.
Qed.



Lemma rfind_Some (t c : list N) i :
  rfind t c = Some i -> c = take i c ++ t ++ drop (i + length t) c.
Proof.
  revert i. induction c as [|x c IH]; intros i; simpl.
  - destruct (startswith t []) eqn:E; [|done]. intros [= <-].
    apply startswith_spec in E as (k & Hk). symmetry in Hk.
    by apply app_eq_nil in Hk as [-> ->].
  - destruct (rfind t c) as [j|] eqn:Ej.
    + intros [= <-]. simpl. f_equal. by apply IH.
    + destruct (startswith t (x :: c)) eqn:E; [|done]. intros [= <-].
      apply startswith_spec in E as (k & ->). simpl. by rewrite drop_app_length.
Qed.


(** ** What [\\end\{(\w+)\}] finds *)

Lemma star_chr p g fuel : forall st st',
  In st' (star_loop (exec (Chr p)) g fuel st) ->
  exists w, Forall (fun c => p c = true) w /\ rest st = w ++ rest st' /\ caps st' = caps st.
Proof.
  induction fuel as [|f IH]; intros st st'; cbn [star_loop].
  - intros [<-|[]]. by exists [].
  - assert (Hmore : In st' (flat_map (fun x =>
        if bool_decide (length (rest x) < length (rest st))
        then star_loop (exec (Chr p)) g f x else []) (exec (Chr p) st)) ->
      exists w, Forall (fun c => p c = true) w /\ rest st = w ++ rest st' /\ caps st' = caps st).
    { rewrite in_flat_map. intros (x & Hx & Hin). simpl in Hx.
      destruct (rest st) as [|c tl] eqn:E; [done|].
      destruct (p c) eqn:Ec; [|done]. destruct Hx as [<-|[]].
      case_bool_decide; [|done]. apply IH in Hin as (w & Hw & Hr & Hc).
      simpl in *. exists (c :: w). rewrite Hr. split; [by constructor|done]. }
    destruct g.
    + rewrite in_app_iff. intros [H|[<-|[]]]; [auto|by exists []].
    + intros [<-|H]; [by exists []|auto].
Qed.

Lemma exec_plus_chr p st st' :
  In st' (exec (Plus (Chr p)) st) ->
  exists w, w <> [] /\ Forall (fun c => p c = true) w /\ rest st = w ++ rest st'
            /\ caps st' = caps st.
Proof.
  unfold Plus. cbn [exec]. rewrite in_flat_map. intros (x & Hx & Hin).
  destruct (rest st) as [|c tl] eqn:E; [done|].
  destruct (p c) eqn:Ec; [|done]. destruct Hx as [<-|[]].
  apply star_chr in Hin as (w & Hw & Hr & Hc). simpl in *.
  exists (c :: w). rewrite Hr. split; [done|]. split; [by constructor|done].
Qed.

Lemma is_word_plain U c : is_word U c = true -> c <> BSL /\ c <> ch "}".
Proof. intros H. split; intros ->; by vm_compute in H. Qed.


(** ** The tallies *)


Lemma tally_fold (l : list (list N)) : forall (m : gmap (list N) nat) y,
  default 0 (foldl (fun counts b => <[b := default 0 (counts !! b) + 1]> counts) m l !! y)
  = default 0 (m !! y) + count_name y l.
Proof.
  unfold count_name.
  induction l as [|b l IH]; intros m y; simpl; [lia|].
  rewrite IH, filter_cons. destruct (decide (b = y)) as [->|Hne].
  - rewrite lookup_insert_eq. simpl. lia.
  - by rewrite lookup_insert_ne.
Qed.

Lemma tally_count l y : default 0 (tally l !! y) = count_name y l.
Proof. unfold tally. by rewrite tally_fold, lookup_empty. Qed.

Lemma tally_dom_fold (l : list (list N)) : forall (m : gmap (list N) nat),
  dom (foldl (fun counts b => <[b := default 0 (counts !! b) + 1]> counts) m l)
  = dom m ∪ list_to_set l.
Proof.
  induction l as [|b l IH]; intros m; simpl.
  - by rewrite union_empty_r_L.
  - rewrite IH, dom_insert_L, (comm_L (∪) {[b]}), <- (assoc_L (∪)). done.
Qed.

Lemma tally_dom l y : y ∈ dom (tally l) <-> y ∈ l.
Proof.
  unfold tally. by rewrite tally_dom_fold, dom_empty_L, union_empty_l_L, elem_of_list_to_set.
Qed.

Lemma count_name_zero y l : y ∉ l -> count_name y l = 0.
Proof.
  unfold count_name. induction l as [|b l IH]; [done|].
  intros [Hb Hl]%not_elem_of_cons. rewrite filter_cons, decide_False by done. auto.
Qed.






(** ** The rounds of the environment repair *)













(** ** Counting the fixes of one environment *)









(** ** The environment repair *)

Section environment_repair.
Variable U : unicode_db.
Variable set_iter : gset (list N) -> list (list N).
Hypothesis set_iter_enumerates : forall s, set_iter s ≡ₚ elements s.







End environment_repair.


(** The balance check lists one issue per name whose tallies differ, in
    the order in which the set of names is walked. *)
Lemma main_fmt_issues_listing U set_iter content :
  LatexChecker.main_fmt_issues U set_iter content
  = flat_map (fun env =>
      let bc := default 0 (tally (re_findall (begin_re U) content) !! env) in
      let ec := default 0 (tally (re_findall (end_re U) content) !! env) in
      if bool_decide (bc <> ec)
      then [str "Mismatched environment: \begin{" ++ env ++ str "} ("
            ++ str_of_nat bc ++ str "x) vs \end{" ++ env ++ str "} ("
            ++ str_of_nat ec ++ str "x)"]
      else [])
    (set_iter (dom (tally (re_findall (begin_re U) content))
               ∪ dom (tally (re_findall (end_re U) content)))).
Proof.
  unfold LatexChecker.main_fmt_issues.
  rewrite (foldl_appends _ (fun env =>
      let bc := default 0 (tally (re_findall (begin_re U) content) !! env) in
      let ec := default 0 (tally (re_findall (end_re U) content) !! env) in
      if bool_decide (bc <> ec)
      then [str "Mismatched environment: \begin{" ++ env ++ str "} ("
            ++ str_of_nat bc ++ str "x) vs \end{" ++ env ++ str "} ("
            ++ str_of_nat ec ++ str "x)"]
      else [])); [done|].
  intros acc env. cbv zeta. case_bool_decide; [done|by rewrite app_nil_r].
Qed.

(** ** The repair passes and the regions, again *)

Lemma fix_mismatched_environments_balanced U set_iter (content : list N) :
  (forall env, default 0 (tally (re_findall (begin_re U) content) !! env)
               = default 0 (tally (re_findall (end_re U) content) !! env)) ->
  fix_mismatched_environments U set_iter content = (content, []).
Proof.
  intros Hbal. unfold fix_mismatched_environments.
  generalize (set_iter (dom (tally (re_findall (begin_re U) content))
                        ∪ dom (tally (re_findall (end_re U) content)))) as L.
  induction L as [|env L IH]; [done|]. cbn [foldl].
  unfold repair_env at 2. by rewrite Hbal, Nat.ltb_irrefl.
Qed.

(** C4 (as amended). The repair passes work on the raw text and know
    nothing of regions: they rewrite what they look for wherever it
    stands, in a protected region or not.  What every pass leaves as it
    is, with no fix, is a document without its trigger: the HTML-tag pass
    a document without the character <, the environment pass a document
    whose tallies agree for every name, the figure pass a document whose
    figures are all on disk, and the placeholder math-mode pass every
    document. *)
Theorem repair_passes_frame (U : unicode_db) (set_iter : gset (list N) -> list (list N))
    (path_exists : list N -> bool) :
  (forall content : list N, fix_missing_math_mode content = (content, []))
  /\ (forall content : list N, ch "<" ∉ content -> fix_html_tags content = (content, []))
  /\ (forall content : list N,
        (forall env, default 0 (tally (re_findall (begin_re U) content) !! env)
                     = default 0 (tally (re_findall (end_re U) content) !! env)) ->
        fix_mismatched_environments U set_iter content = (content, []))
  /\ (forall content tex_dir : list N,
        Forall (fun m => figure_found path_exists tex_dir (get_cap 1 (m_groups m)) = true)
               (finditer includegraphics_re content) ->
        fix_missing_figures path_exists content tex_dir = (content, [])).
Proof.
  split; [done|]. split; [apply fix_html_tags_no_tag|].
  split; [apply fix_mismatched_environments_balanced|].
  apply fix_missing_figures_all_found.
Qed.

Lemma repair_passes_frame_witness :
  fix_html_tags (str "$a_b$ % c \ref{x}") = (str "$a_b$ % c \ref{x}", [])
  /\ fix_missing_figures (fun p => bool_decide (p = str "/d/plots/fig1.pdf"))
       (str "\includegraphics{plots/fig1}") (str "/d")
     = (str "\includegraphics{plots/fig1}", []).
Proof.
  split.
  - apply (proj1 (proj2 (repair_passes_frame
             (Build_unicode_db (fun _ => false) (fun _ => None)) elements (fun _ => false)))).
    apply (bool_decide_unpack _). vm_compute. exact I.
  - apply (proj2 (proj2 (proj2 (repair_passes_frame
             (Build_unicode_db (fun _ => false) (fun _ => None)) elements
             (fun p => bool_decide (p = str "/d/plots/fig1.pdf")))))).
    apply (bool_decide_unpack _). vm_compute. exact I.
Defined.

(** C4 as stated fails: the whole of [$<b>x</b>$] is one protected
    (math) region and the HTML-tag pass rewrites inside it; the whole of
    [% \end{a}] is one protected (comment) region and the environment
    pass takes the closer out of it. *)
Lemma repair_rewrites_protected :
  segment (str "$<b>x</b>$") = [Span Plain 0 0; Span Protected 0 10; Span Plain 10 10]
  /\ fix_html_tags (str "$<b>x</b>$")
     = (str "$\textbf{x}$",
        [mkLatexFix (str "html_bold") (str "Replaced 1 HTML html_bold tags")])
  /\ (fix_html_tags (str "$<b>x</b>$")).1 <> str "$<b>x</b>$"
  /\ segment (str "% \end{a}") = [Span Plain 0 0; Span Protected 0 9; Span Plain 9 9]
  /\ fix_mismatched_environments (Build_unicode_db (fun _ => false) (fun _ => None)) elements
       (str "% \end{a}")
     = (str "% ", [fix_remove (str "a")]).
Proof. repeat (split; [by vm_compute|]). by vm_compute. Qed.

(** * Further properties of clean_latex.py *)

(** ** The non-ASCII normalization *)


Lemma flat_map_flat_map {A B C} (f : A -> list B) (g : B -> list C) (l : list A) :
  flat_map g (flat_map f l) = flat_map (fun x => flat_map g (f x)) l.
Proof.
  induction l as [|x l IH]; simpl; [done|]. by rewrite flat_map_app, IH.
Qed.

Lemma normalize_char_absent tbl c : c ∉ tbl.*1 -> normalize_char tbl c = [c].
Proof.
  induction tbl as [|[k r] tbl IH]; [done|]. csimpl.
  intros [Hne Hin]%not_elem_of_cons. destruct (N.eqb_spec c k); [done|]. auto.
Qed.

Lemma normalize_free tbl (r : list N) :
  Forall (fun c => c ∉ tbl.*1) r -> flat_map (normalize_char tbl) r = r.
Proof.
  induction 1 as [|c r Hc _ IH]; [done|]. simpl.
  by rewrite normalize_char_absent, IH.
Qed.

(** Replacing the keys one after the other is replacing them all at
    once, when no replacement holds a key of a later row. *)
Lemma replace_chars_fold tbl : forall text : list N,
  Forall (fun kr : N * list N => Forall (fun c => c ∉ tbl.*1) kr.2) tbl ->
  foldl (fun text '(c, replacement) => replace_char c replacement text) text tbl
  = flat_map (normalize_char tbl) text.
Proof.
  induction tbl as [|[k r] tbl IH]; intros text Hfree.
  - simpl. by rewrite flat_map_single.
  - apply Forall_cons in Hfree as [Hr Hfree]. cbn [foldl].
    rewrite IH.
    2:{ eapply Forall_impl; [exact Hfree|]. intros kr Hkr.
        eapply Forall_impl; [exact Hkr|]. intros c Hc Hin. apply Hc. csimpl.
        by apply list_elem_of_further. }
    unfold replace_char. rewrite flat_map_flat_map. apply flat_map_ext. intros x.
    cbn [normalize_char]. destruct (N.eqb_spec x k) as [->|Hne].
    + apply normalize_free. eapply Forall_impl; [exact Hr|].
      intros c Hc Hin. apply Hc. csimpl. by apply list_elem_of_further.
    + simpl. by rewrite app_nil_r.
Qed.

Lemma NON_UTF8_CHARS_free :
  Forall (fun kr : N * list N => Forall (fun c => c ∉ NON_UTF8_CHARS.*1) kr.2) NON_UTF8_CHARS.
Proof.
  apply (bool_decide_unpack _). by vm_compute.
Qed.

Lemma normalize_char_row (keys : list N) tbl c :
  Forall (fun kr : N * list N => Forall (fun c => c ∉ keys) kr.2) tbl ->
  c ∈ tbl.*1 -> Forall (fun x => x ∉ keys) (normalize_char tbl c).
Proof.
  induction tbl as [|[k r] tbl IH]; intros Hfree Hin; [by apply elem_of_nil in Hin|].
  apply Forall_cons in Hfree as [Hr Hfree]. cbn [normalize_char].
  destruct (N.eqb_spec c k) as [->|Hne]; [exact Hr|].
  apply IH; [done|]. csimpl in Hin. by apply elem_of_cons in Hin as [?|?].
Qed.

Lemma normalize_char_out tbl c :
  Forall (fun kr : N * list N => Forall (fun c => c ∉ tbl.*1) kr.2) tbl ->
  Forall (fun x => x ∉ tbl.*1) (normalize_char tbl c).
Proof.
  intros Hfree. destruct (decide (c ∈ tbl.*1)) as [Hin|Hnin].
  - by apply normalize_char_row.
  - rewrite normalize_char_absent by done. by constructor.
Qed.

(** X1. [replace_non_utf8_chars] replaces every key of [NON_UTF8_CHARS]
    at once, each by its replacement, and leaves every other character;
    its output holds no key of the table, so running it again changes
    nothing. *)
Theorem replace_non_utf8_chars_normal (text : list N) :
  replace_non_utf8_chars text = flat_map (normalize_char NON_UTF8_CHARS) text
  /\ Forall (fun c => c ∉ NON_UTF8_CHARS.*1) (replace_non_utf8_chars text)
  /\ replace_non_utf8_chars (replace_non_utf8_chars text) = replace_non_utf8_chars text.
Proof.
  assert (H1 : forall t : list N,
            replace_non_utf8_chars t = flat_map (normalize_char NON_UTF8_CHARS) t).
  { intros t. apply replace_chars_fold, NON_UTF8_CHARS_free. }
  assert (H2 : Forall (fun c => c ∉ NON_UTF8_CHARS.*1) (replace_non_utf8_chars text)).
  { rewrite H1. induction text as [|c tl IH]; [constructor|]. cbn [flat_map].
    apply Forall_app. split; [|done]. apply normalize_char_out, NON_UTF8_CHARS_free. }
  split; [apply H1|]. split; [exact H2|].
  by apply replace_non_utf8_chars_absent.
Qed.

(** ** Where protected regions start *)


Lemma eats_Chr (p q : N -> bool) : (forall c, q c = true -> p c = true) -> eats p (Chr q).
Proof.
  intros Hpq st st'. simpl. destruct (rest st) as [|c tl]; [done|].
  destruct (q c) eqn:E; [|done]. intros [<-|[]]. exists c, tl. split; [done|].
  split; [auto|done].
Qed.

Lemma eats_Seq p a b : eats p a -> eats p (Seq a b).
Proof.
  intros Ha st st'. simpl. rewrite in_flat_map. intros (x & Hx & Hin).
  destruct (Ha _ _ Hx) as (c & tl & Hr & Hc & Hs). exists c, tl.
  split; [done|]. split; [done|]. etrans; [by eapply exec_suffix|done].
Qed.

Lemma eats_NotPrev p q b : eats p b -> eats p (Seq (NotPrev q) b).
Proof.
  intros Hb st st'. cbn [exec]. rewrite in_flat_map. intros (x & Hx & Hin).
  assert (x = st) as ->.
  { destruct (prev st) as [c|]; [destruct (q c)|]; simpl in Hx; try done;
      by destruct Hx as [<-|[]]. }
  by apply Hb.
Qed.

Lemma eats_Alt p a b : eats p a -> eats p b -> eats p (Alt a b).
Proof.
  intros Ha Hb st st'. simpl. rewrite in_app_iff. intros [H|H]; eauto.
Qed.

Lemma eats_Fail p : eats p Fail.
Proof. intros st st' []. Qed.

Lemma eats_Group p i a : eats p a -> eats p (Group i a).
Proof.
  intros Ha st st'. simpl. rewrite <- list_elem_of_In, list_elem_of_fmap.
  intros (x & -> & Hx%list_elem_of_In). apply Ha in Hx as (c & tl & ? & ? & ?).
  by exists c, tl.
Qed.

Lemma eats_lit p (s : list N) :
  match s with c :: _ => p c | [] => false end = true -> eats p (lit s).
Proof.
  destruct s as [|c s]; [done|]. intros Hc.
  change (lit (c :: s)) with (Seq (Chr (eqc c)) (lit s)).
  apply eats_Seq, eats_Chr. unfold eqc. by intros x ->%N.eqb_eq.
Qed.

Lemma eats_first p r : eats p r -> first_class p r.
Proof. intros H st st' Hin. destruct (H _ _ Hin) as (c & tl & ? & ? & _). eauto. Qed.

Lemma eats_match p r prv txt ma n g :
  eats p r -> match_at r prv txt ma = Some (n, g) ->
  0 < n /\ exists c, head txt = Some c /\ p c = true.
Proof.
  intros Hr (st' & Hin & _ & -> & _)%match_at_consumes.
  apply Hr in Hin as (c & tl & Hrest & Hc & Hs). simpl in Hrest. subst txt.
  apply suffix_length in Hs. simpl. split; [lia|]. eauto.
Qed.

Ltac eats_tac :=
  repeat first
    [ apply eats_Fail
    | apply eats_Alt
    | apply eats_NotPrev
    | apply eats_lit; reflexivity
    | apply eats_Seq
    | apply eats_Chr; unfold eqc; intros ? ->%N.eqb_eq; reflexivity ].

Lemma SKIP_RE_eats : eats skip_start SKIP_RE.
Proof.
  unfold SKIP_RE, build_skip_pattern, SKIP_COMMANDS, LATEX_ENV_NAMES, alts, seqs.
  cbn [fmap list_fmap app foldr]. eats_tac.
Qed.

Lemma found_eats p r (text : list N) m :
  eats p r -> found_at r text m ->
  m_start m < m_end m /\ exists c, text !! m_start m = Some c /\ p c = true.
Proof.
  intros Hr (Hle & ma & Hm). eapply eats_match in Hm as (Hn & c & Hc & Hp); [|done].
  split; [lia|]. exists c. split; [|done].
  rewrite <- (Nat.add_0_r (m_start m)), <- lookup_drop.
  by destruct (drop (m_start m) text).
Qed.

Lemma spans_from_protected (Q : span -> Prop) len ms : forall last,
  Forall (fun m => Q (Span Protected (m_start m) (m_end m))) ms ->
  Forall (fun s => sp_kind s = Protected -> Q s) (spans_from len last ms).
Proof.
  induction ms as [|m ms IH]; intros last Hms; simpl.
  - by repeat constructor.
  - apply Forall_cons in Hms as [Hm Hms].
    constructor; [done|]. constructor; [done|]. by apply IH.
Qed.

(** X2. A protected region is never empty, and it starts with a percent
    sign, a backslash or a dollar sign: these are the only characters at
    which a match of [SKIP_RE] can begin. *)
Theorem protected_regions_start (text : list N) :
  Forall (fun s => sp_kind s = Protected ->
            sp_start s < sp_end s /\
            exists c, text !! sp_start s = Some c /\ c ∈ [ch "%"; BSL; ch "$"])
         (segment text).
Proof.
  unfold segment. apply spans_from_protected.
  eapply Forall_impl; [apply finditer_sound|]. intros m Hm. simpl.
  destruct (found_eats _ _ _ _ SKIP_RE_eats Hm) as (Hlt & c & Hc & Hp).
  split; [done|]. exists c. split; [done|].
  unfold skip_start in Hp. rewrite !orb_true_iff, !N.eqb_eq in Hp.
  destruct Hp as [[->| ->]| ->]; set_solver.
Qed.

(** X3. A text with no percent sign, backslash or dollar sign has no
    protected region: it is one plain region, and
    [process_latex_text_and_math] hands the whole of it to [process_text]. *)
Theorem prose_is_one_region (text : list N) (pt pm : option (list N -> list N)) :
  ch "%" ∉ text -> BSL ∉ text -> ch "$" ∉ text ->
  segment text = [Span Plain 0 (length text)]
  /\ process_latex_text_and_math text pt pm = default replace_special_latex_chars pt text.
Proof.
  intros H1 H2 H3.
  assert (Hnone : finditer SKIP_RE text = []).
  { apply (first_class_none skip_start); [apply eats_first, SKIP_RE_eats|].
    intros c Hc. unfold skip_start.
    destruct (N.eqb_spec c (ch "%")) as [->|_]; [done|].
    destruct (N.eqb_spec c BSL) as [->|_]; [done|].
    by destruct (N.eqb_spec c (ch "$")) as [->|_]. }
  split; [unfold segment; by rewrite Hnone|].
  unfold process_latex_text_and_math. rewrite Hnone. simpl. by rewrite drop_0.
Qed.

Lemma prose_is_one_region_witness :
  segment (str "a & b") = [Span Plain 0 5]
  /\ process_latex_text_and_math (str "a & b") None None
     = replace_special_latex_chars (str "a & b").
Proof.
  apply (prose_is_one_region (str "a & b") None None);
    apply (bool_decide_unpack _); vm_compute; exact I.
Defined.

(** ** The context of an error *)

Lemma context_window (lines : list (list N)) i :
  i < length lines ->
  (fun j => default [] (lines !! j)) <$> seq (i + 1) (min (i + 6) (length lines) - (i + 1))
  = take 5 (drop (S i) lines).
Proof.
  intros Hi. apply list_eq. intros k.
  rewrite list_lookup_fmap, lookup_take, lookup_drop.
  replace (S i + k) with (i + 1 + k) by lia.
  destruct (decide (k < min (i + 6) (length lines) - (i + 1))) as [Hk|Hk].
  - rewrite lookup_seq_lt by done. simpl.
    rewrite decide_True by lia.
    replace (S i + k) with (i + 1 + k) by lia.
    destruct (lookup_lt_is_Some_2 lines (i + 1 + k)) as [x Hx]; [lia|]. by rewrite Hx.
  - rewrite lookup_seq_ge by lia. simpl.
    destruct (decide (k < 5)); [|done].
    symmetry. apply lookup_ge_None. lia.
Qed.

Lemma startswith_drop (p t : list N) : startswith p t = true -> t = p ++ drop (length p) t.
Proof. intros (k & ->)%startswith_spec. by rewrite drop_app_length. Qed.

(** X4. Every entry that [parse_errors] returns and that is an error (it
    has no key) comes from a line of the log that starts with "! "; its
    context is the five lines after that line, or as many as the log
    still has, and its line number is read from that context.  An entry
    for a citation or reference warning has no context and no line
    number. *)
Theorem parse_errors_context (U : unicode_db) (log : list N) (es : list error) :
  parse_errors U log = Some es ->
  Forall (fun e =>
            match key e with
            | None =>
                exists i, split_lines log !! i = Some (str "! " ++ message e)
                          /\ context e = take 5 (drop (S i) (split_lines log))
                          /\ first_line_num U (context e) = Some (line_num e)
            | Some _ => context e = [] /\ line_num e = None
            end)
         es.
Proof.
  rewrite parse_errors_unfold. set (lines := split_lines log).
  destruct (mapM _ _) as [rs|] eqn:E; [|done]. cbn [mbind option_bind]. intros [= <-].
  apply mapM_Some_1 in E. apply Forall_app. split.
  - apply Forall_concat, Forall_forall. intros r (k & Hk)%list_elem_of_lookup.
    destruct (Forall2_lookup_r _ _ _ _ _ E Hk) as ([i line] & Hp & Hr).
    apply lookup_zip_with_Some in Hp as (i' & line' & [= <- <-] & Hi & Hl).
    apply lookup_seq in Hi as [-> Hlt]. simpl in Hl.
    apply error_of_Some in Hr as [[_ ->]|(Hs & ln & Hln & ->)]; [constructor|].
    constructor; [|constructor]. cbn [key message context line_num].
    exists k. rewrite context_window in * by done. split; [|done].
    rewrite Hl. f_equal. by apply startswith_drop in Hs.
  - apply Forall_forall. intros w (line & _ & Hw)%list_elem_of_omap.
    unfold warning_of in Hw.
    destruct (contains (str "Citation") line && contains (str "undefined") line);
      [by injection Hw as <-|].
    destruct (contains (str "Reference") line && contains (str "undefined") line);
      [by injection Hw as <-|done].
Qed.

Lemma parse_errors_context_witness :
  Forall (fun e =>
            match key e with
            | None =>
                exists i, split_lines (str "! Undefined control sequence." ++ [NL]
                                       ++ str "l.12 \foo") !! i
                          = Some (str "! " ++ message e)
                          /\ context e
                             = take 5 (drop (S i) (split_lines
                                 (str "! Undefined control sequence." ++ [NL]
                                  ++ str "l.12 \foo")))
                          /\ first_line_num (Build_unicode_db (fun _ => false) (fun _ => None))
                               (context e) = Some (line_num e)
            | Some _ => context e = [] /\ line_num e = None
            end)
         [Error (str "Undefined control sequence.") [str "l.12 \foo"] (Some 12%N)
            (str "undefined_command") None].
Proof.
  apply (parse_errors_context (Build_unicode_db (fun _ => false) (fun _ => None))
           (str "! Undefined control sequence." ++ [NL] ++ str "l.12 \foo")).
  vm_compute. reflexivity.
Defined.

(** ** Delimited fields: a keyword, a greedy run, a closing character *)

Lemma star_greedy_head p fuel : forall w st r,
  rest st = w ++ r -> Forall (fun c => p c = true) w ->
  match r with c :: _ => p c = false | [] => True end ->
  length w <= fuel ->
  exists l, star_loop (exec (Chr p)) true fuel st = St (last_or (prev st) w) r (caps st) :: l.
Proof.
  induction fuel as [|f IH]; intros w [pv rs g] r Hr Hw Hstop Hlen; cbn [rest prev caps] in *.
  - destruct w; [|simpl in Hlen; lia]. simpl in Hr. subst rs. by exists [].
  - destruct w as [|c w].
    + simpl in Hr. subst rs. cbn [star_loop].
      assert (Hstep : exec (Chr p) (St pv r g) = []).
      { destruct r as [|c r]; [done|]. simpl. by rewrite Hstop. }
      rewrite Hstep. by exists [].
    + simpl in Hr. subst rs. apply Forall_cons in Hw as [Hc Hw].
      cbn [star_loop].
      assert (Hstep : exec (Chr p) (St pv (c :: w ++ r) g) = [St (Some c) (w ++ r) g]).
      { simpl. by rewrite Hc. }
      rewrite Hstep. cbn [flat_map rest].
      rewrite bool_decide_eq_true_2 by (simpl; lia).
      destruct (IH w (St (Some c) (w ++ r) g) r) as (l & ->); [done..|simpl in Hlen; lia|].
      rewrite app_nil_r. cbn [prev caps]. rewrite last_or_cons. by eexists.
Qed.

Lemma delimited_head (kw : list N) (p : N -> bool) (d : N) prv (w k : list N) :
  w <> [] -> Forall (fun c => p c = true) w -> p d = false ->
  exists l,
    exec (seqs [lit kw; Group 1 (Plus (Chr p)); lit [d]]) (St prv (kw ++ w ++ d :: k) [])
    = St (Some d) k [(1, w)] :: l.
Proof.
  intros Hne Hw Hd. unfold seqs. cbn [foldr].
  change (exec (Seq ?a ?b) ?s) with (flat_map (exec b) (exec a s)).
  rewrite exec_lit. cbn [rest prev caps].
  rewrite (proj2 (startswith_spec kw _)) by eauto. rewrite drop_app_length.
  cbn [flat_map]. rewrite app_nil_r.
  change (exec (Seq ?a ?b) ?s) with (flat_map (exec b) (exec a s)).
  destruct w as [|c w]; [done|]. apply Forall_cons in Hw as [Hc Hw].
  set (pv := match last kw with Some c0 => Some c0 | None => prv end).
  unfold Plus. cbn [exec rest caps prev app]. rewrite Hc. cbn [flat_map rest].
  fold (exec (Chr p)).
  destruct (star_greedy_head p (length (w ++ d :: k)) w (St (Some c) (w ++ d :: k) []) (d :: k))
    as (l & ->); [done|done|done|rewrite length_app; lia|].
  rewrite app_nil_r. cbn [fmap list_fmap flat_map rest prev caps].
  change (exec (Seq ?a ?b) ?s) with (flat_map (exec b) (exec a s)).
  change (lit [d]) with (Seq (Chr (eqc d)) Eps).
  cbn [exec rest caps prev set_cap flat_map filter list_filter].
  unfold eqc. rewrite N.eqb_refl. cbn [flat_map exec app].
  replace (take (length (c :: w ++ d :: k) - length (d :: k)) (c :: w ++ d :: k)) with (c :: w).
  - by eexists.
  - rewrite (app_comm_cons w). rewrite length_app.
    replace (length (c :: w) + length (d :: k) - length (d :: k)) with (length (c :: w)) by lia.
    by rewrite take_app_length.
Qed.

Lemma delimited_match (kw : list N) (p : N -> bool) (d : N) prv (w k : list N) :
  w <> [] -> Forall (fun c => p c = true) w -> p d = false ->
  match_at (seqs [lit kw; Group 1 (Plus (Chr p)); lit [d]]) prv (kw ++ w ++ d :: k) false
  = Some (length kw + length w + 1, [(1, w)]).
Proof.
  intros Hne Hw Hd. unfold match_at.
  destruct (delimited_head kw p d prv w k Hne Hw Hd) as (l & ->).
  cbn [negb orb]. rewrite filter_cons. cbn [head fmap option_fmap option_map rest caps].
  rewrite decide_True by done. cbn [head fmap option_fmap option_map rest caps].
  f_equal. f_equal. rewrite !length_app. simpl. lia.
Qed.

Lemma first_class_no_match p r prv c (tl : list N) ma :
  first_class p r -> p c = false -> match_at r prv (c :: tl) ma = None.
Proof.
  intros Hr Hc. destruct (match_at r prv (c :: tl) ma) as [[n g]|] eqn:E; [|done].
  apply match_at_some_exec in E as (st' & Hst').
  apply Hr in Hst' as (c' & tl' & [= <- <-] & Hp). congruence.
Qed.

(** The scan steps over a stretch in which no match can start. *)
Lemma scan_skip_prefix p r (pre : list N) :
  first_class p r -> (forall c, c ∈ pre -> p c = false) ->
  forall pos prv txt,
    scan r pos prv (pre ++ txt) 0 = scan r (pos + length pre) (last_or prv pre) txt 0.
Proof.
  intros Hr. induction pre as [|c pre IH]; intros Hp pos prv txt.
  - simpl. by rewrite Nat.add_0_r.
  - rewrite <- app_comm_cons. cbn [scan].
    rewrite (first_class_no_match p) by (try done; apply Hp, list_elem_of_here).
    rewrite IH by (intros x Hx; by apply Hp, list_elem_of_further).
    rewrite last_or_cons. simpl. f_equal. lia.
Qed.

Lemma scan_first_match r pos prv (txt : list N) n g :
  match_at r prv txt false = Some (S n, g) ->
  exists l, scan r pos prv txt 0 = Match pos (pos + S n) g :: l.
Proof. intros H. destruct txt; simpl; rewrite H; by eexists. Qed.

Lemma quoted_key_first : first_class (eqc (ch "`")) quoted_key.
Proof. apply first_Seq, first_Seq, first_Chr. Qed.

(** X5. The key of a citation or reference warning is the text between
    the first backquote of the line and the first apostrophe after it,
    when that text is not empty: [key_of] returns it whatever comes
    before the backquote and after the apostrophe. *)
Theorem key_of_quoted (pre k post : list N) :
  ch "`" ∉ pre -> k <> [] -> ch "'" ∉ k ->
  key_of (pre ++ str "`" ++ k ++ str "'" ++ post) = k.
Proof.
  intros Hpre Hk Hq. unfold key_of, re_search, finditer.
  rewrite (scan_skip_prefix _ _ _ quoted_key_first).
  2:{ intros c Hc. unfold eqc. destruct (N.eqb_spec c (ch "`")) as [->|]; done. }
  assert (Hm : match_at quoted_key (last_or None pre) (str "`" ++ k ++ str "'" ++ post) false
               = Some (S (length k + 1), [(1, k)])).
  { unfold quoted_key. change (lit (str "'")) with (lit [ch "'"]).
    change (str "'" ++ post) with (ch "'" :: post).
    rewrite (delimited_match (str "`") (neqc (ch "'")) (ch "'")); try done.
    - apply Forall_forall. intros c Hc. unfold neqc.
      destruct (N.eqb_spec c (ch "'")) as [->|]; done. }
  destruct (scan_first_match quoted_key (0 + length pre) _ _ _ _ Hm) as (l & ->).
  done.
Qed.

Lemma key_of_quoted_witness :
  key_of (str "Citation " ++ str "`" ++ str "smith20" ++ str "'" ++ str " undefined")
  = str "smith20".
Proof.
  apply (key_of_quoted (str "Citation ") (str "smith20") (str " undefined"));
    [apply (bool_decide_unpack _); vm_compute; exact I | done
    | apply (bool_decide_unpack _); vm_compute; exact I].
Defined.

(** A line without a backquote has the empty key. *)
Lemma key_of_none (line : list N) : ch "`" ∉ line -> key_of line = [].
Proof.
  intros H. unfold key_of, re_search.
  rewrite (first_class_none _ _ _ quoted_key_first); [done|].
  intros c Hc. unfold eqc. destruct (N.eqb_spec c (ch "`")) as [->|]; done.
Qed.

(** ** Passes that record what they change *)


Lemma records_refl cf : records cf cf.
Proof. by left. Qed.

Lemma records_trans a b c : records a b -> records b c -> records a c.
Proof.
  intros [->|(f & fs & Hb)] [->|(f' & fs' & Hc)].
  - by left.
  - right. eauto.
  - right. eauto.
  - right. exists f, (fs ++ f' :: fs'). by rewrite Hc, Hb, <- app_assoc.
Qed.

Lemma records_foldl {A} (step : list N * list LatexFix -> A -> list N * list LatexFix) (l : list A) :
  (forall cf x, records cf (step cf x)) -> forall cf, records cf (foldl step cf l).
Proof.
  intros Hs. induction l as [|x l IH]; intros cf; [apply records_refl|].
  simpl. eapply records_trans; [apply Hs|apply IH].
Qed.

Lemma records_iter (step : list N * list LatexFix -> list N * list LatexFix) n :
  (forall cf, records cf (step cf)) -> forall cf, records cf (Nat.iter n step cf).
Proof.
  intros Hs. induction n as [|n IH]; intros cf; [apply records_refl|].
  simpl. eapply records_trans; [apply IH|apply Hs].
Qed.

Lemma records_quiet (c c' : list N) f' : records (c, []) (c', f') -> f' = [] -> c' = c.
Proof.
  intros [[= -> _]|(f & fs & H)] ->; [done|]. simpl in H. by destruct fs.
Qed.

Lemma fix_html_tags_records content : records (content, []) (fix_html_tags content).
Proof.
  unfold fix_html_tags. apply records_foldl. intros [c f] [[pattern repl] nm].
  case_bool_decide; [|apply records_refl]. right. simpl. by eexists _, [].
Qed.

Lemma fix_mismatched_environments_records U set_iter content :
  records (content, []) (fix_mismatched_environments U set_iter content).
Proof.
  unfold fix_mismatched_environments. apply records_foldl. intros cf env.
  unfold repair_env. cbv zeta.
  destruct (_ <? _).
  - apply records_iter. intros [c f]. right. simpl. by eexists _, [].
  - destruct (_ <? _); [|apply records_refl].
    apply records_iter. intros [c f]. unfold remove_end. simpl.
    destruct (rfind _ c); [|apply records_refl]. right. simpl. by eexists _, [].
Qed.

Lemma fix_missing_figures_records path_exists content tex_dir :
  records (content, []) (fix_missing_figures path_exists content tex_dir).
Proof.
  unfold fix_missing_figures. apply records_foldl. intros [c f] m.
  unfold comment_missing. cbv zeta. cbn [fst snd].
  destruct (figure_found _ _ _); [apply records_refl|].
  destruct (negb _); [|apply records_refl]. right. simpl. by eexists _, [].
Qed.

(** X7. When the passes of [main] record no fix, which is when [main]
    prints "No fixes needed." and writes nothing, the text they return
    is the text they were given: no pass changes the document without
    recording a fix. *)
Theorem main_passes_quiet (U : unicode_db) (set_iter : gset (list N) -> list (list N))
    (path_exists : list N -> bool) (content tex_dir : list N) :
  (main_passes U set_iter path_exists content tex_dir).2 = [] ->
  (main_passes U set_iter path_exists content tex_dir).1 = content.
Proof.
  unfold main_passes.
  pose proof (fix_html_tags_records content) as H1.
  destruct (fix_html_tags content) as [c1 f1].
  pose proof (fix_mismatched_environments_records U set_iter c1) as H2.
  destruct (fix_mismatched_environments U set_iter c1) as [c2 f2].
  pose proof (fix_missing_figures_records path_exists c2 tex_dir) as H3.
  destruct (fix_missing_figures path_exists c2 tex_dir) as [c3 f3].
  unfold fix_missing_math_mode. cbn [fst snd].
  intros (-> & (-> & (-> & _)%app_eq_nil)%app_eq_nil)%app_eq_nil.
  apply records_quiet in H1, H2, H3; try done. congruence.
Qed.

Lemma main_passes_quiet_witness :
  (main_passes (Build_unicode_db (fun _ => false) (fun _ => None)) elements (fun _ => true)
     (str "\begin{a}x\end{a} \includegraphics{f}") (str "/d")).1
  = str "\begin{a}x\end{a} \includegraphics{f}".
Proof.
  apply (main_passes_quiet (Build_unicode_db (fun _ => false) (fun _ => None)) elements
           (fun _ => true) (str "\begin{a}x\end{a} \includegraphics{f}") (str "/d")).
  vm_compute. reflexivity.
Defined.

(** X6. [fix_html_tags] records at most one fix for each row of its
    table, in the order of the table: the names of its fixes are a
    sublist of the names in the table, so there are at most ten. *)
Theorem fix_html_tags_names (content : list N) :
  name <$> (fix_html_tags content).2 `sublist_of` replacements.*2
  /\ length (fix_html_tags content).2 <= 10.
Proof.
  assert (H : name <$> (fix_html_tags content).2 `sublist_of` replacements.*2).
  { unfold fix_html_tags.
    match goal with |- context [foldl ?s _ _] => set (step := s) end.
    assert (G : forall rows (c : list N) (f : list LatexFix),
      exists k, name <$> (foldl step (c, f) rows).2 = (name <$> f) ++ k
                /\ k `sublist_of` rows.*2).
    { induction rows as [|[[pattern repl] nm] rows IH]; intros c f.
      - exists []. by rewrite app_nil_r.
      - cbn [foldl]. unfold step at 2. cbv zeta. case_bool_decide.
        + edestruct IH as (k & Hk & Hsub). rewrite Hk, fmap_app, <- app_assoc.
          exists (nm :: k). split; [done|by apply sublist_skip].
        + destruct (IH c f) as (k & Hk & Hsub). rewrite Hk.
          exists k. split; [done|by apply sublist_cons]. }
    destruct (G replacements content []) as (k & -> & Hsub). exact Hsub. }
  split; [done|]. apply sublist_length in H. by rewrite !length_fmap in H.
Qed.

(** ** What the figure pass does to the lines *)


Lemma split_lines_cons_line (c : N) (t : list N) :
  c <> NL -> split_lines (c :: t) = match split_lines t with
                                     | l :: ls => (c :: l) :: ls
                                     | [] => [[c]]
                                     end.
Proof. intros H. simpl. by destruct (N.eqb_spec c NL). Qed.

Lemma split_lines_nonempty (t : list N) : split_lines t <> [].
Proof.
  induction t as [|c t IH]; [done|]. simpl.
  destruct (N.eqb c NL); [done|]. by destruct (split_lines t).
Qed.

Lemma split_lines_app_nl (a b : list N) :
  split_lines (a ++ NL :: b) = split_lines a ++ split_lines b.
Proof.
  induction a as [|c a IH]; [done|].
  simpl. destruct (N.eqb c NL); [by rewrite IH|].
  rewrite IH. pose proof (split_lines_nonempty a). by destruct (split_lines a).
Qed.

Lemma split_lines_prefix (mk b : list N) :
  NL ∉ mk ->
  split_lines (mk ++ b) = match split_lines b with
                          | l :: ls => (mk ++ l) :: ls
                          | [] => [mk]
                          end.
Proof.
  induction mk as [|c mk IH]; intros Hmk.
  - simpl. pose proof (split_lines_nonempty b). by destruct (split_lines b).
  - apply not_elem_of_cons in Hmk as [Hc Hmk]. rewrite <- app_comm_cons.
    rewrite split_lines_cons_line by done. rewrite IH by done.
    pose proof (split_lines_nonempty b). by destruct (split_lines b).
Qed.

Lemma marked_refl l : marked l l.
Proof. by exists 0. Qed.

Lemma marked_more l l' : marked l l' -> marked l (FIXME_MARK ++ l').
Proof. intros (k & ->). exists (S k). cbn [replicate concat]. by rewrite <- app_assoc. Qed.

Lemma marked_lines_refl (ls : list (list N)) : Forall2 marked ls ls.
Proof. induction ls; constructor; [apply marked_refl|done]. Qed.

(** Putting the marker at the start of a line marks that line and
    leaves the others, and their number, as they are. *)
Lemma mark_line (ls : list (list N)) (a b : list N) :
  (a = [] \/ exists a', a = a' ++ [NL]) ->
  Forall2 marked ls (split_lines (a ++ b)) ->
  Forall2 marked ls (split_lines (a ++ FIXME_MARK ++ b)).
Proof.
  assert (Hmk : NL ∉ FIXME_MARK).
  { intros H. vm_compute in H.
    repeat (apply elem_of_cons in H as [H|H]; [done|]). by apply elem_of_nil in H. }
  assert (Hb : forall ls', Forall2 marked ls' (split_lines b) ->
                           Forall2 marked ls' (split_lines (FIXME_MARK ++ b))).
  { intros ls' H. rewrite split_lines_prefix by done.
    pose proof (split_lines_nonempty b). destruct (split_lines b) as [|l tl]; [done|].
    apply Forall2_cons_inv_r in H as (x & xs & Hx & Hxs & ->).
    constructor; [by apply marked_more|done]. }
  intros [->|(a' & ->)]; [apply Hb|].
  rewrite <- !app_assoc. cbn [app]. rewrite !split_lines_app_nl.
  intros (l1 & l2 & H1 & H2 & ->)%Forall2_app_inv_r.
  apply Forall2_app; [done|by apply Hb].
Qed.

Lemma rfind_bound (t c : list N) i : t <> [] -> rfind t c = Some i -> i + length t <= length c.
Proof.
  intros Ht H. apply rfind_Some in H. apply (f_equal length) in H.
  rewrite !length_app, length_take, length_drop in H. destruct t; [done|]. simpl in *. lia.
Qed.

Lemma find_bound (t c : list N) i : t <> [] -> find t c = Some i -> i + length t <= length c.
Proof.
  intros Ht H. apply find_Some in H. apply (f_equal length) in H.
  rewrite !length_app, length_take, length_drop in H. destruct t; [done|]. simpl in *. lia.
Qed.

(** One round of the loop of [fix_missing_figures]: nothing, or the
    marker put at the start of a line. *)
Lemma comment_missing_step path_exists tex_dir (c : list N) f m :
  m_start m <= m_end m -> m_end m <= length c ->
  comment_missing path_exists tex_dir (c, f) m = (c, f)
  \/ exists a b, c = a ++ b /\ (a = [] \/ exists a', a = a' ++ [NL])
       /\ comment_missing path_exists tex_dir (c, f) m
          = (a ++ FIXME_MARK ++ b,
             f ++ [mkLatexFix (str "comment_missing_figure")
                     (str "Commented out missing figure: " ++ get_cap 1 (m_groups m))]).
Proof.
  intros Hse Hec. unfold comment_missing. cbv zeta. cbn [fst snd].
  destruct (figure_found _ _ _); [by left|].
  set (ls := match rfind [NL] (take (m_start m) c) with Some i => i + 1 | None => 0 end).
  set (le := match find [NL] (drop (m_end m) c) with Some i => m_end m + i | None => length c end).
  destruct (negb _); [|left; reflexivity]. right.
  assert (Hls : ls <= m_start m /\ (take ls c = [] \/ exists a', take ls c = a' ++ [NL])).
  { unfold ls. destruct (rfind [NL] (take (m_start m) c)) as [i|] eqn:E; [|split; [lia|left; reflexivity]].
    pose proof (rfind_bound [NL] _ _ ltac:(done) E) as Hb. rewrite length_take in Hb. simpl in Hb.
    split; [lia|]. right. exists (take i c).
    apply rfind_Some in E. apply (f_equal (fun l => l !! i)) in E.
    rewrite lookup_app_r in E by (rewrite !length_take; lia).
    rewrite !length_take in E. replace (i - i `min` (m_start m `min` length c)) with 0 in E by lia.
    simpl in E. rewrite lookup_take in E. destruct (decide (i < m_start m)); [|lia].
    replace (i + 1) with (S i) by lia. by apply take_S_r. }
  assert (Hle : m_end m <= le <= length c).
  { unfold le. destruct (find [NL] (drop (m_end m) c)) as [i|] eqn:E; [|lia].
    pose proof (find_bound [NL] _ _ ltac:(done) E) as Hb. rewrite length_drop in Hb. simpl in Hb. lia. }
  destruct Hls as [Hls Ha].
  exists (take ls c), (drop ls c). split; [by rewrite take_drop|]. split; [done|].
  f_equal. f_equal. fold FIXME_MARK. rewrite <- app_assoc. f_equal.
  apply slice_drop. lia.
Qed.

Lemma chain_bounds lo ms hi :
  chain lo ms hi -> Forall (fun m => m_start m <= m_end m /\ m_end m <= hi) ms.
Proof.
  revert lo. induction ms as [|m ms IH]; intros lo; [constructor|].
  intros (H1 & H2 & H3). constructor; [|by eapply IH].
  split; [done|by eapply chain_le].
Qed.

(** X8. [fix_missing_figures] only ever puts its marker
    "% FIXME: missing file - " at the start of a line: the lines of its
    result are the lines of the document, in the same order and number,
    each with the marker before it zero or more times.  Every fix it
    records is a "comment_missing_figure", there is at most one per
    [\includegraphics] found, and the text grows by the 24 characters of
    the marker for every fix. *)
Theorem fix_missing_figures_marks (path_exists : list N -> bool) (content tex_dir : list N) :
  Forall2 marked (split_lines content)
          (split_lines (fix_missing_figures path_exists content tex_dir).1)
  /\ length (fix_missing_figures path_exists content tex_dir).1
     = length content + 24 * length (fix_missing_figures path_exists content tex_dir).2
  /\ Forall (fun f => name f = str "comment_missing_figure")
            (fix_missing_figures path_exists content tex_dir).2
  /\ length (fix_missing_figures path_exists content tex_dir).2
     <= length (finditer includegraphics_re content).
Proof.
  unfold fix_missing_figures.
  pose proof (chain_bounds _ _ _ (finditer_chain includegraphics_re content)) as Hb.
  assert (G : forall ms (c : list N) f,
    Forall (fun m => m_start m <= m_end m /\ m_end m <= length content) ms ->
    Forall2 marked (split_lines content) (split_lines c) ->
    length content <= length c ->
    exists f', (foldl (comment_missing path_exists tex_dir) (c, f) ms).2 = f ++ f'
      /\ Forall2 marked (split_lines content)
           (split_lines (foldl (comment_missing path_exists tex_dir) (c, f) ms).1)
      /\ length (foldl (comment_missing path_exists tex_dir) (c, f) ms).1
         = length c + 24 * length f'
      /\ Forall (fun f => name f = str "comment_missing_figure") f'
      /\ length f' <= length ms).
  { induction ms as [|m ms IH]; intros c f Hms Hl Hlen.
    - exists []. simpl. rewrite app_nil_r. repeat split; try done; lia.
    - apply Forall_cons in Hms as [[Hse Hec] Hms]. cbn [foldl].
      destruct (comment_missing_step path_exists tex_dir c f m Hse ltac:(lia))
        as [->|(a & b & -> & Ha & ->)].
      + destruct (IH c f Hms Hl Hlen) as (f' & -> & ? & ? & ? & ?).
        exists f'. repeat split; try done. simpl. lia.
      + edestruct (IH (a ++ FIXME_MARK ++ b)) as (f' & -> & H2 & H3 & H4 & H5); [done| |..].
        * by apply mark_line.
        * rewrite !length_app in *. lia.
        * eexists (_ :: f'). rewrite <- app_assoc. split; [done|].
          split; [done|]. split; [|split; [by constructor|simpl; lia]].
          rewrite H3, !length_app. change (length FIXME_MARK) with 24. simpl. lia. }
  destruct (G (finditer includegraphics_re content) content [] Hb
              (marked_lines_refl _) ltac:(done)) as (f' & Hf & H2 & H3 & H4 & H5).
  simpl in Hf. rewrite Hf. done.
Qed.

(** ** Tallies and occurrences *)


Lemma delimited_match_inv (kw : list N) (p : N -> bool) (d : N) prv txt ma n g :
  match_at (seqs [lit kw; Group 1 (Plus (Chr p)); lit [d]]) prv txt ma = Some (n, g) ->
  exists w k, get_cap 1 g = w /\ w <> [] /\ Forall (fun c => p c = true) w
              /\ txt = kw ++ w ++ d :: k /\ n = length kw + length w + 1.
Proof.
  intros (st' & Hin & Htxt & Hn & ->)%match_at_consumes.
  unfold seqs in Hin. cbn [foldr] in Hin.
  change (exec (Seq ?a ?b) ?s) with (flat_map (exec b) (exec a s)) in Hin.
  apply in_flat_map in Hin as (st1 & H1 & Hin).
  rewrite exec_lit in H1. cbn [rest prev caps] in H1.
  destruct (startswith kw txt) eqn:EA; [|done]. destruct H1 as [<-|[]].
  apply startswith_spec in EA as (k & ->).
  change (exec (Seq ?a ?b) ?s) with (flat_map (exec b) (exec a s)) in Hin.
  apply in_flat_map in Hin as (st2 & H2 & Hin).
  cbn [exec] in H2. apply list_elem_of_In, list_elem_of_fmap in H2 as (st2' & -> & H2).
  apply list_elem_of_In in H2. fold (Plus (Chr p)) in H2.
  apply exec_plus_chr in H2 as (w & Hne & Hw & Hr & Hc).
  cbn [rest caps] in Hr, Hc. rewrite drop_app_length in Hr. subst k.
  rewrite exec_seq_eps, exec_lit in Hin.
  cbn [rest prev caps set_cap] in Hin.
  destruct (startswith [d] (rest st2')) eqn:EB; [|done]. destruct Hin as [<-|[]].
  apply startswith_spec in EB as (k & Hk). cbn [rest caps] in *.
  exists w, k. rewrite drop_app_length, length_app.
  replace (length w + length (rest st2') - length (rest st2')) with (length w) by lia.
  rewrite take_app_length. unfold get_cap. cbn [List.find fst snd Nat.eqb].
  rewrite Hk. split; [done|]. split; [done|]. split; [done|]. split; [done|].
  rewrite Hn, Hk, !length_app, length_drop, !length_app. simpl. lia.
Qed.

(** For a pattern whose matches start with a backslash and hold no
    other, and that matches wherever the token [BSL :: t'] stands, the
    matches that satisfy [P] are as many as the occurrences of the token
    when [P] singles out the matches at an occurrence. *)
Lemma scan_occ r (t' : list N) (P : rmatch -> Prop) `{forall m, Decision (P m)} :
  (forall prv txt n g pos, match_at r prv txt false = Some (n, g) ->
     0 < n /\ (BSL ∉ take (n - 1) (drop 1 txt))
     /\ (P (Match pos (pos + n) g) <-> startswith (BSL :: t') txt = true)) ->
  (forall prv txt, match_at r prv txt false = None -> startswith (BSL :: t') txt = false) ->
  forall txt pos prv skip, BSL ∉ take skip txt ->
    length (filter P (scan r pos prv txt skip)) = occ (BSL :: t') (drop skip txt).
Proof.
  intros H1 H2. induction txt as [|c tl IH]; intros pos prv skip Hskip.
  - destruct skip; [|done]. cbn [scan drop occ].
    destruct (match_at r prv [] false) as [[n g]|] eqn:E; [|done].
    pose proof (match_at_bound _ _ _ _ _ _ E) as Hb.
    destruct (H1 _ _ _ _ pos E) as (Hn & _). simpl in Hb. lia.
  - destruct skip as [|k].
    + cbn [scan drop].
      change (occ (BSL :: t') (c :: tl))
        with ((if startswith (BSL :: t') (c :: tl) then 1 else 0) + occ (BSL :: t') tl).
      destruct (match_at r prv (c :: tl) false) as [[n g]|] eqn:E.
      * destruct (H1 _ _ _ _ pos E) as (Hn & Hb & HP).
        destruct n as [|n]; [lia|]. cbn [drop] in Hb. rewrite drop_0 in Hb.
        replace (S n - 1) with n in Hb by lia.
        pose proof (IH (S pos) (Some c) n Hb) as IHn.
        assert (Hocc : occ (BSL :: t') tl = occ (BSL :: t') (drop n tl)).
        { rewrite <- (take_drop n tl) at 1. by apply occ_skip. }
        rewrite Hocc.
        rewrite filter_cons.
        destruct (decide (P (Match pos (pos + S n) g))) as [Hp|Hp]; cbn [length]; rewrite IHn.
        -- apply HP in Hp. rewrite Hp. done.
        -- destruct (startswith (BSL :: t') (c :: tl)) eqn:Es; [|done].
           exfalso. by apply Hp, HP.
      * rewrite (H2 _ _ E). rewrite (IH (S pos) (Some c) 0); [done|].
        rewrite take_0. apply not_elem_of_nil.
    + cbn [scan drop]. apply IH. cbn [take] in Hskip.
      by apply not_elem_of_cons in Hskip as [_ ?].
Qed.

Lemma word_name_spec U y :
  word_name U y = true <-> y <> [] /\ Forall (fun c => is_word U c = true) y.
Proof.
  unfold word_name. rewrite andb_true_iff, negb_true_iff, bool_decide_eq_false.
  rewrite forallb_forall, Forall_forall. setoid_rewrite list_elem_of_In. done.
Qed.

Lemma keyword_count U (kw' y text : list N) :
  BSL ∉ kw' -> y <> [] -> Forall (fun c => is_word U c = true) y ->
  count_name y (re_findall (seqs [lit (BSL :: kw'); Group 1 (Plus (Chr (is_word U)));
                                  lit (str "}")]) text)
  = occ (BSL :: kw' ++ y ++ str "}") text.
Proof.
  intros Hkw Hy Hw. unfold count_name, re_findall, finditer.
  set (r := seqs _).
  assert (Hbrace : is_word U (ch "}") = false) by done.
  rewrite <- (drop_0 text) at 2.
  pose proof (scan_occ r (kw' ++ y ++ str "}") (fun m => get_cap 1 (m_groups m) = y)) as Hocc.
  rewrite <- (fun HA HB => Hocc HA HB text 0 None 0).
  - induction (scan r 0 None text 0) as [|m ms IH]; [done|].
    rewrite fmap_cons, !filter_cons. destruct (decide _); simpl; by rewrite IH.
  - intros prv txt n g pos Hm.
    apply (delimited_match_inv (BSL :: kw') (is_word U) (ch "}")) in Hm
      as (w & k & Hg & Hne & Hww & -> & ->).
    split; [lia|]. split.
    + replace (length (BSL :: kw') + length w + 1 - 1) with (length (kw' ++ w ++ [ch "}"]))
        by (rewrite !length_app; simpl; lia).
      assert (Heq : drop 1 ((BSL :: kw') ++ w ++ ch "}" :: k) = (kw' ++ w ++ [ch "}"]) ++ k).
      { cbn [app drop]. rewrite drop_0. by rewrite <- !app_assoc. }
      rewrite Heq, take_app_length. rewrite !elem_of_app. intros [Hb|[Hb|Hb]]; [done| |].
      * rewrite Forall_forall in Hww. apply Hww in Hb. by vm_compute in Hb.
      * apply list_elem_of_singleton in Hb. done.
    + cbn [m_groups]. rewrite Hg. split.
      * intros ->. apply startswith_spec. exists k.
        change (str "}") with [ch "}"]. cbn [app]. f_equal. by rewrite <- !app_assoc.
      * intros (k' & Hk')%startswith_spec.
        change (str "}") with [ch "}"] in Hk'. cbn [app] in Hk'.
        injection Hk' as Hk'. rewrite <- !app_assoc in Hk'. apply app_inv_head in Hk'.
        cbn [app] in Hk'. eapply (delimited_inj (ch "}")); [| |exact Hk'].
        -- intros Hb. rewrite Forall_forall in Hww. apply Hww in Hb. congruence.
        -- intros Hb. rewrite Forall_forall in Hw. apply Hw in Hb. congruence.
  - intros prv txt Hnone. destruct (startswith _ txt) eqn:Es; [|done].
    apply startswith_spec in Es as (k & ->).
    change (str "}") with [ch "}"] in *.
    assert (Heq : (BSL :: kw' ++ y ++ [ch "}"]) ++ k = (BSL :: kw') ++ y ++ ch "}" :: k).
    { cbn [app]. f_equal. by rewrite <- !app_assoc. }
    rewrite Heq in Hnone. subst r.
    by rewrite (delimited_match (BSL :: kw') (is_word U) (ch "}")) in Hnone.
  - rewrite take_0. apply not_elem_of_nil.
Qed.

Lemma keyword_names U (kw y text : list N) :
  y ∈ re_findall (seqs [lit kw; Group 1 (Plus (Chr (is_word U))); lit (str "}")]) text ->
  word_name U y = true.
Proof.
  unfold re_findall. intros (m & -> & Hm)%list_elem_of_fmap.
  pose proof (finditer_sound (seqs [lit kw; Group 1 (Plus (Chr (is_word U))); lit (str "}")]) text)
    as Hs.
  rewrite Forall_forall in Hs. destruct (Hs m Hm) as (_ & ma & H).
  apply (delimited_match_inv kw (is_word U) (ch "}")) in H as (w & k & -> & ? & ? & _).
  by apply word_name_spec.
Qed.

Lemma tallies_occ (U : unicode_db) (text y : list N) :
  default 0 (tally (re_findall (begin_re U) text) !! y)
  = (if word_name U y then occ (begin_token y) text else 0)
  /\ default 0 (tally (re_findall (end_re U) text) !! y)
     = (if word_name U y then occ (end_token y) text else 0).
Proof.
  rewrite !tally_count. destruct (word_name U y) eqn:Ey.
  - apply word_name_spec in Ey as [Hne Hw]. split.
    + apply (keyword_count U (str "begin{") y text); [|done..].
      apply (bool_decide_unpack _). by vm_compute.
    + apply (keyword_count U (str "end{") y text); [|done..].
      apply (bool_decide_unpack _). by vm_compute.
  - split; apply count_name_zero; intros Hin;
      apply keyword_names in Hin; congruence.
Qed.

(** X9. The tallies of the environment check and of the environment
    repair are counts of literal occurrences: for a name made of word
    characters, the number of [\begin{name}] (of [\end{name}]) in the
    text; every other name, a starred one for instance, is tallied 0
    however often it occurs. *)
Theorem tallies_count_occurrences (U : unicode_db) (text y : list N) :
  default 0 (tally (re_findall (begin_re U) text) !! y)
  = (if word_name U y then occ (begin_token y) text else 0)
  /\ default 0 (tally (re_findall (end_re U) text) !! y)
     = (if word_name U y then occ (end_token y) text else 0).
Proof. apply tallies_occ. Qed.

(** ** One pass is enough when only closers are missing *)

Lemma is_word_NL U : is_word U NL = false.
Proof. done. Qed.

Lemma word_plain U y : Forall (fun c => is_word U c = true) y -> plain_name y.
Proof. intros H. eapply Forall_impl; [exact H|]. intros c. apply is_word_plain. Qed.

Lemma word_no_NL U y : Forall (fun c => is_word U c = true) y -> NL ∉ y.
Proof.
  intros H Hin. rewrite Forall_forall in H. apply H in Hin. by rewrite is_word_NL in Hin.
Qed.

(** What one added closer does to the occurrences of a token
    [\kw{y}]: those of the text stay, and the closer counts when it is
    the token. *)
Lemma occ_add_end U (kw' y env c : list N) :
  NL ∉ kw' -> Forall (fun c => is_word U c = true) y -> Forall (fun c => is_word U c = true) env ->
  occ (BSL :: kw' ++ y ++ str "}") (rstrip c ++ [NL] ++ end_token env ++ [NL])
  = occ (BSL :: kw' ++ y ++ str "}") c
    + (if startswith (BSL :: kw' ++ y ++ str "}") (end_token env ++ [NL]) then 1 else 0).
Proof.
  intros Hkw Hy Henv. set (t' := kw' ++ y ++ str "}").
  assert (Hnl : NL ∉ BSL :: t').
  { unfold t'. rewrite not_elem_of_cons, !elem_of_app. split; [done|].
    intros [H|[H|H]]; [done|by apply (word_no_NL U) in H|].
    change (str "}") with [ch "}"] in H. by apply list_elem_of_singleton in H. }
  rewrite occ_app_exact.
  2:{ intros w _ Hs. cbn [app] in Hs. by eapply startswith_stop. }
  rewrite (occ_rstrip BSL (ch "}")); [|done| |done].
  2:{ unfold t'. change (str "}") with [ch "}"].
      rewrite (app_comm_cons kw'), !app_assoc. by rewrite last_snoc. }
  f_equal. cbn [app].
  change (occ (BSL :: t') (NL :: end_token env ++ [NL]))
    with (occ (BSL :: t') (end_token env ++ [NL])).
  rewrite end_token_cons at 1. rewrite <- app_comm_cons.
  change (occ (BSL :: t') (BSL :: (str "end{" ++ env ++ str "}") ++ [NL]))
    with ((if startswith (BSL :: t') (BSL :: (str "end{" ++ env ++ str "}") ++ [NL])
           then 1 else 0)
          + occ (BSL :: t') ((str "end{" ++ env ++ str "}") ++ [NL])).
  rewrite <- (app_nil_r ((str "end{" ++ env ++ str "}") ++ [NL])) at 2.
  rewrite occ_skip.
  - change (occ (BSL :: t') []) with 0. by rewrite Nat.add_0_r.
  - rewrite elem_of_app. intros [H|H].
    + by apply (end_token_tail env (word_plain U env Henv)).
    + by apply list_elem_of_singleton in H.
Qed.

Lemma occ_add_end_begin U (y env c : list N) :
  Forall (fun c => is_word U c = true) y -> Forall (fun c => is_word U c = true) env ->
  occ (begin_token y) (add_end env (c, [])).1 = occ (begin_token y) c.
Proof.
  intros Hy Henv. unfold add_end. cbn [fst].
  change (begin_token y) with (BSL :: str "begin{" ++ y ++ str "}").
  rewrite (occ_add_end U); [|apply (bool_decide_unpack _); by vm_compute|done..].
  change (startswith _ _) with false. cbv iota. lia.
Qed.

Lemma occ_add_end_end U (y env c : list N) :
  Forall (fun c => is_word U c = true) y -> Forall (fun c => is_word U c = true) env ->
  occ (end_token y) (add_end env (c, [])).1
  = occ (end_token y) c + (if decide (y = env) then 1 else 0).
Proof.
  intros Hy Henv. unfold add_end. cbn [fst].
  change (end_token y) with (BSL :: str "end{" ++ y ++ str "}").
  rewrite (occ_add_end U); [|apply (bool_decide_unpack _); by vm_compute|done..].
  change (BSL :: str "end{" ++ y ++ str "}") with (end_token y). f_equal.
  destruct (decide (y = env)) as [->|Hne].
  - by rewrite startswith_app by (apply startswith_spec; exists []; by rewrite app_nil_r).
  - destruct (startswith _ _) eqn:E; [|done].
    apply end_token_same in E; [done|by eapply word_plain..].
Qed.

Lemma add_end_fst env c f : (add_end env (c, f)).1 = (add_end env (c, [])).1.
Proof. done. Qed.

Lemma add_rounds_exact U (y env : list N) n : forall c f,
  Forall (fun c => is_word U c = true) y -> Forall (fun c => is_word U c = true) env ->
  occ (begin_token y) (Nat.iter n (add_end env) (c, f)).1 = occ (begin_token y) c
  /\ occ (end_token y) (Nat.iter n (add_end env) (c, f)).1
     = occ (end_token y) c + (if decide (y = env) then n else 0).
Proof.
  intros c f Hy Henv. induction n as [|n [IH1 IH2]].
  - simpl. split; [done|]. destruct (decide _); lia.
  - change (Nat.iter (S n) (add_end env) (c, f))
      with (add_end env (Nat.iter n (add_end env) (c, f))).
    destruct (Nat.iter n (add_end env) (c, f)) as [c' f'].
    rewrite add_end_fst. rewrite (occ_add_end_begin U), (occ_add_end_end U) by done.
    cbn [fst] in *. rewrite IH1, IH2. split; [done|]. destruct (decide _); lia.
Qed.

Lemma repair_only_adds U bcs ecs (L : list (list N)) :
  (forall env, default 0 (ecs !! env) <= default 0 (bcs !! env)) ->
  NoDup L -> Forall (fun env => Forall (fun c => is_word U c = true) env) L ->
  forall c f y, Forall (fun c => is_word U c = true) y ->
    occ (begin_token y) (foldl (repair_env bcs ecs) (c, f) L).1 = occ (begin_token y) c
    /\ occ (end_token y) (foldl (repair_env bcs ecs) (c, f) L).1
       = occ (end_token y) c
         + (if decide (y ∈ L) then default 0 (bcs !! y) - default 0 (ecs !! y) else 0).
Proof.
  intros Hle. induction 1 as [|env L Hnotin Hnd IH]; intros HL c f y Hy.
  - cbn [foldl fst]. split; [done|].
    destruct (decide (y ∈ [])) as [H|_]; [by apply elem_of_nil in H|lia].
  - apply Forall_cons in HL as [Henv HL]. cbn [foldl].
    assert (Hstep : repair_env bcs ecs (c, f) env
                    = Nat.iter (default 0 (bcs !! env) - default 0 (ecs !! env))
                        (add_end env) (c, f)).
    { unfold repair_env. cbv zeta. specialize (Hle env).
      destruct (Nat.ltb_spec (default 0 (ecs !! env)) (default 0 (bcs !! env))); [done|].
      destruct (Nat.ltb_spec (default 0 (bcs !! env)) (default 0 (ecs !! env))); [lia|].
      by replace (default 0 (bcs !! env) - default 0 (ecs !! env)) with 0 by lia. }
    rewrite Hstep.
    destruct (add_rounds_exact U y env (default 0 (bcs !! env) - default 0 (ecs !! env))
                c f Hy Henv) as [H1 H2].
    destruct (Nat.iter _ (add_end env) (c, f)) as [c' f']. cbn [fst] in H1, H2.
    destruct (IH HL c' f' y Hy) as [-> ->]. rewrite H1, H2. split; [done|].
    destruct (decide (y = env)) as [->|Hne].
    + rewrite decide_False by done. rewrite decide_True by apply list_elem_of_here. lia.
    + destruct (decide (y ∈ L)).
      * rewrite decide_True by by apply list_elem_of_further. lia.
      * rewrite decide_False; [lia|]. by intros [?|?]%elem_of_cons.
Qed.

(** X10. When no environment of a document has more closers than
    openers, one run of [fix_mismatched_environments] balances it: in
    the text it returns every name has as many closers as openers, the
    openers being those of the document; a second run changes nothing
    and records no fix, and the balance check of [latex_checker.py]
    reports nothing. *)
Theorem repair_converges (U : unicode_db) (set_iter : gset (list N) -> list (list N))
    (content : list N) :
  (forall s, set_iter s ≡ₚ elements s) ->
  (forall env, default 0 (tally (re_findall (end_re U) content) !! env)
               <= default 0 (tally (re_findall (begin_re U) content) !! env)) ->
  (forall env,
     default 0 (tally (re_findall (end_re U)
                         (fix_mismatched_environments U set_iter content).1) !! env)
     = default 0 (tally (re_findall (begin_re U) content) !! env)
     /\ default 0 (tally (re_findall (begin_re U)
                            (fix_mismatched_environments U set_iter content).1) !! env)
        = default 0 (tally (re_findall (begin_re U) content) !! env))
  /\ fix_mismatched_environments U set_iter (fix_mismatched_environments U set_iter content).1
     = ((fix_mismatched_environments U set_iter content).1, [])
  /\ LatexChecker.main_fmt_issues U set_iter (fix_mismatched_environments U set_iter content).1
     = [].
Proof.
  intros Hiter Hle.
  set (fixed := (fix_mismatched_environments U set_iter content).1).
  assert (Hbal : forall env,
    default 0 (tally (re_findall (end_re U) fixed) !! env)
    = default 0 (tally (re_findall (begin_re U) content) !! env)
    /\ default 0 (tally (re_findall (begin_re U) fixed) !! env)
       = default 0 (tally (re_findall (begin_re U) content) !! env)).
  { intros y.
    destruct (tallies_occ U fixed y) as [Hb He].
    destruct (tallies_occ U content y) as [Hb0 He0].
    rewrite Hb, He, Hb0. pose proof (Hle y) as Hley. rewrite He0, Hb0 in Hley.
    destruct (word_name U y) eqn:Ey; [|done].
    apply word_name_spec in Ey as [Hne Hw].
    set (bcs := tally (re_findall (begin_re U) content)).
    set (ecs := tally (re_findall (end_re U) content)).
    destruct (repair_only_adds U bcs ecs (set_iter (dom bcs ∪ dom ecs))) with (c := content)
      (f := @nil LatexFix) (y := y) as [H1 H2]; try done.
    - rewrite Hiter. apply NoDup_elements.
    - apply Forall_forall. intros env Henv. rewrite Hiter in Henv.
      apply elem_of_elements, elem_of_union in Henv.
      unfold bcs, ecs in Henv. rewrite !tally_dom in Henv.
      destruct Henv as [Henv|Henv]; apply keyword_names in Henv;
        by apply word_name_spec in Henv as [_ ?].
    - change fixed
        with (foldl (repair_env bcs ecs) (content, []) (set_iter (dom bcs ∪ dom ecs))).1.
      rewrite H1, H2. split; [|done].
      fold bcs in Hb0. fold ecs in He0.
      destruct (decide (y ∈ set_iter (dom bcs ∪ dom ecs))) as [Hin|Hout].
      + rewrite Hb0, He0. lia.
      + assert (default 0 (bcs !! y) = 0 /\ default 0 (ecs !! y) = 0) as [Hz1 Hz2].
        { rewrite Hiter, elem_of_elements, elem_of_union in Hout.
          unfold bcs, ecs in Hout. rewrite !tally_dom in Hout.
          unfold bcs, ecs. rewrite !tally_count.
          split; apply count_name_zero; intros ?; apply Hout; auto. }
        rewrite Hb0 in Hz1. rewrite He0 in Hz2. lia. }
  split; [exact Hbal|].
  assert (Heq : forall env, default 0 (tally (re_findall (begin_re U) fixed) !! env)
                            = default 0 (tally (re_findall (end_re U) fixed) !! env)).
  { intros env. destruct (Hbal env) as [-> ->]. done. }
  split; [by apply fix_mismatched_environments_balanced|].
  rewrite main_fmt_issues_listing.
  induction (set_iter _) as [|env L IH]; [done|].
  cbn [flat_map]. cbv zeta. rewrite bool_decide_eq_false_2 by (by rewrite Heq; intros []).
  exact IH.
Qed.

Lemma repair_converges_witness :
  fix_mismatched_environments (Build_unicode_db (fun _ => false) (fun _ => None)) elements
    (fix_mismatched_environments (Build_unicode_db (fun _ => false) (fun _ => None)) elements
       (str "\begin{a}\begin{b}x\end{a}")).1
  = ((fix_mismatched_environments (Build_unicode_db (fun _ => false) (fun _ => None)) elements
        (str "\begin{a}\begin{b}x\end{a}")).1, []).
Proof.
  refine (proj1 (proj2 (repair_converges
    (Build_unicode_db (fun _ => false) (fun _ => None)) elements
    (str "\begin{a}\begin{b}x\end{a}") _ _))).
  - intros s. reflexivity.
  - intros env. rewrite !tally_count.
    assert (re_findall (end_re (Build_unicode_db (fun _ => false) (fun _ => None)))
              (str "\begin{a}\begin{b}x\end{a}") = [str "a"]) as -> by (by vm_compute).
    assert (re_findall (begin_re (Build_unicode_db (fun _ => false) (fun _ => None)))
              (str "\begin{a}\begin{b}x\end{a}") = [str "a"; str "b"]) as -> by (by vm_compute).
    unfold count_name. rewrite !filter_cons.
    destruct (decide (str "a" = env)), (decide (str "b" = env)); simpl; lia.
Defined.


(** ** Loading a document *)

Lemma sub_pieces_same (text : list N) ms : forall last,
  chain last ms (length text) ->
  concat (sub_pieces text (group0 text) last ms) = drop last text.
Proof.
  induction ms as [|m ms IH]; intros last; cbn [sub_pieces chain concat].
  - intros _. by rewrite app_nil_r.
  - intros (H1 & H2 & H3). rewrite IH by done. unfold group0.
    rewrite (slice_drop text (m_start m) (m_end m) H2).
    by rewrite (slice_drop text last (m_start m) H1).
Qed.

(** Putting every match back gives the text back. *)
Lemma re_sub_same r (text : list N) (repl : rmatch -> list N) :
  Forall (fun m => repl m = group0 text m) (finditer r text) ->
  re_sub r repl text = text.
Proof.
  intros H. rewrite re_sub_pieces. rewrite <- (drop_0 text) at 3.
  rewrite <- (sub_pieces_same text (finditer r text) 0) by apply finditer_chain.
  f_equal. generalize 0. induction H as [|m ms Hm _ IH]; intros last; [done|].
  cbn [sub_pieces]. by rewrite Hm, IH.
Qed.

(** X11. [load_tex] returns the main file as it is when none of the
    files its [\input] directives name exists: a directive whose file
    is missing is left in place, not dropped.  The file looked for is the
    name in the directive, with ".tex" added unless it ends with it,
    joined to the directory of the main file. *)
Theorem load_tex_missing_inputs (path_exists : list N -> bool)
    (read_file : list N -> option (list N)) (path content : list N) :
  read_file path = Some content ->
  Forall (fun m =>
            let fname := get_cap 1 (m_groups m) in
            path_exists (os_path_join (LatexChecker.os_path_dirname path)
                           (if negb (LatexChecker.endswith (str ".tex") fname)
                            then fname ++ str ".tex" else fname)) = false)
         (finditer LatexChecker.input_re content) ->
  LatexChecker.load_tex path_exists read_file path = Some content.
Proof.
  intros Hread Hmiss. unfold LatexChecker.load_tex. rewrite Hread. cbn [mbind option_bind].
  assert (Hres : Forall (fun m =>
            LatexChecker.resolve_input path_exists read_file
              (LatexChecker.os_path_dirname path) content m = Some (group0 content m))
            (finditer LatexChecker.input_re content)).
  { eapply Forall_impl; [exact Hmiss|]. intros m Hm. cbv zeta in Hm.
    unfold LatexChecker.resolve_input. cbv zeta. by rewrite Hm. }
  rewrite (proj2 (forallb_forall _ _)).
  - f_equal. apply re_sub_same. eapply Forall_impl; [exact Hres|].
    intros m Hm. by rewrite Hm.
  - intros m Hin%list_elem_of_In. rewrite Forall_forall in Hres.
    rewrite (Hres m Hin). by apply bool_decide_eq_true_2.
Qed.

Lemma load_tex_missing_inputs_witness :
  LatexChecker.load_tex (fun p => bool_decide (p = str "paper/main.tex"))
    (fun p => if bool_decide (p = str "paper/main.tex")
              then Some (str "a \input{intro} b \input{x.tex}") else None)
    (str "paper/main.tex")
  = Some (str "a \input{intro} b \input{x.tex}").
Proof.
  apply (load_tex_missing_inputs (fun p => bool_decide (p = str "paper/main.tex"))
    (fun p => if bool_decide (p = str "paper/main.tex")
              then Some (str "a \input{intro} b \input{x.tex}") else None)
    (str "paper/main.tex") (str "a \input{intro} b \input{x.tex}")).
  - reflexivity.
  - apply (bool_decide_unpack _). vm_compute. exact I.
Defined.


(** ** Markers left in a document *)

Lemma contains_spec (p t : list N) : contains p t = true <-> exists a b, t = a ++ p ++ b.
Proof.
  unfold contains. rewrite bool_decide_eq_true. split.
  - intros [i Hi]. apply find_Some in Hi. eauto.
  - intros (a & b & ->). destruct (find p (a ++ p ++ b)) eqn:E; [done|].
    apply (find_None _ _ (length a)) in E. rewrite drop_app_length in E.
    rewrite (proj2 (startswith_spec p (p ++ b))) in E by eauto. done.
Qed.

Lemma contains_take (p t : list N) n : contains p t = false -> contains p (take n t) = false.
Proof.
  intros H. destruct (contains p (take n t)) eqn:E; [|done].
  apply contains_spec in E as (a & b & E). rewrite <- H. symmetry. apply contains_spec.
  exists a, (b ++ drop n t). rewrite <- (take_drop n t) at 1. rewrite E. by rewrite <- !app_assoc.
Qed.

Lemma contains_drop (p t : list N) n : contains p t = false -> contains p (drop n t) = false.
Proof.
  intros H. destruct (contains p (drop n t)) eqn:E; [|done].
  apply contains_spec in E as (a & b & E). rewrite <- H. symmetry. apply contains_spec.
  exists (take n t ++ a), b. rewrite <- (take_drop n t) at 1. rewrite E. by rewrite <- !app_assoc.
Qed.

Lemma contains_slice (p t : list N) a b : contains p t = false -> contains p (slice t a b) = false.
Proof. intros H. unfold slice. by apply contains_take, contains_drop. Qed.

Lemma contains_char (c : N) (t : list N) : c ∉ t -> contains [c] t = false.
Proof.
  intros H. destruct (contains [c] t) eqn:E; [|done].
  apply contains_spec in E as (a & b & ->). exfalso. apply H.
  rewrite !elem_of_app. right. left. apply list_elem_of_here.
Qed.

(** X12. [check_todos] looks for its markers without regard to case but
    decides whether a marker is in a comment with the marker as written
    in its list, in upper case.  So in a text without a percent sign, and
    also in a text in which no marker occurs in upper case, every match
    is reported, whether it stands in a comment or not: the issues are
    as many as the matches of the five patterns. *)
Theorem check_todos_reports_all (text : list N) :
  ch "%" ∉ text \/ Forall (fun pat => contains pat text = false) LatexChecker.TODO_PATTERNS ->
  length (LatexChecker.check_todos text)
  = sum_list ((fun pat => length (finditer (LatexChecker.marker_re pat) text))
                <$> LatexChecker.TODO_PATTERNS).
Proof.
  intros H. unfold LatexChecker.check_todos.
  assert (G : Forall (fun pat => forall m, length (LatexChecker.todo_issue text pat m) = 1)
                     LatexChecker.TODO_PATTERNS).
  { apply Forall_forall. intros pat Hpat m. unfold LatexChecker.todo_issue. cbv zeta.
    match goal with |- context [contains (str "%") ?l] =>
      assert (contains (str "%") l = false) as ->; [|done] end.
    destruct H as [H|H].
    - apply contains_take, contains_slice. by apply contains_char.
    - rewrite Forall_forall in H. rewrite (contains_slice pat text _ _ (H pat Hpat)). done. }
  clear H. induction G as [|pat pats Hpat _ IH]; [done|].
  cbn [flat_map fmap list_fmap sum_list sum_list_with]. rewrite length_app, IH. f_equal.
  induction (finditer _ text) as [|m ms IHm]; [done|].
  cbn [flat_map]. rewrite length_app, Hpat, IHm. done.
Qed.

Lemma check_todos_reports_all_witness :
  length (LatexChecker.check_todos (str "x = 1 % todo: check")) = 1.
Proof.
  apply (check_todos_reports_all (str "x = 1 % todo: check")).
  right. apply (bool_decide_unpack _). vm_compute. exact I.
Defined.


(** ** Required and expected sections *)

(** X13. Every section [check_required_sections] reports as missing and
    required it also reports as missing and expected, in the same order:
    the first list is a sublist of the second, whatever the document. *)
Theorem required_sections_expected (lower : list N -> list N) (tex_content : list N) :
  (LatexChecker.check_required_sections lower tex_content).1
  `sublist_of` (LatexChecker.check_required_sections lower tex_content).2.
Proof.
  unfold LatexChecker.check_required_sections. cbv zeta. cbn [fst snd].
  set (names := (fun s => strip (lower s)) <$> re_findall LatexChecker.section_re tex_content).
  set (has_abstract := bool_decide (is_Some _)).
  unfold LatexChecker.EXPECTED_SECTIONS. cbn [foldl].
  rewrite (bool_decide_eq_true_2 (str "abstract" = str "abstract")) by done.
  rewrite !(bool_decide_eq_false_2 (_ = str "abstract")) by done.
  change (LatexChecker.title (str "introduction")) with (str "Introduction").
  generalize (LatexChecker.title (str "related work")) (LatexChecker.title (str "method"))
    (LatexChecker.title (str "experiment")) (LatexChecker.title (str "result"))
    (LatexChecker.title (str "conclusion")).
  intros t1 t2 t3 t4 t5.
  destruct has_abstract, (bool_decide (str "abstract" ∈ names)),
    (existsb (contains (str "introduction")) names),
    (existsb (contains (str "related work")) names),
    (existsb (contains (str "method")) names),
    (existsb (contains (str "experiment")) names),
    (existsb (contains (str "result")) names),
    (existsb (contains (str "conclusion")) names);
    cbn [negb andb app];
    repeat first [ reflexivity | apply sublist_nil_l | apply sublist_skip
                 | apply sublist_cons | apply sublist_inserts_r ].
Qed.


(** ** The word count of plain prose *)

Lemma re_sub_none p r repl (text : list N) :
  first_class p r -> (forall c, c ∈ text -> p c = false) -> re_sub r repl text = text.
Proof.
  intros Hr Hp. unfold re_sub. by rewrite (first_class_none p r text Hr Hp).
Qed.

(** X14. On a text with no percent sign, dollar sign, backslash or
    brace, none of the removals of [estimate_word_count] finds anything
    to remove, and the estimate is the number of words of the text: its
    maximal runs of characters that are no white space. *)
Theorem estimate_word_count_prose (text : list N) :
  ch "%" ∉ text -> ch "$" ∉ text -> BSL ∉ text -> ch "{" ∉ text -> ch "}" ∉ text ->
  LatexChecker.estimate_word_count text = length (LatexChecker.py_split text).
Proof.
  intros H1 H2 H3 H4 H5. unfold LatexChecker.estimate_word_count. cbv zeta.
  assert (Hno : forall c, c ∉ text -> forall x, x ∈ text -> eqc c x = false).
  { intros c Hc x Hx. unfold eqc. destruct (N.eqb_spec x c) as [->|]; done. }
  rewrite (re_sub_none (eqc (ch "%")) _ _ text);
    [|apply first_Seq, first_Seq, first_Chr|by apply Hno].
  rewrite (re_sub_none (eqc (ch "$")) _ _ text);
    [|apply first_Seq, first_Seq, first_Chr|by apply Hno].
  rewrite (re_sub_none (eqc (ch "$")) _ _ text);
    [|apply first_Seq, first_Seq, first_Chr|by apply Hno].
  rewrite (re_sub_none (eqc BSL) _ _ text);
    [|apply first_Seq, first_Seq, first_Chr|by apply Hno].
  rewrite (re_sub_none (eqc BSL) _ _ text);
    [|apply first_Seq, first_Seq, first_Chr|by apply Hno].
  rewrite (re_sub_none (eqc BSL) _ _ text);
    [|apply first_Seq, first_Seq, first_Chr|by apply Hno].
  rewrite (re_sub_none (fun c => N.eqb c (ch "{") || N.eqb c (ch "}") || N.eqb c BSL) _ _ text);
    [done|apply first_Chr|].
  intros x Hx. rewrite !orb_false_iff.
  split; [split|]; [apply (Hno _ H4 x Hx)|apply (Hno _ H5 x Hx)|apply (Hno _ H3 x Hx)].
Qed.

Lemma estimate_word_count_prose_witness :
  LatexChecker.estimate_word_count (str "We  propose a method.") = 4.
Proof.
  apply (estimate_word_count_prose (str "We  propose a method."));
    apply (bool_decide_unpack _); vm_compute; exact I.
Defined.

(** ** The line number of an error *)


Lemma str_of_nat_digits n : str_of_nat n = digits_of (Nat.to_uint n).
Proof. done. Qed.

Lemma int_of_digits U d : forall acc,
  foldl (fun acc c => (10 * acc + default 0 (decimal_value U c))%N) acc (digits_of d)
  = N.of_nat (Nat.of_uint_acc d (N.to_nat acc)).
Proof.
  induction d as [|d IH|d IH|d IH|d IH|d IH|d IH|d IH|d IH|d IH|d IH]; intros acc;
    [simpl; by rewrite N2Nat.id|..];
    match goal with
    | |- context [digits_of (?D d)] =>
        let l := eval cbv in (digits_of (D Decimal.Nil)) in
        match l with
        | [?c] => change (digits_of (D d)) with (c :: digits_of d);
                  cbn [foldl Nat.of_uint_acc]; rewrite IH; do 2 f_equal;
                  rewrite Nat.tail_mul_spec;
                  let v := eval vm_compute in (decimal_value U c) in
                  change (decimal_value U c) with v;
                  cbn [default]; rewrite N2Nat.inj_add, N2Nat.inj_mul;
                  match goal with |- context [N.to_nat 10 * _ + N.to_nat ?k] =>
                    let kv := eval vm_compute in (N.to_nat k) in
                    change (N.to_nat k) with kv; change (N.to_nat 10) with 10 end;
                  lia
        end
    end.
Qed.

Lemma int_of_str_of_nat U n :
  int_of U (str_of_nat n)
  = if INT_MAX_STR_DIGITS <? length (str_of_nat n) then None else Some (N.of_nat n).
Proof.
  unfold int_of. destruct (INT_MAX_STR_DIGITS <? length (str_of_nat n)); [done|].
  rewrite str_of_nat_digits, int_of_digits.
  change (N.to_nat 0) with 0. fold (Nat.of_uint (Nat.to_uint n)).
  by rewrite DecimalNat.Unsigned.of_to.
Qed.

Lemma digits_of_digits U d : Forall (fun c => is_digit U c = true) (digits_of d).
Proof.
  induction d; [constructor|..]; (constructor; [done|exact IHd]).
Qed.

Lemma str_of_nat_nonempty n : str_of_nat n <> [].
Proof.
  rewrite str_of_nat_digits.
  assert (H : Nat.to_uint n <> Decimal.Nil).
  { rewrite <- (DecimalNat.Unsigned.of_to n) at 1. rewrite DecimalNat.Unsigned.to_of.
    unfold Decimal.unorm. by destruct (Decimal.nzhead _). }
  by destruct (Nat.to_uint n).
Qed.

Lemma run_head (kw : list N) (p : N -> bool) prv (w r : list N) :
  w <> [] -> Forall (fun c => p c = true) w ->
  match r with c :: _ => p c = false | [] => True end ->
  exists l,
    exec (seqs [lit kw; Group 1 (Plus (Chr p))]) (St prv (kw ++ w ++ r) [])
    = St (last_or prv (kw ++ w)) r [(1, w)] :: l.
Proof.
  intros Hne Hw Hr. unfold seqs. cbn [foldr].
  change (exec (Seq ?a ?b) ?s) with (flat_map (exec b) (exec a s)).
  rewrite exec_lit. cbn [rest prev caps].
  rewrite (proj2 (startswith_spec kw _)) by eauto. rewrite drop_app_length.
  cbn [flat_map]. rewrite app_nil_r.
  change (exec (Seq ?a ?b) ?s) with (flat_map (exec b) (exec a s)).
  destruct w as [|c w]; [done|]. apply Forall_cons in Hw as [Hc Hw].
  set (pv := match last kw with Some c0 => Some c0 | None => prv end).
  unfold Plus. cbn [exec rest caps prev app]. rewrite Hc. cbn [flat_map rest].
  fold (exec (Chr p)).
  destruct (star_greedy_head p (length (w ++ r)) w (St (Some c) (w ++ r) []) r)
    as (l & ->); [done|done|done|rewrite length_app; lia|].
  rewrite app_nil_r. cbn [fmap list_fmap flat_map rest prev caps exec set_cap filter list_filter app].
  replace (take (length (c :: w ++ r) - length r) (c :: w ++ r)) with (c :: w).
  - eexists. f_equal. f_equal. unfold last_or. rewrite last_app. cbn [last].
    rewrite last_cons. by destruct (last w).
  - rewrite (app_comm_cons w). rewrite length_app.
    replace (length (c :: w) + length r - length r) with (length (c :: w)) by lia.
    by rewrite take_app_length.
Qed.

Lemma line_number_first U : first_class (eqc (ch "l")) (line_number U).
Proof. apply first_Seq, first_Seq, first_Chr. Qed.

Lemma line_number_search U (pre post : list N) n :
  ch "l" ∉ pre ->
  match post with c :: _ => is_digit U c = false | [] => True end ->
  exists m, re_search (line_number U) (pre ++ str "l." ++ str_of_nat n ++ post) = Some m
            /\ get_cap 1 (m_groups m) = str_of_nat n.
Proof.
  intros Hpre Hpost. unfold re_search, finditer.
  rewrite (scan_skip_prefix _ _ _ (line_number_first U)).
  2:{ intros c Hc. unfold eqc. destruct (N.eqb_spec c (ch "l")) as [->|]; done. }
  destruct (run_head (str "l.") (is_digit U) (last_or None pre) (str_of_nat n) post)
    as (l & Hl); [apply str_of_nat_nonempty|apply digits_of_digits|done|].
  assert (Hm : match_at (line_number U) (last_or None pre) (str "l." ++ str_of_nat n ++ post) false
               = Some (S (S (length (str_of_nat n))), [(1, str_of_nat n)])).
  { unfold match_at, line_number. rewrite Hl. cbn [negb orb]. rewrite filter_cons.
    rewrite decide_True by done. cbn [head fmap option_fmap option_map rest caps].
    do 2 f_equal. rewrite !length_app. change (length (str "l.")) with 2. lia. }
  destruct (scan_first_match (line_number U) (0 + length pre) _ _ _ _ Hm) as (l' & ->).
  eexists. split; [done|done].
Qed.

(** X15. The line number of an error is read from the first context
    line that holds the letter l: when that line has "l." followed by the
    decimal digits of [n] and then something that is no digit, the
    entry's line number is [n] as long as [n] has no more digits than
    [int] converts, 4300; with more digits [int] raises, and
    [parse_errors] with it. *)
Theorem first_line_num_reads (U : unicode_db) (before after : list (list N))
    (pre post : list N) (n : nat) :
  Forall (fun ctx => ch "l" ∉ ctx) before -> ch "l" ∉ pre ->
  match post with c :: _ => is_digit U c = false | [] => True end ->
  first_line_num U (before ++ (pre ++ str "l." ++ str_of_nat n ++ post) :: after)
  = if INT_MAX_STR_DIGITS <? length (str_of_nat n) then None else Some (Some (N.of_nat n)).
Proof.
  intros Hb Hpre Hpost. induction Hb as [|ctx before Hctx _ IH].
  - cbn [app first_line_num].
    destruct (line_number_search U pre post n Hpre Hpost) as (m & -> & ->).
    rewrite int_of_str_of_nat. by destruct (INT_MAX_STR_DIGITS <? length (str_of_nat n)).
  - cbn [app first_line_num]. unfold re_search at 1.
    rewrite (first_class_none _ _ _ (line_number_first U)); [exact IH|].
    intros c Hc. unfold eqc. destruct (N.eqb_spec c (ch "l")) as [->|]; done.
Qed.

Lemma first_line_num_reads_witness :
  first_line_num (Build_unicode_db (fun _ => false) (fun _ => None))
    ([str "<argument> x"] ++ (str "" ++ str "l." ++ str_of_nat 42 ++ str " \foo") :: [])
  = Some (Some 42%N).
Proof.
  apply (first_line_num_reads (Build_unicode_db (fun _ => false) (fun _ => None))
           [str "<argument> x"] [] (str "") (str " \foo") 42).
  - apply (bool_decide_unpack _). vm_compute. exact I.
  - apply (bool_decide_unpack _). vm_compute. exact I.
  - reflexivity.
Defined.

(** ** A bold tag *)

Lemma ieqc_refl c : ieqc c c = true.
Proof. unfold ieqc. by rewrite N.eqb_refl. Qed.

Lemma ieqc_not_lt c : c <> ch "<" -> ieqc (ch "<") c = false.
Proof.
  intros Hc. destruct (ieqc (ch "<") c) eqn:E; [|done]. by apply ieqc_lt in E.
Qed.

(** A pattern literal compiled with [re.IGNORECASE] matches its own text. *)
Lemma exec_ilit_exact (s r : list N) prv g :
  exec (ilit s) (St prv (s ++ r) g) = [St (last_or prv s) r g].
Proof.
  revert prv. induction s as [|c s IH]; intros prv; [done|].
  change (ilit (c :: s)) with (Seq (Chr (ieqc c)) (ilit s)).
  cbn [exec rest caps app]. rewrite ieqc_refl. cbn [flat_map].
  rewrite IH, app_nil_r. by rewrite last_or_cons.
Qed.

Lemma exec_ilit_lt_fails (s : list N) st :
  match rest st with c :: _ => c <> ch "<" | [] => True end ->
  exec (ilit (ch "<" :: s)) st = [].
Proof.
  intros H. change (ilit (ch "<" :: s)) with (Seq (Chr (ieqc (ch "<"))) (ilit s)).
  cbn [exec]. destruct (rest st) as [|c tl]; [done|]. by rewrite ieqc_not_lt.
Qed.

(** A lazy run stops at the first point where what follows matches. *)
Lemma star_lazy_head p (F : state -> list state) : forall (w : list N) fuel st r,
  rest st = w ++ r -> Forall (fun c => p c = true) w -> length w <= fuel ->
  (forall st', (exists c w2, rest st' = c :: w2 ++ r /\ c ∈ w) -> F st' = []) ->
  exists l, flat_map F (star_loop (exec (Chr p)) false fuel st)
            = F (St (last_or (prev st) w) r (caps st)) ++ l.
Proof.
  induction w as [|c w IH]; intros fuel [pv rs g] r Hr Hw Hlen Hfail; cbn [rest prev caps] in *.
  - simpl in Hr. subst rs. destruct fuel; cbn [star_loop flat_map]; eauto.
  - simpl in Hr. subst rs. destruct fuel as [|f]; [simpl in Hlen; lia|].
    apply Forall_cons in Hw as [Hc Hw]. cbn [star_loop flat_map].
    rewrite (Hfail (St pv (c :: w ++ r) g)).
    2:{ exists c, w. split; [done|apply list_elem_of_here]. }
    assert (Hstep : exec (Chr p) (St pv (c :: w ++ r) g) = [St (Some c) (w ++ r) g]).
    { simpl. by rewrite Hc. }
    rewrite Hstep. cbn [flat_map rest]. rewrite bool_decide_eq_true_2 by (simpl; lia).
    rewrite app_nil_r. cbn [app].
    destruct (IH f (St (Some c) (w ++ r) g) r) as (l & ->); [done|done|simpl in Hlen; lia| |].
    + intros st' (c' & w2 & Hst' & Hin). apply Hfail. exists c', w2.
      split; [done|by apply list_elem_of_further].
    + cbn [prev caps]. rewrite last_or_cons. eauto.
Qed.

Lemma flat_map_fmap {A B C} (f : A -> B) (F : B -> list C) (l : list A) :
  flat_map F (f <$> l) = flat_map (fun a => F (f a)) l.
Proof. induction l as [|a l IH]; [done|]. csimpl. by rewrite IH. Qed.

Lemma html_pair_b_match prv (x post : list N) :
  ch "<" ∉ x -> NL ∉ x ->
  match_at (html_pair (str "b")) prv (str "<b>" ++ x ++ str "</b>" ++ post) false
  = Some (S (6 + length x), [(1, x)]).
Proof.
  intros Hx Hnl. unfold match_at, html_pair, seqs. cbn [foldr].
  change (str "<" ++ str "b" ++ str ">") with (str "<b>").
  change (str "</" ++ str "b" ++ str ">") with (str "</b>").
  change (exec (Seq ?a ?b) ?s) with (flat_map (exec b) (exec a s)).
  rewrite exec_ilit_exact. cbn [flat_map]. rewrite app_nil_r.
  change (exec (Seq ?a ?b) ?s) with (flat_map (exec b) (exec a s)).
  cbn [exec rest]. rewrite flat_map_fmap.
  set (st0 := St (last_or prv (str "<b>")) (x ++ str "</b>" ++ post) []).
  destruct (star_lazy_head dot_noline
              (fun a => flat_map (fun st1 : state => [st1])
                 (exec (ilit (str "</b>"))
                    (set_cap 1 (take (length (x ++ str "</b>" ++ post) - length (rest a))
                                  (x ++ str "</b>" ++ post)) a)))
              x (length (x ++ str "</b>" ++ post)) st0 (str "</b>" ++ post))
    as (l & Hl); [done| |rewrite length_app; lia| |].
  - apply Forall_forall. intros c Hc. unfold dot_noline, neqc.
    destruct (N.eqb_spec c NL) as [->|]; done.
  - intros st' (c & w2 & Hst' & Hin).
    rewrite (exec_ilit_lt_fails (str "/b>")); [done|].
    cbn [set_cap rest]. rewrite Hst'. by intros ->.
  - fold (exec (Chr dot_noline)).
    rewrite Hl. unfold set_cap, st0. cbn [rest caps prev].
    rewrite exec_ilit_exact. cbn [flat_map exec app negb orb].
    rewrite filter_cons, decide_True by done.
    cbn [head fmap option_fmap option_map rest caps]. f_equal. f_equal.
    + rewrite !length_app. change (length (str "<b>")) with 3.
      change (length (str "</b>")) with 4. lia.
    + f_equal. f_equal. rewrite length_app.
      replace (length x + length (str "</b>" ++ post) - length (str "</b>" ++ post))
        with (length x) by lia.
      by rewrite take_app_length.
Qed.

(** Nothing is found where no match can start. *)
Lemma scan_none p r : first_class p r ->
  forall (txt : list N) pos prv skip,
    (forall c, c ∈ drop skip txt -> p c = false) -> scan r pos prv txt skip = [].
Proof.
  intros Hr. induction txt as [|c tl IH]; intros pos prv skip Hp.
  - destruct skip; [|done]. cbn [scan].
    destruct (match_at r prv [] false) as [[n g]|] eqn:E; [|done].
    apply match_at_some_exec in E as (st' & Hst').
    by apply Hr in Hst' as (c' & tl' & ? & _).
  - destruct skip as [|k]; cbn [scan].
    + rewrite (first_class_no_match p) by (try done; apply Hp, list_elem_of_here).
      apply IH. intros x Hx. apply Hp. rewrite drop_0 in *. by apply list_elem_of_further.
    + apply IH. intros x Hx. by apply Hp.
Qed.

Lemma rows_no_tag (rows : list (re * (rmatch -> list N) * list N)) (content : list N) fixes :
  Forall (fun row : re * (rmatch -> list N) * list N => first_class (ieqc (ch "<")) row.1.1)
         rows ->
  ch "<" ∉ content ->
  foldl (fun '(content, fixes) '(pattern, repl, fix_name) =>
           let matches := finditer pattern content in
           if bool_decide (matches <> []) then
             (re_sub pattern repl content,
              fixes ++ [mkLatexFix fix_name
                          (str "Replaced " ++ str_of_nat (length matches) ++ str " HTML "
                           ++ fix_name ++ str " tags")])
           else (content, fixes))
        (content, fixes) rows
  = (content, fixes).
Proof.
  intros Hf Hno. induction Hf as [|[[r repl] nm] rows Hr _ IH]; [done|].
  cbn [foldl]. rewrite (first_class_none _ r content Hr).
  - rewrite bool_decide_eq_false_2 by (by intros []). apply IH.
  - intros c Hc. apply ieqc_not_lt. by intros ->.
Qed.

(** X16. A bold tag in a text that has no other [<] becomes a
    [\textbf] command: for a tag body without newline, [fix_html_tags]
    returns the text with [<b>body</b>] replaced by [\textbf{body}] and
    records the one fix "html_bold". *)
Theorem fix_html_tags_bold (pre x post : list N) :
  ch "<" ∉ pre -> ch "<" ∉ x -> NL ∉ x -> ch "<" ∉ post ->
  fix_html_tags (pre ++ str "<b>" ++ x ++ str "</b>" ++ post)
  = (pre ++ str "\textbf{" ++ x ++ str "}" ++ post,
     [mkLatexFix (str "html_bold") (str "Replaced 1 HTML html_bold tags")]).
Proof.
  intros Hpre Hx Hnl Hpost.
  set (content := pre ++ str "<b>" ++ x ++ str "</b>" ++ post).
  assert (Hfirst : first_class (ieqc (ch "<")) (html_pair (str "b"))).
  { pose proof replacements_first as H. unfold replacements in H.
    by apply Forall_cons in H as [H _]. }
  assert (Hfind : finditer (html_pair (str "b")) content
                  = [Match (length pre) (length pre + S (6 + length x)) [(1, x)]]).
  { unfold finditer, content.
    rewrite (scan_skip_prefix _ _ _ Hfirst) by (intros c Hc; apply ieqc_not_lt; by intros ->).
    change (str "<b>" ++ x ++ str "</b>" ++ post)
      with (ch "<" :: str "b>" ++ x ++ str "</b>" ++ post).
    cbn [scan].
    change (ch "<" :: str "b>" ++ x ++ str "</b>" ++ post)
      with (str "<b>" ++ x ++ str "</b>" ++ post).
    rewrite (html_pair_b_match _ x post Hx Hnl). f_equal.
    apply (scan_none _ _ Hfirst). intros c Hc. apply ieqc_not_lt. intros ->.
    assert (Hd : drop (6 + length x) (str "b>" ++ x ++ str "</b>" ++ post) = post).
    { assert (He : str "b>" ++ x ++ str "</b>" ++ post = (str "b>" ++ x ++ str "</b>") ++ post)
        by (by rewrite <- !app_assoc).
      rewrite He.
      replace (6 + length x) with (length (str "b>" ++ x ++ str "</b>"))
        by (rewrite !length_app; change (length (str "b>")) with 2;
            change (length (str "</b>")) with 4; lia).
      by rewrite drop_app_length. }
    rewrite Hd in Hc. done. }
  unfold fix_html_tags. fold content.
  match goal with |- context [foldl ?s _ _] => set (step := s) end.
  unfold replacements.
  match goal with |- foldl step ?a (?r :: ?l) = _ =>
    change (foldl step a (r :: l)) with (foldl step (step a r) l) end.
  unfold step at 2. cbv beta iota zeta. rewrite Hfind.
  rewrite bool_decide_eq_true_2 by done.
  assert (Hsub : re_sub (html_pair (str "b"))
                   (fun m => str "\textbf{" ++ get_cap 1 (m_groups m) ++ str "}") content
                 = pre ++ str "\textbf{" ++ x ++ str "}" ++ post).
  { unfold re_sub. rewrite Hfind. cbn [foldl m_start m_end m_groups app].
    unfold slice. rewrite drop_0, Nat.sub_0_r. unfold content.
    rewrite take_app_length. unfold get_cap. cbn [List.find fst snd Nat.eqb].
    rewrite <- !app_assoc. do 3 f_equal.
    rewrite drop_app_ge by lia.
    assert (He : str "<b>" ++ x ++ str "</b>" ++ post = (str "<b>" ++ x ++ str "</b>") ++ post)
      by (by rewrite <- !app_assoc).
    rewrite He.
    replace (length pre + S (6 + length x) - length pre)
      with (length (str "<b>" ++ x ++ str "</b>"))
      by (rewrite !length_app; change (length (str "<b>")) with 3;
          change (length (str "</b>")) with 4; lia).
    by rewrite drop_app_length. }
  rewrite Hsub. unfold step.
  apply rows_no_tag.
  - pose proof replacements_first as H. unfold replacements in H.
    by apply Forall_cons in H as [_ H].
  - rewrite !elem_of_app. intros [H|[H|[H|[H|H]]]]; try done.
    + vm_compute in H. repeat (apply elem_of_cons in H as [H|H]; [done|]).
      by apply elem_of_nil in H.
    + change (str "}") with [ch "}"] in H. by apply list_elem_of_singleton in H.
Qed.

Lemma fix_html_tags_bold_witness :
  fix_html_tags (str "a " ++ str "<b>" ++ str "very" ++ str "</b>" ++ str " good")
  = (str "a " ++ str "\textbf{" ++ str "very" ++ str "}" ++ str " good",
     [mkLatexFix (str "html_bold") (str "Replaced 1 HTML html_bold tags")]).
Proof.
  apply (fix_html_tags_bold (str "a ") (str "very") (str " good"));
    apply (bool_decide_unpack _); vm_compute; exact I.
Defined.

(** ** The classifier and the limit of [int] *)

Lemma longest_run_mono p (l : list N) : forall cur cur',
  cur <= cur' -> longest_run p cur l <= longest_run p cur' l.
Proof.
  induction l as [|c l IH]; intros cur cur' H; cbn [longest_run]; [done|].
  destruct (p c); [apply IH; lia|lia].
Qed.

Lemma longest_run_ge p (l : list N) : forall cur, cur <= longest_run p cur l.
Proof.
  induction l as [|c l IH]; intros cur; cbn [longest_run]; [done|].
  destruct (p c); [|lia]. specialize (IH (S cur)). lia.
Qed.

Lemma longest_run_run p (w b : list N) : forall cur,
  Forall (fun c => p c = true) w -> cur + length w <= longest_run p cur (w ++ b).
Proof.
  induction w as [|c w IH]; intros cur Hw; cbn [app longest_run length].
  - pose proof (longest_run_ge p b cur). lia.
  - apply Forall_cons in Hw as [-> Hw]. specialize (IH (S cur) Hw). lia.
Qed.

Lemma longest_run_skip p (a l : list N) : forall cur,
  longest_run p 0 l <= longest_run p cur (a ++ l).
Proof.
  induction a as [|c a IH]; intros cur; cbn [app longest_run].
  - apply longest_run_mono. lia.
  - destruct (p c); [apply IH|]. specialize (IH 0). lia.
Qed.

(** A run of the class inside a text is no longer than the longest. *)
Lemma longest_run_infix p (a w b : list N) :
  Forall (fun c => p c = true) w -> length w <= longest_run p 0 (a ++ w ++ b).
Proof.
  intros Hw. etrans; [|apply longest_run_skip].
  pose proof (longest_run_run p w b 0 Hw). lia.
Qed.

Lemma run_match_inv (kw : list N) (p : N -> bool) prv txt ma n g :
  match_at (seqs [lit kw; Group 1 (Plus (Chr p))]) prv txt ma = Some (n, g) ->
  exists w k, get_cap 1 g = w /\ Forall (fun c => p c = true) w /\ txt = kw ++ w ++ k.
Proof.
  intros (st' & Hin & Htxt & Hn & ->)%match_at_consumes.
  unfold seqs in Hin. cbn [foldr] in Hin.
  change (exec (Seq ?a ?b) ?s) with (flat_map (exec b) (exec a s)) in Hin.
  apply in_flat_map in Hin as (st1 & H1 & Hin).
  rewrite exec_lit in H1. cbn [rest prev caps] in H1.
  destruct (startswith kw txt) eqn:EA; [|done]. destruct H1 as [<-|[]].
  apply startswith_spec in EA as (k & ->).
  rewrite exec_seq_eps in Hin.
  cbn [exec] in Hin. apply list_elem_of_In, list_elem_of_fmap in Hin as (st2 & -> & H2).
  apply list_elem_of_In in H2. fold (Plus (Chr p)) in H2.
  apply exec_plus_chr in H2 as (w & Hne & Hw & Hr & Hc).
  cbn [rest caps] in Hr, Hc. rewrite drop_app_length in Hr. subst k.
  exists w, (rest st2). cbn [rest caps set_cap]. rewrite drop_app_length, length_app.
  replace (length w + length (rest st2) - length (rest st2)) with (length w) by lia.
  rewrite take_app_length. unfold get_cap. cbn [List.find fst snd Nat.eqb]. done.
Qed.

(** The digits of a line number found in a line are a run of digits of
    that line. *)
Lemma line_number_digits U (ctx : list N) m :
  re_search (line_number U) ctx = Some m ->
  length (get_cap 1 (m_groups m)) <= longest_run (is_digit U) 0 ctx.
Proof.
  unfold re_search. intros Hm.
  pose proof (finditer_sound (line_number U) ctx) as Hs.
  destruct (finditer (line_number U) ctx) as [|m' ms]; [done|]. injection Hm as ->.
  apply Forall_cons in Hs as [(_ & ma & Hma) _].
  apply run_match_inv in Hma as (w & k & -> & Hw & Hctx).
  rewrite <- (take_drop (m_start m) ctx), Hctx.
  rewrite (app_assoc (take _ _)). by apply longest_run_infix.
Qed.

Lemma first_line_num_total U (ctxs : list (list N)) :
  Forall (fun ctx => longest_run (is_digit U) 0 ctx <= INT_MAX_STR_DIGITS) ctxs ->
  is_Some (first_line_num U ctxs).
Proof.
  induction 1 as [|ctx ctxs Hctx _ IH]; cbn [first_line_num]; [done|].
  destruct (re_search (line_number U) ctx) as [m|] eqn:E; [|done].
  apply line_number_digits in E. unfold int_of.
  destruct (Nat.ltb_spec INT_MAX_STR_DIGITS (length (get_cap 1 (m_groups m)))); [lia|done].
Qed.

(** [parse_errors] returns on a log without a run of more digits than
    [int] converts. *)
Lemma parse_errors_total U (log : list N) :
  Forall (fun line => longest_run (is_digit U) 0 line <= INT_MAX_STR_DIGITS) (split_lines log) ->
  is_Some (parse_errors U log).
Proof.
  intros Hb. rewrite parse_errors_unfold. set (lines := split_lines log) in *.
  destruct (mapM_is_Some_2 (error_of U lines) (zip (seq 0 (length lines)) lines)) as [rs ->];
    [|done].
  apply Forall_forall. intros [i line] (k & Hk)%list_elem_of_lookup.
  apply lookup_zip_with_Some in Hk as (i' & line' & [= <- <-] & Hi & Hl).
  apply lookup_seq in Hi as [-> Hlt]. simpl in Hlt.
  unfold compose, error_of. cbn [fst snd].
  destruct (startswith (str "! ") line); [|done]. cbv zeta.
  change (0 + k) with k. rewrite context_window by done.
  destruct (first_line_num_total U (take 5 (drop (S k) lines))) as [ln ->]; [|done].
  by apply Forall_take, Forall_drop.
Qed.

(** C9 (as amended). [parse_errors] returns on every log in which no
    run of decimal digits is longer than the 4300 digits that [int]
    converts.  Whenever it returns, it returns first one error entry per
    line that starts with "! " (in line order, its message the rest of
    the line, its type chosen by [classify], which always answers with
    one of the seven error types, "other" when no phrase is found), then
    one entry per line that mentions an undefined citation or reference,
    with the key quoted on that line; so the entries with an error type
    are as many as the lines that start with "! ".  On the log line
    "! Undefined control sequence." the entry has type undefined_command
    and message "Undefined control sequence."; a warning about the
    undefined citation smith20 gives an entry with that key. *)
Theorem parse_errors_additive (U : unicode_db) (log : list N) :
  (Forall (fun line => longest_run (is_digit U) 0 line <= INT_MAX_STR_DIGITS)
          (split_lines log) ->
   is_Some (parse_errors U log))
  /\ (forall es, parse_errors U log = Some es ->
        (exists errors warnings,
           es = errors ++ warnings
           /\ message <$> errors
              = drop 2 <$> filter (fun l => is_error_line l) (split_lines log)
           /\ Forall (fun e => type e = classify (message e) /\ type e ∈ ERROR_TYPES
                               /\ key e = None)
                     errors
           /\ warnings = omap warning_of (split_lines log)
           /\ Forall (fun w => (type w = str "undefined_citation"
                                \/ type w = str "undefined_reference")
                               /\ exists line, line ∈ split_lines log
                                               /\ key w = Some (key_of line)
                                               /\ message w = strip line)
                     warnings)
        /\ length (filter (fun e => type e ∈ ERROR_TYPES) es)
           = length (filter (fun l => is_error_line l) (split_lines log)))
  /\ parse_errors U (str "! Undefined control sequence." ++ [NL] ++ str "l.12 \foo")
     = Some [Error (str "Undefined control sequence.") [str "l.12 \foo"] (Some 12%N)
               (str "undefined_command") None]
  /\ parse_errors U (str "LaTeX Warning: Citation `smith20' on page 1 undefined.")
     = Some [Error (str "LaTeX Warning: Citation `smith20' on page 1 undefined.") [] None
               (str "undefined_citation") (Some (str "smith20"))].
Proof.
  split; [apply parse_errors_total|]. split; [|split; by vm_compute].
  intros es Hes.
  destruct (parse_errors_split U log es Hes) as (errors & warnings & -> & Hmsg & Herr & Hwarn).
  assert (Herr' : Forall (fun e => type e = classify (message e) /\ type e ∈ ERROR_TYPES
                                   /\ key e = None) errors).
  { eapply Forall_impl; [exact Herr|]. intros e [Ht Hk]. split; [done|]. split; [|done].
    rewrite Ht. apply classify_types. }
  assert (Hwarn' : Forall (fun w =>
            (type w = str "undefined_citation" \/ type w = str "undefined_reference")
            /\ exists line, line ∈ split_lines log /\ key w = Some (key_of line)
                            /\ message w = strip line) warnings).
  { subst warnings. apply Forall_forall. intros w (line & Hl & Hw)%list_elem_of_omap.
    apply warning_of_type in Hw as (Ht & Hk & Hm). split; [done|]. by exists line. }
  split; [by exists errors, warnings|].
  rewrite filter_app, length_app.
  rewrite (filter_length_all _ errors).
  - rewrite (filter_length_none _ warnings).
    + rewrite <- (length_fmap message), Hmsg, length_fmap. lia.
    + eapply Forall_impl; [exact Hwarn'|]. intros w [[Ht|Ht] _]; rewrite Ht;
        unfold ERROR_TYPES; intros Hin;
        repeat (apply elem_of_cons in Hin as [Hin|Hin]; [by vm_compute in Hin|]);
        by apply elem_of_nil in Hin.
  - eapply Forall_impl; [exact Herr'|]. by intros e (_ & ? & _).
Qed.

Lemma parse_errors_additive_witness :
  is_Some (parse_errors (Build_unicode_db (fun _ => false) (fun _ => None))
             (str "! Missing $ inserted." ++ [NL] ++ str "l.7 a_b" ++ [NL]
              ++ str "Reference `fig:1' undefined"))
  /\ length (filter (fun e => type e ∈ ERROR_TYPES)
               [Error (str "Missing $ inserted.") [str "l.7 a_b"; str "Reference `fig:1' undefined"]
                  (Some 7%N) (str "missing_math") None;
                Error (str "Reference `fig:1' undefined") [] None (str "undefined_reference")
                  (Some (str "fig:1"))])
     = length (filter (fun l => is_error_line l)
                 (split_lines (str "! Missing $ inserted." ++ [NL] ++ str "l.7 a_b" ++ [NL]
                               ++ str "Reference `fig:1' undefined"))).
Proof.
  split.
  - apply (proj1 (parse_errors_additive (Build_unicode_db (fun _ => false) (fun _ => None))
                    (str "! Missing $ inserted." ++ [NL] ++ str "l.7 a_b" ++ [NL]
                     ++ str "Reference `fig:1' undefined"))).
    apply (bool_decide_unpack _). vm_compute. exact I.
  - apply (proj1 (proj2 (parse_errors_additive
                    (Build_unicode_db (fun _ => false) (fun _ => None))
                    (str "! Missing $ inserted." ++ [NL] ++ str "l.7 a_b" ++ [NL]
                     ++ str "Reference `fig:1' undefined")))).
    vm_compute. reflexivity.
Defined.

Lemma split_lines_no_nl (t : list N) : NL ∉ t -> split_lines t = [t].
Proof.
  intros H. rewrite <- (app_nil_r t) at 1. rewrite split_lines_prefix by done.
  cbn [split_lines]. by rewrite app_nil_r.
Qed.

Lemma line_number_search_run U (pre w post : list N) :
  ch "l" ∉ pre -> w <> [] -> Forall (fun c => is_digit U c = true) w ->
  match post with c :: _ => is_digit U c = false | [] => True end ->
  exists m, re_search (line_number U) (pre ++ str "l." ++ w ++ post) = Some m
            /\ get_cap 1 (m_groups m) = w.
Proof.
  intros Hpre Hne Hw Hpost. unfold re_search, finditer.
  rewrite (scan_skip_prefix _ _ _ (line_number_first U)).
  2:{ intros c Hc. unfold eqc. destruct (N.eqb_spec c (ch "l")) as [->|]; done. }
  destruct (run_head (str "l.") (is_digit U) (last_or None pre) w post)
    as (l & Hl); [done..|].
  assert (Hm : match_at (line_number U) (last_or None pre) (str "l." ++ w ++ post) false
               = Some (S (S (length w)), [(1, w)])).
  { unfold match_at, line_number. rewrite Hl. cbn [negb orb]. rewrite filter_cons.
    rewrite decide_True by done. cbn [head fmap option_fmap option_map rest caps].
    do 2 f_equal. rewrite !length_app. change (length (str "l.")) with 2. lia. }
  destruct (scan_first_match (line_number U) (0 + length pre) _ _ _ _ Hm) as (l' & ->).
  eexists. split; [done|done].
Qed.

(** The log of one error whose line number has 4301 digits:
    [parse_errors] raises, and no entry stands for the line that starts
    with "! ".  With 4300 digits it returns. *)
Lemma parse_errors_raises :
  parse_errors (Build_unicode_db (fun _ => false) (fun _ => None))
    (str "! x" ++ [NL] ++ str "l." ++ replicate 4301 (ch "9")) = None
  /\ length (filter (fun l => is_error_line l)
               (split_lines (str "! x" ++ [NL] ++ str "l." ++ replicate 4301 (ch "9")))) = 1
  /\ is_Some (parse_errors (Build_unicode_db (fun _ => false) (fun _ => None))
                (str "! x" ++ [NL] ++ str "l." ++ replicate 4300 (ch "9"))).
Proof.
  generalize (Build_unicode_db (fun _ => false) (fun _ => None)). intros U.
  assert (Hlines : forall w : list N, NL ∉ w ->
            split_lines (str "! x" ++ [NL] ++ str "l." ++ w) = [str "! x"; str "l." ++ w]).
  { intros w Hw. change (str "! x" ++ [NL] ++ str "l." ++ w)
      with (str "! x" ++ NL :: (str "l." ++ w)).
    rewrite split_lines_app_nl, (split_lines_no_nl (str "l." ++ w)); [done|].
    change (str "l.") with [ch "l"; ch "."]. cbn [app].
    intros [H|[H|H]%elem_of_cons]%elem_of_cons; done. }
  assert (Hnl : forall n, NL ∉ replicate n (ch "9")).
  { intros n H. by apply elem_of_replicate in H as [? _]. }
  assert (Hnines : forall n, Forall (fun c => is_digit U c = true) (replicate n (ch "9"))).
  { intros n. by apply Forall_replicate. }
  assert (Hrun : forall n cur, longest_run (is_digit U) cur (replicate n (ch "9")) = cur + n).
  { induction n as [|n IH]; intros cur; cbn [replicate longest_run]; [lia|].
    change (is_digit U (ch "9")) with true. cbv iota. rewrite IH. lia. }
  split; [|split].
  - pose proof (Hnines 4301) as Hw. pose proof (length_replicate 4301 (ch "9")) as Hlen.
    rewrite parse_errors_unfold, (Hlines _ (Hnl 4301)).
    generalize dependent (replicate 4301 (ch "9")). intros w Hw Hlen.
    assert (E : error_of U [str "! x"; str "l." ++ w] (0, str "! x") = None).
    { unfold error_of. cbn [fst snd]. change (startswith (str "! ") (str "! x")) with true.
      cbv iota zeta. rewrite (context_window _ 0) by (cbn [length]; lia).
      cbn [drop take first_line_num].
      destruct (line_number_search_run U [] w []) as (m & Hm & Hcap);
        [apply not_elem_of_nil|by intros ->|exact Hw|exact I|].
      rewrite app_nil_r in Hm. cbn [app] in Hm. rewrite Hm, Hcap.
      unfold int_of. rewrite Hlen. reflexivity. }
    cbn [length seq zip zip_with]. rewrite (mapM_None_2 (error_of U [str "! x"; str "l." ++ w]));
      [reflexivity|]. apply Exists_cons_hd. exact E.
  - rewrite (Hlines _ (Hnl 4301)). reflexivity.
  - apply parse_errors_total. rewrite (Hlines _ (Hnl 4300)).
    constructor; [vm_compute; lia|]. constructor; [|constructor].
    change (str "l.") with [ch "l"; ch "."]. cbn [app longest_run].
    change (is_digit U (ch "l")) with false.
    change (is_digit U (ch ".")) with false. cbv iota. cbn [Nat.max].
    rewrite Hrun. unfold INT_MAX_STR_DIGITS. lia.
Qed.
